(** * Media scanning orchestrator: batching queue and scan reconciliation

    A shallow embedding of [services/media_scanner.js], the Vision adapter
    ([google_vision_images_scanner.js]), [services/s3.js], [services/db.js],
    the batching queue ([services/queue.js]), the rate limiter
    ([services/rate_limiter.js]) and the file keys of the upload routes
    ([routes/media.js]), followed by the properties of the moderation
    pipeline.

    External collaborators (the Supabase client, the S3 client, the Vision
    endpoint, the Modal function, the URL signer and the clock) are an
    oracle indexed by the number of external operations performed so far,
    so that any run, with any pattern of failures, is covered. *)

From Stdlib Require Import ZArith Ascii String List Bool Lia Sorted.
From stdpp Require Import base strings gmap list pretty.

Local Open Scope string_scope.
Local Open Scope list_scope.

(** ** JavaScript values carried by jobs and verdicts *)

Inductive jsval : Type :=
| VUndef
| VNull
| VBool (b : bool)
| VNum (n : Z)
| VStr (s : string).

Global Instance jsval_eq_dec : EqDecision jsval.
Proof. solve_decision. Defined.

(** ToBoolean. *)
Definition truthy (v : jsval) : bool :=
  match v with
  | VUndef | VNull => false
  | VBool b => b
  | VNum n => negb (n =? 0)%Z
  | VStr s => negb (String.eqb s "")
  end.

(** ToString, as performed by template literals and property keys, on
    the numbers that are printed in full: integers below 10^21 in absolute
    value. *)
Definition to_str (v : jsval) : string :=
  match v with
  | VUndef => "undefined"
  | VNull => "null"
  | VBool true => "true"
  | VBool false => "false"
  | VNum n => pretty n
  | VStr s => s
  end.

(** [typeof v === "boolean"] *)
Definition is_boolean (v : jsval) : bool :=
  match v with VBool _ => true | _ => false end.

(** [typeof v === "string"] *)
Definition is_string (v : jsval) : bool :=
  match v with VStr _ => true | _ => false end.

(** [v === undefined || v === null], also [v == null]. *)
Definition nullish (v : jsval) : bool :=
  match v with VUndef | VNull => true | _ => false end.

(** [Array.prototype.includes] on an array of string literals
    (SameValueZero: only a string can be equal to a string). *)
Definition includes (l : list string) (v : jsval) : bool :=
  match v with
  | VStr s => existsb (String.eqb s) l
  | _ => false
  end.

(** [type.slice(0, -1)] *)
Definition slice_0_m1 (s : string) : string :=
  substring 0 (String.length s - 1) s.

(** ** Data model *)

(** A media job, with the fields listed in [queueMediaJob]. The [id] is the
    UUID string generated by the upload route. *)
Record Job : Type := mkJob {
  id : string;
  user_id : jsval;
  file_name : jsval;
  file_size : jsval;
  sha256_hash : jsval;
  mime_type : jsval;
  linked_to_id : jsval;
  linked_to_type : jsval;
  url : jsval
}.

Global Instance Job_eq_dec : EqDecision Job.
Proof. solve_decision. Defined.

(** One element of the scanner's result list. [job_id] is the property
    key the verdict is indexed under ([Object.fromEntries] applies
    ToString to it); [error] is the message of the [error] member when
    there is one. *)
Record Verdict : Type := mkVerdict {
  job_id : string;
  is_nsfw : jsval;
  width : jsval;
  height : jsval;
  duration : jsval;
  error : option string
}.

(** An element of [res.results] coming from the remote function: [null]
    and [undefined] have no properties to read, anything else is read as
    an object. *)
Inductive ResultEntry : Type :=
| RNullish
| RObj (v : Verdict).

Inductive Status : Type := AwaitingUpload | Pending | Complete.

Global Instance Status_eq_dec : EqDecision Status.
Proof. solve_decision. Defined.

(** A row of [media_jobs]. *)
Record JobRow : Type := mkJobRow {
  row_job : Job;
  status : Status
}.

(** The argument of [createMediaItem]. *)
Record MediaItem : Type := mkMediaItem {
  mi_job_id : string;
  mi_user_id : jsval;
  mi_file_name : jsval;
  mi_linked_to_id : jsval;
  mi_linked_to_type : jsval;
  mi_sha256_hash : jsval;
  mi_width : jsval;
  mi_height : jsval;
  mi_duration : jsval;
  mi_mime_type : jsval;
  mi_file_size : jsval;
  mi_moderation_status : string
}.

(** A row of [media], the approved-media record store. *)
Record MediaRow : Type := mkMediaRow {
  mr_job_id : string;
  mr_user_id : jsval;
  mr_linked_to_id : jsval;
  mr_linked_to_type : jsval;
  mr_file_name : jsval;
  mr_file_size : jsval;
  mr_file_hash : jsval;
  mr_mime_type : jsval;
  mr_moderation_status : string;
  mr_media_type : string;
  mr_duration : jsval;
  mr_width : jsval;
  mr_height : jsval
}.

(** The argument of [addBlockedHash] (the members the scanner passes). *)
Record BlockedHash : Type := mkBlockedHash {
  hash_value : jsval;
  hash_type : string;
  detected_type : string;
  source_type : string;
  detected_by : string;
  file_key : jsval
}.

(** The argument of [logSystemEvent], defaults applied. *)
Record LogArgs : Type := mkLog {
  description : jsval;
  action : string;
  error_name : option string;
  target_id : option string
}.

(** The argument of [moveObjectWithinBuckets]. *)
Record MoveArgs : Type := mkMove {
  fromKey : jsval;
  toKey : jsval;
  fromBucket : jsval;
  toBucket : jsval
}.

Inductive S3Command : Type :=
| CopyObjectCommand (Bucket : jsval) (CopySource : string) (Key : jsval)
| DeleteObjectCommand (Bucket : jsval) (Key : jsval).

Inductive Query : Type :=
| InsertMedia (r : MediaRow)
| InsertLog (l : LogArgs)
| InsertBlockedHash (b : BlockedHash)
| InsertUserBan (userId : jsval)
| UpdateComplete (ids : list string)
| SelectPending.

(** Replies of the external services. *)
Record VisionResponse : Type := mkVision {
  v_error : option string;
  v_annotation : option (jsval * jsval * jsval)
}.

Inductive VisionReply : Type :=
| VisionRejects (msg : string)
| VisionData (responses : list VisionResponse).

Inductive ModalRes : Type :=
| ResFalsy
| ResNoArray
| ResResults (results : list ResultEntry).

Inductive ModalReply : Type :=
| RemoteThrows (msg : string)
| RemoteReturns (res : ModalRes).

Inductive SignReply : Type :=
| SignThrows (msg : string)
| SignReturns (url : jsval).

Record Payload : Type := mkPayload {
  p_type : string;
  p_jobs : list (string * jsval)
}.

(** Calls to the collaborators, recorded when the call is made. *)
Inductive Call : Type :=
| CMove (a : MoveArgs)
| CCreateMediaItem (m : MediaItem)
| CAddBlockedHash (b : BlockedHash)
| CRestrictUser (userId : jsval)
| CLogSystemEvent (l : LogArgs)
| CMarkJobsAsComplete (jobs : list Job)
| CSafeSearch (jobs : list Job)
| CScanMediaJobs (jobs : list Job) (type : string)
| CQueueMediaJob (job : Job).

(** Observable events of a run: calls, external operations with their
    outcome ([None] is success, [Some msg] the error), console output and
    timers. *)
Inductive Event : Type :=
| ECall (c : Call)
| ES3Send (cmd : S3Command) (err : option string)
| ESupabase (q : Query) (err : option string)
| EVisionPost (urls : list jsval) (reply : VisionReply)
| ERemote (p : Payload) (reply : ModalReply)
| EPresign (fileKey : jsval) (reply : SignReply)
| ESleep (ms : Z)
| EConsole (level : string) (msg : string)
| ESetTimeout (isVideo : bool) (delay : Z)
| EClearTimeout (isVideo : bool)
| EUnhandledRejection (err : string).

(** The environment: what each external operation answers, by the index
    of the operation in the run. *)
Record Env : Type := mkEnv {
  s3_send_error : nat -> option string;
  supabase_error : nat -> option string;
  vision_post : nat -> VisionReply;
  modal_remote : nat -> ModalReply;
  presign : nat -> SignReply;
  date_now : nat -> Z
}.

(** ** State *)

(** The tables of the relational store. *)
Record Db : Type := mkDb {
  media : list MediaRow;
  media_jobs : list JobRow;
  blocked_hashes : list BlockedHash;
  users_bans : list jsval;
  logs : list LogArgs
}.

(** The module state of the queue. [imageTimer]/[videoTimer] hold the
    delay of the pending timeout of the class, if one is pending;
    [inFlight] is ghost state: the scans started and not yet settled. *)
Record QState : Type := mkQ {
  imageQueue : list Job;
  videoQueue : list Job;
  imageScanning : bool;
  videoScanning : bool;
  imageTimer : option Z;
  videoTimer : option Z;
  firstImageTime : option Z;
  firstVideoTime : option Z;
  inFlight : list (string * list Job)
}.

Record St : Type := mkSt {
  tick : nat;
  db : Db;
  qs : QState
}.

Definition set_db (f : Db -> Db) (st : St) : St :=
  mkSt (tick st) (f (db st)) (qs st).
Definition set_qs (f : QState -> QState) (st : St) : St :=
  mkSt (tick st) (db st) (f (qs st)).

(** ** The monad: state, event log and exceptions *)

Inductive Outcome (A : Type) : Type :=
| Ok (a : A)
| Throw (err : string).
Arguments Ok {A} a.
Arguments Throw {A} err.

Definition M (A : Type) : Type := St -> Outcome A * St * list Event.

Definition ret {A} (a : A) : M A := fun st => (Ok a, st, []).

Definition bind {A B} (m : M A) (f : A -> M B) : M B :=
  fun st =>
    match m st with
    | (Ok a, st1, e1) =>
        match f a st1 with
        | (r, st2, e2) => (r, st2, e1 ++ e2)
        end
    | (Throw err, st1, e1) => (Throw err, st1, e1)
    end.

Definition throw {A} (err : string) : M A := fun st => (Throw err, st, []).

(** [try { m } catch (err) { h err }] *)
Definition try_catch {A} (m : M A) (h : string -> M A) : M A :=
  fun st =>
    match m st with
    | (Ok a, st1, e1) => (Ok a, st1, e1)
    | (Throw err, st1, e1) =>
        match h err st1 with
        | (r, st2, e2) => (r, st2, e1 ++ e2)
        end
    end.

Definition emit (e : Event) : M unit := fun st => (Ok tt, st, [e]).
Definition get : M St := fun st => (Ok st, st, []).
Definition modify (f : St -> St) : M unit := fun st => (Ok tt, f st, []).

(** Takes the index of the next external operation. *)
Definition next_op : M nat :=
  fun st => (Ok (tick st), mkSt (S (tick st)) (db st) (qs st), []).

Global Instance M_ret : MRet M := @ret.
Global Instance M_bind : MBind M := fun A B f m => bind m f.

Definition console (level msg : string) : M unit := emit (EConsole level msg).

(** [console.error] and [console.warn] are recorded; [console.log] and
    [console.dir], which only narrate progress, are not. *)

(** [s.startsWith(p)]: a TypeError when [s] is not a string. *)
Definition starts_with (s : jsval) (p : string) : M bool :=
  match s with
  | VStr str => mret (String.prefix p str)
  | VUndef | VNull =>
      throw ("Cannot read properties of " +:+ to_str s +:+ " (reading 'startsWith')")
  | _ => throw "startsWith is not a function"
  end.

(** ** External operations *)

Section Collaborators.
Context (env : Env).

(** A Supabase query. The client resolves every query to
    [{ data, error }]; [apply] is its effect on the tables when it
    succeeds. *)
Definition supabase (q : Query) (apply : Db -> Db) : M (option string) :=
  n ← next_op;
  let err := supabase_error env n in
  emit (ESupabase q err);;
  match err with
  | None => modify (set_db apply);; mret None
  | Some e => mret (Some e)
  end.

(** [s3.send(command)]: rejects on error. *)
Definition s3_send (cmd : S3Command) : M unit :=
  n ← next_op;
  let err := s3_send_error env n in
  emit (ES3Send cmd err);;
  match err with
  | None => mret tt
  | Some e => throw e
  end.

(** [fn.remote([], payload)] *)
Definition remote (payload : Payload) : M ModalRes :=
  n ← next_op;
  let reply := modal_remote env n in
  emit (ERemote payload reply);;
  match reply with
  | RemoteThrows e => throw e
  | RemoteReturns res => mret res
  end.

(** [new Promise((r) => setTimeout(r, ms))] *)
Definition sleep (ms : Z) : M unit := emit (ESleep ms).

(** [Date.now()] *)
Definition Date_now : M Z :=
  n ← next_op; mret (date_now env n).

(** ** services/s3.js *)

Definition generateSignedGetUrl (fileKey : jsval) : M jsval :=
  n ← next_op;
  let reply := presign env n in
  emit (EPresign fileKey reply);;
  match reply with
  | SignThrows e => throw e
  | SignReturns u => mret u
  end.

Definition moveObjectWithinBuckets (a : MoveArgs) : M unit :=
  emit (ECall (CMove a));;
  s3_send (CopyObjectCommand (toBucket a)
             (to_str (fromBucket a) +:+ "/" +:+ to_str (fromKey a))
             (toKey a));;
  s3_send (DeleteObjectCommand (fromBucket a) (fromKey a)).

(** ** services/db.js *)

Definition media_row (m : MediaItem) (isVideo isImage : bool) : MediaRow :=
  {| mr_job_id := mi_job_id m;
     mr_user_id := mi_user_id m;
     mr_linked_to_id := mi_linked_to_id m;
     mr_linked_to_type := mi_linked_to_type m;
     mr_file_name := mi_file_name m;
     mr_file_size := mi_file_size m;
     mr_file_hash := mi_sha256_hash m;
     mr_mime_type := mi_mime_type m;
     mr_moderation_status := "approved";
     mr_media_type := if isImage then "image" else "video";
     mr_duration := if isVideo then mi_duration m else VNull;
     mr_width := mi_width m;
     mr_height := mi_height m |}.

Definition add_media (r : MediaRow) (d : Db) : Db :=
  mkDb (media d ++ [r]) (media_jobs d) (blocked_hashes d) (users_bans d) (logs d).
Definition add_blocked_hash (b : BlockedHash) (d : Db) : Db :=
  mkDb (media d) (media_jobs d) (blocked_hashes d ++ [b]) (users_bans d) (logs d).
Definition add_user_ban (u : jsval) (d : Db) : Db :=
  mkDb (media d) (media_jobs d) (blocked_hashes d) (users_bans d ++ [u]) (logs d).
Definition add_log (l : LogArgs) (d : Db) : Db :=
  mkDb (media d) (media_jobs d) (blocked_hashes d) (users_bans d) (logs d ++ [l]).

(** [update({ status: 'complete' }).in('id', ids)] *)
Definition complete_row (ids : list string) (r : JobRow) : JobRow :=
  if bool_decide (id (row_job r) ∈ ids) then mkJobRow (row_job r) Complete else r.
Definition set_complete (ids : list string) (d : Db) : Db :=
  mkDb (media d) (map (complete_row ids) (media_jobs d))
       (blocked_hashes d) (users_bans d) (logs d).

Definition createMediaItem (m : MediaItem) : M unit :=
  emit (ECall (CCreateMediaItem m));;
  if negb (truthy (VStr (mi_job_id m)))
     || negb (truthy (mi_user_id m))
     || negb (truthy (mi_linked_to_id m))
     || negb (truthy (mi_linked_to_type m))
     || negb (truthy (mi_file_name m))
     || negb (truthy (mi_file_size m))
     || negb (truthy (mi_sha256_hash m))
     || negb (truthy (mi_mime_type m))
     || negb (truthy (mi_width m))
     || negb (truthy (mi_height m))
  then throw "Invalid media item data"
  else if nullish (mi_width m) || nullish (mi_height m)
  then throw "Missing media dimensions"
  else
    isVideo ← starts_with (mi_mime_type m) "video";
    if isVideo && nullish (mi_duration m)
    then throw "Missing duration for video media item"
    else
      isImage ← starts_with (mi_mime_type m) "image";
      let row := media_row m isVideo isImage in
      err ← supabase (InsertMedia row) (add_media row);
      match err with
      | Some e => console "error" "Failed to insert media";; throw e
      | None => mret tt
      end.

Definition getPendingMediaJobs : M (list Job) :=
  st ← get;
  err ← supabase SelectPending (fun d => d);
  match err with
  | Some e => throw e
  | None =>
      mret (map row_job
              (filter (fun r => status r = Pending) (media_jobs (db st))))
  end.

Definition markJobsAsComplete (jobs : list Job) : M unit :=
  emit (ECall (CMarkJobsAsComplete jobs));;
  if (length jobs =? 0)%nat then mret tt
  else
    let ids := map id jobs in
    err ← supabase (UpdateComplete ids) (set_complete ids);
    match err with
    | Some e => throw e
    | None => mret tt
    end.

Definition logSystemEvent (l : LogArgs) : M unit :=
  emit (ECall (CLogSystemEvent l));;
  err ← supabase (InsertLog l) (add_log l);
  match err with
  | Some e => console "error" "[logSystemEvent] Failed to insert log:"
  | None => mret tt
  end.

Definition addBlockedHash (b : BlockedHash) : M unit :=
  emit (ECall (CAddBlockedHash b));;
  if negb (truthy (hash_value b))
     || negb (truthy (VStr (hash_type b)))
     || negb (truthy (VStr (detected_type b)))
  then throw "Missing required fields for blocked hash"
  else
    err ← supabase (InsertBlockedHash b) (add_blocked_hash b);
    match err with
    | Some e => console "error" "Error adding blocked hash:";; throw e
    | None => mret tt
    end.

Definition restrictUserMediaUploads (userId : jsval) : M unit :=
  emit (ECall (CRestrictUser userId));;
  err ← supabase (InsertUserBan userId) (add_user_ban userId);
  match err with
  | Some e => console "error" "[logSystemEvent] Failed to insert log:"
  | None => mret tt
  end.

(** ** services/google_vision_images_scanner.js *)

Definition likelihoods : list string := ["POSSIBLE"; "LIKELY"; "VERY_LIKELY"].

(** [likelihoods.some(l => [adult, violence, racy].includes(l))] *)
Definition flagged (adult violence racy : jsval) : bool :=
  existsb (fun l => existsb (fun v => bool_decide (v = VStr l))
                      [adult; violence; racy]) likelihoods.

(** The callback of [data.responses.map((res, i) => ...)]. *)
Definition visionVerdict (jobs : list Job) (res : VisionResponse) (i : nat)
  : M Verdict :=
  match v_error res with
  | Some msg =>
      match jobs !! i with
      | None => throw "Cannot read properties of undefined (reading 'id')"
      | Some job =>
          console "warn" ("[Vision API] Error in image " +:+ id job +:+ ":");;
          mret (mkVerdict (id job) (VBool false) VUndef VUndef VUndef (Some msg))
      end
  | None =>
      match v_annotation res with
      | None => throw "Cannot read properties of undefined (reading 'adult')"
      | Some (adult, violence, racy) =>
          match jobs !! i with
          | None => throw "Cannot read properties of undefined (reading 'id')"
          | Some job =>
              mret (mkVerdict (id job) (VBool (flagged adult violence racy))
                      VUndef VUndef VUndef None)
          end
      end
  end.

Fixpoint visionMap (jobs : list Job) (responses : list VisionResponse) (i : nat)
  : M (list ResultEntry) :=
  match responses with
  | [] => mret []
  | res :: rest =>
      v ← visionVerdict jobs res i;
      vs ← visionMap jobs rest (S i);
      mret (RObj v :: vs)
  end.

Definition safeSearchFromUrls (jobs : list Job) : M (list ResultEntry) :=
  emit (ECall (CSafeSearch jobs));;
  n ← next_op;
  let reply := vision_post env n in
  emit (EVisionPost (map url jobs) reply);;
  match reply with
  | VisionRejects e => throw e
  | VisionData responses => visionMap jobs responses 0
  end.

End Collaborators.

(** ** services/media_scanner.js *)

Definition MAX_RETRIES : nat := 3.
Definition RETRY_DELAY_MS : Z := 3000.

(** The own properties of the [bucketMap] object literal. The job types
    that reach the scanner are those the upload route admits, none of
    which names a property an object inherits. *)
Definition bucketMap : gmap string string :=
  list_to_map
    [ ("post", "posts-media");
      ("opportunity", "opportunities-media");
      ("chat_media", "chats-media");
      ("profile_picture", "users-media");
      ("profile_cover", "users-media");
      ("license_certification", "talent-profiles-media");
      ("education", "talent-profiles-media");
      ("project", "talent-profiles-media");
      ("award_achievement", "talent-profiles-media");
      ("work_experience", "talent-profiles-media");
      ("volunteer_experience", "talent-profiles-media");
      ("testimonial", "talent-profiles-media");
      ("publication", "talent-profiles-media") ].

(** [bucketMap[linked_to_type] || 'default-bucket'], on a type that does
    not name a member an object literal inherits from [Object.prototype]
    ([constructor], [toString], [__proto__] and the like), which the
    lookup would find in place of an entry. *)
Definition getTargetBucket (linked_to_type : jsval) : string :=
  match bucketMap !! to_str linked_to_type with
  | Some b => if truthy (VStr b) then b else "default-bucket"
  | None => "default-bucket"
  end.

Definition prefixTypes : list string := ["post"; "opportunity"].

(** The [toKey] of a job. *)
Definition getTargetKey (job : Job) : jsval :=
  if includes prefixTypes (linked_to_type job) || negb (truthy (linked_to_type job))
  then file_name job
  else VStr (to_str (linked_to_type job) +:+ "/" +:+ to_str (file_name job)).

Definition prepareJobs (jobs : list Job) (type : string) : Payload :=
  mkPayload type (map (fun job => (id job, url job)) jobs).

(** [Object.fromEntries(results.map(r => [r.job_id, r]))]: reading
    [job_id] of [null] or [undefined] is a TypeError; a later entry
    replaces an earlier one with the same key. *)
Fixpoint entries (results : list ResultEntry) : option (list (string * Verdict)) :=
  match results with
  | [] => Some []
  | RNullish :: _ => None
  | RObj v :: rest =>
      match entries rest with
      | Some l => Some ((job_id v, v) :: l)
      | None => None
      end
  end.

Definition fromEntries (l : list (string * Verdict)) : gmap string Verdict :=
  fold_left (fun m kv => <[kv.1 := kv.2]> m) l ∅.

Definition indexResults (results : list ResultEntry) : M (gmap string Verdict) :=
  match entries results with
  | Some l => mret (fromEntries l)
  | None => throw "Cannot read properties of null (reading 'job_id')"
  end.

(** [!result || typeof result.is_nsfw !== "boolean"] is false. *)
Definition validVerdict (result : option Verdict) : option Verdict :=
  match result with
  | Some r => if is_boolean (is_nsfw r) then Some r else None
  | None => None
  end.

Section Scanner.
Context (env : Env).

Fixpoint withRetryLoop (fuel attempt : nat) (payload : Payload)
  : M (list ResultEntry) :=
  match fuel with
  | O => throw "withRetry: no iteration left"
  | S fuel' =>
      try_catch
        (res ← remote env payload;
         match res with
         | ResResults results => mret results
         | _ =>
             console "error" "Unexpected scanner response:";;
             throw "Bad response from scanner"
         end)
        (fun err =>
           let attempt := S attempt in
           console "error" ("Attempt " +:+ pretty attempt +:+ " failed: " +:+ err);;
           if (MAX_RETRIES <=? attempt)%nat then throw err
           else sleep RETRY_DELAY_MS;; withRetryLoop fuel' attempt payload)
  end.

(** The [while (true)] loop leaves after at most [MAX_RETRIES] failed
    attempts, so [MAX_RETRIES] iterations are all it can run. *)
Definition withRetry (payload : Payload) : M (list ResultEntry) :=
  withRetryLoop MAX_RETRIES 0 payload.

(** Lines 66-83: the choice of the backend and its invocation. *)
Definition fetchResults (jobs : list Job) (type : string) : M (list ResultEntry) :=
  if String.eqb type "images" && (length jobs <=? 16)%nat
  then safeSearchFromUrls env jobs
  else
    let payload := prepareJobs jobs type in
    try_catch (withRetry payload)
      (fun err =>
         let msg := "Failed to scan media via modal scan engine: " +:+ err in
         console "error" msg;;
         logSystemEvent env
           (mkLog (VStr msg) "failed_scan" (Some "media_scan_engine_failed") None);;
         throw err).

(** Quarantine path, the four sub-steps (lines 117-191). *)
Definition quarantineBlockHash (job : Job) (toKey : jsval) : M unit :=
  try_catch
    (isVideo ← starts_with (mime_type job) "video";
     addBlockedHash env
       (mkBlockedHash (sha256_hash job) "sha256" "nsfw"
          (if (isVideo : bool) then "video" else "image") "media_scanner" toKey))
    (fun err =>
       let errMsg := "Failed to add blocked hash for " +:+ id job +:+ ": " +:+ err in
       console "error" errMsg;;
       logSystemEvent env
         (mkLog (VStr errMsg) "error" (Some "blocked_hash_add_failed") (Some (id job)))).

Definition quarantineRestrictUser (job : Job) : M unit :=
  try_catch
    (restrictUserMediaUploads env (user_id job))
    (fun err =>
       let errMsg := "Failed to restrict uploads for user " +:+ to_str (user_id job)
                     +:+ ": " +:+ err in
       console "error" errMsg;;
       logSystemEvent env
         (mkLog (VStr errMsg) "error" (Some "user_upload_restriction_failed")
            (Some (id job)))).

Definition quarantineAudit (job : Job) (msg : string) : M unit :=
  try_catch
    (logSystemEvent env
       (mkLog (VStr msg) "unsafe_content_detected" None (Some (id job))))
    (fun err =>
       let errMsg := "Failed to log unsafe content detection for " +:+ id job
                     +:+ ": " +:+ err in
       console "error" errMsg;;
       logSystemEvent env
         (mkLog (VStr errMsg) "error" (Some "unsafe_content_log_failed")
            (Some (id job)))).

Definition quarantineMove (job : Job) : M unit :=
  try_catch
    (moveObjectWithinBuckets env
       (mkMove (file_name job) (file_name job) VUndef (VStr "quarantine")))
    (fun err =>
       let errMsg := "Failed to move NSFW item " +:+ id job +:+ " to quarantine: "
                     +:+ err in
       console "error" errMsg;;
       logSystemEvent env
         (mkLog (VStr errMsg) "error" (Some "quarantine_move_failed")
            (Some (id job)))).

Definition quarantinePath (type : string) (job : Job) (toKey : jsval) : M bool :=
  let msg := "NSFW detected in " +:+ slice_0_m1 type +:+ " with ID " +:+ id job in
  quarantineBlockHash job toKey;;
  quarantineRestrictUser job;;
  quarantineAudit job msg;;
  quarantineMove job;;
  mret true.

Definition mediaItemOf (job : Job) (result : Verdict) (toKey : jsval) : MediaItem :=
  {| mi_job_id := id job;
     mi_user_id := user_id job;
     mi_file_name := toKey;
     mi_linked_to_id := linked_to_id job;
     mi_linked_to_type := linked_to_type job;
     mi_sha256_hash := sha256_hash job;
     mi_width := width result;
     mi_height := height result;
     mi_duration := duration result;
     mi_mime_type := mime_type job;
     mi_file_size := file_size job;
     mi_moderation_status := "approved" |}.

(** Commit path (lines 193-238). The result is [false] where the source
    leaves the iteration with [continue]. *)
Definition commitPath (job : Job) (result : Verdict) (toBucket : string)
    (toKey : jsval) : M bool :=
  moved ←
    try_catch
      (moveObjectWithinBuckets env
         (mkMove (file_name job) toKey VUndef (VStr toBucket));;
       mret true)
      (fun err =>
         let errMsg := "Failed to move media item for job " +:+ id job +:+ " to "
                       +:+ toBucket +:+ ": " +:+ err in
         console "error" errMsg;;
         logSystemEvent env
           (mkLog (VStr errMsg) "error" (Some "media_move_failed") (Some (id job)));;
         mret false);
  if negb moved then mret false
  else
    try_catch
      (createMediaItem env (mediaItemOf job result toKey);;
       mret true)
      (fun err =>
         let errMsg := "Failed to create media item for job " +:+ id job +:+ ": "
                       +:+ err in
         console "error" errMsg;;
         logSystemEvent env
           (mkLog (VStr errMsg) "error" (Some "media_create_failed") (Some (id job)));;
         mret false).

(** The body of the per-job [try] (lines 99-241), up to the push. *)
Definition reconcile (type : string) (job : Job) (result : Verdict) : M bool :=
  let toBucket := getTargetBucket (linked_to_type job) in
  let toKey := getTargetKey job in
  if truthy (is_nsfw result)
  then quarantinePath type job toKey
  else commitPath job result toBucket toKey.

(** The per-job [try { ... completedJobs.push(job) } catch (err) { ... }]
    around a body. *)
Definition perJobTry (job : Job) (body : M bool) (completedJobs : list Job)
  : M (list Job) :=
  try_catch
    (pushed ← body;
     mret (if (pushed : bool) then completedJobs ++ [job] else completedJobs))
    (fun err =>
       let msg := "Unexpected error while processing job " +:+ id job +:+ ": "
                  +:+ err in
       console "error" msg;;
       logSystemEvent env
         (mkLog (VStr msg) "error" (Some "unexpected_job_processing_error")
            (Some (id job)));;
       mret completedJobs).

(** One iteration of [for (const job of jobs)]. *)
Definition loopBody (resultsById : gmap string Verdict) (type : string)
    (job : Job) (completedJobs : list Job) : M (list Job) :=
  match validVerdict (resultsById !! id job) with
  | None =>
      let msg := "[Scanner] Invalid or missing result for media " +:+ id job in
      console "warn" msg;;
      logSystemEvent env
        (mkLog (VStr msg) "error" (Some "scan_result_missing") (Some (id job)));;
      mret completedJobs
  | Some result => perJobTry job (reconcile type job result) completedJobs
  end.

Fixpoint reconcileJobs (resultsById : gmap string Verdict) (type : string)
    (jobs : list Job) (completedJobs : list Job) : M (list Job) :=
  match jobs with
  | [] => mret completedJobs
  | job :: rest =>
      completedJobs' ← loopBody resultsById type job completedJobs;
      reconcileJobs resultsById type rest completedJobs'
  end.

(** Lines 250-256. *)
Definition finishBatch (completedJobs : list Job) : M unit :=
  try_catch
    (markJobsAsComplete env completedJobs;;
     logSystemEvent env
       (mkLog (VStr ("Marked " +:+ pretty (length completedJobs)
                     +:+ " jobs as complete.")) "scan" None None))
    (fun err =>
       console "error" "Failed to mark jobs as complete:";;
       logSystemEvent env
         (mkLog (VStr ("Failed to mark jobs as complete: " +:+ err)) "error"
            (Some "mark_jobs_complete_failed") None)).

Definition scanMediaJobs (jobs : list Job) (type : string) : M unit :=
  if negb (existsb (String.eqb type) ["images"; "videos"])
  then
    let msg := "Invalid scan type: " +:+ type in
    logSystemEvent env (mkLog (VStr msg) "error" (Some "invalid_scan_type") None);;
    throw msg
  else
    results ← fetchResults jobs type;
    resultsById ← indexResults results;
    completedJobs ← reconcileJobs resultsById type jobs [];
    finishBatch completedJobs.

End Scanner.

(** ** services/queue.js *)

Definition IMAGE_MAX_WAIT : Z := 10000.
Definition IMAGE_INTERVAL : Z := 2000.
Definition IMAGE_BATCH_SIZE : nat := 50.

Definition VIDEO_MAX_WAIT : Z := 10000.
Definition VIDEO_INTERVAL : Z := 3000.
Definition VIDEO_BATCH_SIZE : nat := 10.

Definition set_imageQueue (v : list Job) (q : QState) : QState :=
  mkQ v (videoQueue q) (imageScanning q) (videoScanning q) (imageTimer q)
      (videoTimer q) (firstImageTime q) (firstVideoTime q) (inFlight q).
Definition set_videoQueue (v : list Job) (q : QState) : QState :=
  mkQ (imageQueue q) v (imageScanning q) (videoScanning q) (imageTimer q)
      (videoTimer q) (firstImageTime q) (firstVideoTime q) (inFlight q).
Definition set_imageScanning (v : bool) (q : QState) : QState :=
  mkQ (imageQueue q) (videoQueue q) v (videoScanning q) (imageTimer q)
      (videoTimer q) (firstImageTime q) (firstVideoTime q) (inFlight q).
Definition set_videoScanning (v : bool) (q : QState) : QState :=
  mkQ (imageQueue q) (videoQueue q) (imageScanning q) v (imageTimer q)
      (videoTimer q) (firstImageTime q) (firstVideoTime q) (inFlight q).
Definition set_imageTimer (v : option Z) (q : QState) : QState :=
  mkQ (imageQueue q) (videoQueue q) (imageScanning q) (videoScanning q) v
      (videoTimer q) (firstImageTime q) (firstVideoTime q) (inFlight q).
Definition set_videoTimer (v : option Z) (q : QState) : QState :=
  mkQ (imageQueue q) (videoQueue q) (imageScanning q) (videoScanning q)
      (imageTimer q) v (firstImageTime q) (firstVideoTime q) (inFlight q).
Definition set_firstImageTime (v : option Z) (q : QState) : QState :=
  mkQ (imageQueue q) (videoQueue q) (imageScanning q) (videoScanning q)
      (imageTimer q) (videoTimer q) v (firstVideoTime q) (inFlight q).
Definition set_firstVideoTime (v : option Z) (q : QState) : QState :=
  mkQ (imageQueue q) (videoQueue q) (imageScanning q) (videoScanning q)
      (imageTimer q) (videoTimer q) (firstImageTime q) v (inFlight q).
Definition set_inFlight (v : list (string * list Job)) (q : QState) : QState :=
  mkQ (imageQueue q) (videoQueue q) (imageScanning q) (videoScanning q)
      (imageTimer q) (videoTimer q) (firstImageTime q) (firstVideoTime q) v.

(** The module state when [queue.js] is loaded. *)
Definition initialQueue : QState :=
  mkQ [] [] false false None None None None [].

(** [!firstImageTime]: unset, or the number 0. *)
Definition unset_time (t : option Z) : bool :=
  match t with
  | None => true
  | Some n => (n =? 0)%Z
  end.

Definition time_value (t : option Z) : Z :=
  match t with Some n => n | None => 0%Z end.

(** [scanMediaJobs(batch, type)] as the queue starts it: the call returns
    a promise at once, and the scan stays in flight until it settles. *)
Definition startScan (batch : list Job) (type : string) : M unit :=
  emit (ECall (CScanMediaJobs batch type));;
  st ← get;
  modify (set_qs (set_inFlight (inFlight (qs st) ++ [(type, batch)]))).

Definition maybeFlushImages : M unit :=
  st ← get;
  if imageScanning (qs st) || (length (imageQueue (qs st)) =? 0)%nat then mret tt
  else
    let batch := take IMAGE_BATCH_SIZE (imageQueue (qs st)) in
    modify (set_qs (set_imageQueue (drop IMAGE_BATCH_SIZE (imageQueue (qs st)))));;
    if (length batch =? 0)%nat then mret tt
    else
      modify (set_qs (set_imageScanning true));;
      startScan batch "images".

Definition maybeFlushVideos : M unit :=
  st ← get;
  if videoScanning (qs st) || (length (videoQueue (qs st)) =? 0)%nat then mret tt
  else
    let batch := take VIDEO_BATCH_SIZE (videoQueue (qs st)) in
    modify (set_qs (set_videoQueue (drop VIDEO_BATCH_SIZE (videoQueue (qs st)))));;
    if (length batch =? 0)%nat then mret tt
    else
      modify (set_qs (set_videoScanning true));;
      startScan batch "videos".

(** The callbacks given to [setTimeout]. *)
Definition imageTimerCallback : M unit :=
  modify (set_qs (set_firstImageTime None));;
  maybeFlushImages.

Definition videoTimerCallback : M unit :=
  modify (set_qs (set_firstVideoTime None));;
  maybeFlushVideos.

Section Queue.
Context (env : Env).

Definition scheduleFlush (isVideo : bool) : M unit :=
  now ← Date_now env;
  if isVideo then
    st ← get;
    (if unset_time (firstVideoTime (qs st))
     then modify (set_qs (set_firstVideoTime (Some now)))
     else mret tt);;
    emit (EClearTimeout true);;
    modify (set_qs (set_videoTimer None));;
    st ← get;
    let elapsed := (now - time_value (firstVideoTime (qs st)))%Z in
    if (VIDEO_MAX_WAIT <=? elapsed)%Z
       || (VIDEO_BATCH_SIZE <=? length (videoQueue (qs st)))%nat
    then
      modify (set_qs (set_firstVideoTime None));;
      maybeFlushVideos
    else
      let delay := Z.min (VIDEO_MAX_WAIT - elapsed) VIDEO_INTERVAL in
      emit (ESetTimeout true delay);;
      modify (set_qs (set_videoTimer (Some delay)))
  else
    st ← get;
    (if unset_time (firstImageTime (qs st))
     then modify (set_qs (set_firstImageTime (Some now)))
     else mret tt);;
    emit (EClearTimeout false);;
    modify (set_qs (set_imageTimer None));;
    st ← get;
    let elapsed := (now - time_value (firstImageTime (qs st)))%Z in
    if (IMAGE_MAX_WAIT <=? elapsed)%Z
       || (IMAGE_BATCH_SIZE <=? length (imageQueue (qs st)))%nat
    then
      modify (set_qs (set_firstImageTime None));;
      maybeFlushImages
    else
      let delay := Z.min (IMAGE_MAX_WAIT - elapsed) IMAGE_INTERVAL in
      emit (ESetTimeout false delay);;
      modify (set_qs (set_imageTimer (Some delay))).

(** The callbacks given to [.finally] when a scan settles. *)
Definition imageScanSettled : M unit :=
  modify (set_qs (set_imageScanning false));;
  st ← get;
  if (0 <? length (imageQueue (qs st)))%nat then scheduleFlush false else mret tt.

Definition videoScanSettled : M unit :=
  modify (set_qs (set_videoScanning false));;
  st ← get;
  if (0 <? length (videoQueue (qs st)))%nat then scheduleFlush true else mret tt.

Definition queueMediaJob (job : Job) : M unit :=
  emit (ECall (CQueueMediaJob job));;
  isVideo ← starts_with (mime_type job) "video";
  if (isVideo : bool) then
    st ← get;
    modify (set_qs (set_videoQueue (videoQueue (qs st) ++ [job])));;
    scheduleFlush true
  else
    st ← get;
    modify (set_qs (set_imageQueue (imageQueue (qs st) ++ [job])));;
    scheduleFlush false.

(** A call of an [async] function whose promise is dropped: an exception
    in the callee rejects the promise and does not reach the caller. *)
Definition detached (m : M unit) : M unit :=
  try_catch m (fun err => emit (EUnhandledRejection err)).

Definition set_url (job : Job) (u : jsval) : Job :=
  mkJob (id job) (user_id job) (file_name job) (file_size job) (sha256_hash job)
        (mime_type job) (linked_to_id job) (linked_to_type job) u.

(** One iteration of the recovery loop. *)
Definition recoverJob (job : Job) : M unit :=
  if negb (truthy (file_name job)) || negb (is_string (file_name job))
  then console "error" ("Invalid file_name for job " +:+ id job)
  else
    try_catch
      (signedUrl ← generateSignedGetUrl env (file_name job);
       if negb (truthy signedUrl)
       then console "error" ("Failed to generate signed URL for job " +:+ id job)
       else detached (queueMediaJob (set_url job signedUrl)))
      (fun err =>
         console "error" ("Error while generating signed URL for job " +:+ id job
                          +:+ ": " +:+ err);;
         logSystemEvent env
           (mkLog VUndef "error" (Some "signed_url_generation_failed") None)).

Fixpoint recoverJobs (missedJobs : list Job) : M unit :=
  match missedJobs with
  | [] => mret tt
  | job :: rest => recoverJob job;; recoverJobs rest
  end.

(** The fallback recovery run when the module is loaded. *)
Definition recovery : M unit :=
  missedJobs ← getPendingMediaJobs env;
  if (length missedJobs =? 0)%nat then mret tt
  else
    recoverJobs missedJobs;;
    st ← get;
    (if (0 <? length (imageQueue (qs st)))%nat then scheduleFlush false else mret tt);;
    st ← get;
    if (0 <? length (videoQueue (qs st)))%nat then scheduleFlush true else mret tt.

End Queue.

(** ** services/rate_limiter.js *)

Global Instance jsval_countable : Countable jsval.
Proof.
  refine (inj_countable'
    (fun v => match v with
              | VUndef => inl (inl tt)
              | VNull => inl (inr tt)
              | VBool b => inr (inl b)
              | VNum n => inr (inr (inl n))
              | VStr s => inr (inr (inr s))
              end)
    (fun x => match x with
              | inl (inl _) => VUndef
              | inl (inr _) => VNull
              | inr (inl b) => VBool b
              | inr (inr (inl n)) => VNum n
              | inr (inr (inr s)) => VStr s
              end) _).
  by intros [].
Defined.

Definition LIMIT_PER_MINUTE : nat := 10.
Definition SPAM_THRESHOLD : nat := 50.
Definition WINDOW_MS : Z := 60 * 1000.

(** The state of the module: the [rateLimits] map, the [spammerSet] in
    insertion order, the array last written to [spammers.json], if any,
    and the warnings on the console. Writing the file is taken to
    succeed. *)
Record Limiter : Type := mkLimiter {
  rateLimits : gmap jsval (list Z);
  spammerSet : list jsval;
  spamFile : option (list jsval);
  warnings : list string
}.

(** [Set.prototype.add] and [Set.prototype.delete]. *)
Definition set_add (key : jsval) (s : list jsval) : list jsval :=
  if bool_decide (key ∈ s) then s else s ++ [key].

Definition set_delete (key : jsval) (s : list jsval) : list jsval :=
  filter (fun k => k <> key) s.

Definition saveSpammersToDisk (l : Limiter) : Limiter :=
  mkLimiter (rateLimits l) (spammerSet l) (Some (spammerSet l)) (warnings l).

Definition isSpammer (key : jsval) (l : Limiter) : bool :=
  bool_decide (key ∈ spammerSet l).

(** [checkRateLimit({ userId })], with the value of [Date.now()] as
    [now]. The key is in the map when its timestamps are read. *)
Definition checkRateLimit (now : Z) (userId : jsval) (l : Limiter)
  : bool * Limiter :=
  let key := userId in
  if isSpammer key l then (false, l)
  else
    let limits :=
      match rateLimits l !! key with
      | Some _ => rateLimits l
      | None => <[key := []]> (rateLimits l)
      end in
    let timestamps :=
      filter (fun ts => (now - ts < WINDOW_MS)%Z) (default [] (limits !! key))
      ++ [now] in
    let l1 := mkLimiter (<[key := timestamps]> limits) (spammerSet l) (spamFile l)
                (warnings l) in
    if (SPAM_THRESHOLD <? length timestamps)%nat
    then
      (false,
       saveSpammersToDisk
         (mkLimiter (rateLimits l1) (set_add key (spammerSet l1)) (spamFile l1)
            (warnings l1 ++ ["User/IP flagged as spammer: " +:+ to_str key])))
    else ((length timestamps <=? LIMIT_PER_MINUTE)%nat, l1).

Definition clearFromSpammerList (key : jsval) (l : Limiter) : Limiter :=
  if bool_decide (key ∈ spammerSet l)
  then
    saveSpammersToDisk
      (mkLimiter (rateLimits l) (set_delete key (spammerSet l)) (spamFile l)
         (warnings l))
  else l.

(** ** routes/media.js *)

Definition allowedMimeTypes : list string := ["image/jpeg"; "image/png"; "video/mp4"].

Definition allowedLinkedTypes : list string :=
  [ "post"; "opportunity"; "license_certification"; "education"; "project";
    "award_achievement"; "work_experience"; "volunteer_experience";
    "testimonial"; "message"; "publication"; "course"; "note"; "exam"; "event";
    "chat_media"; "profile_picture"; "profile_cover" ].

(** [s.split(sep)] for a separator of one character. *)
Fixpoint split (sep : Ascii.ascii) (s : string) : list string :=
  match s with
  | EmptyString => [EmptyString]
  | String c rest =>
      if Ascii.eqb c sep then EmptyString :: split sep rest
      else match split sep rest with
           | part :: parts => String c part :: parts
           | [] => [String c EmptyString]
           end
  end.

(** [extractUuid(fileKey)] on a string; [None] is [null]. *)
Definition extractUuid (fileKey : string) : option string :=
  let parts := split "/"%char fileKey in
  if (length parts =? 3)%nat
  then match parts !! 2%nat with
       | Some part => head (split "."%char part)
       | None => None
       end
  else None.

(** The file key [/request-upload] builds for a job (lines 129-132); an
    index outside of an array reads [undefined]. *)
Definition fileKey (mime_type jobId : string) : string :=
  let isVideo := String.prefix "video" mime_type in
  let folder := if isVideo then "videos" else "images" in
  let shard := String.substring 0 2 jobId in
  let extension :=
    match split "/"%char mime_type !! 1%nat with
    | Some e => e
    | None => "undefined"
    end in
  folder +:+ "/" +:+ shard +:+ "/" +:+ jobId +:+ "." +:+ extension.

(** The test of the file key in [/upload-complete] (line 171), on a
    string. *)
Definition validFileKey (file_key : string) : bool :=
  negb (String.eqb file_key EmptyString)
  && (String.prefix "videos/" file_key || String.prefix "images/" file_key).

(** * Specification vocabulary *)

(** ** Relations preserved along a run *)

(** A relation between the state before, the state after and the events
    of a run. A relation that holds of the empty run and composes is
    established for a whole function from its primitive steps. *)
Definition Rel : Type := St -> St -> list Event -> Prop.

Class Compositional (P : Rel) : Prop := {
  comp_refl : forall st, P st st [];
  comp_trans : forall st st1 st2 e1 e2,
    P st st1 e1 -> P st1 st2 e2 -> P st st2 (e1 ++ e2)
}.

Definition respects {A} (P : Rel) (m : M A) : Prop :=
  forall st r st' evs, m st = (r, st', evs) -> P st st' evs.

(** ** Runs of the primitive operations *)

(** A computation that always returns. *)
Definition total {A} (m : M A) : Prop :=
  forall st, exists a st' evs, m st = (Ok a, st', evs).

(** ** Relations given by calls and state *)

(** The rows of the approved-media store that belong to a job. *)
Definition media_of (target : string) (d : Db) : list MediaRow :=
  filter (fun r => mr_job_id r = target) (media d).

(** The verdict under which the scan reconciles a job: the entry of the
    index of the results under the job's id. *)
Definition verdictOf (results : list ResultEntry) (job : Job) : option Verdict :=
  match entries results with
  | Some l => fromEntries l !! id job
  | None => None
  end.

(** A relation on runs given by the calls a run may make and by a
    relation between the state before and after. *)
Definition guarded (okC : Call -> Prop) (R : St -> St -> Prop) : Rel :=
  fun st st' evs => (forall c, In (ECall c) evs -> okC c) /\ R st st'.

(** The state relations considered: preorders that ignore the index of
    external operations and the audit log, and calls that may always
    include [logSystemEvent]. *)
Class Permissive (okC : Call -> Prop) (R : St -> St -> Prop) : Prop := {
  perm_refl : forall st, R st st;
  perm_trans : forall st1 st2 st3, R st1 st2 -> R st2 st3 -> R st1 st3;
  perm_tick : forall st, R st (mkSt (S (tick st)) (db st) (qs st));
  perm_log : forall l st, R st (set_db (add_log l) st);
  perm_log_call : forall l, okC (CLogSystemEvent l)
}.

(** Relations that also allow the calls of the quarantine path and the
    storage moves. *)
Class Reconciling (okC : Call -> Prop) (R : St -> St -> Prop) : Prop := {
  rec_move : forall a, okC (CMove a);
  rec_block : forall b, okC (CAddBlockedHash b);
  rec_restrict : forall u, okC (CRestrictUser u);
  rec_block_row : forall b st, R st (set_db (add_blocked_hash b) st);
  rec_ban_row : forall u st, R st (set_db (add_user_ban u) st)
}.

(** What a relation has to allow for the commit path of a job. *)
Definition commit_allowed (okC : Call -> Prop) (R : St -> St -> Prop)
    (rb : gmap string Verdict) (job : Job) : Prop :=
  forall r, validVerdict (rb !! id job) = Some r -> truthy (is_nsfw r) = false ->
    okC (CCreateMediaItem (mediaItemOf job r (getTargetKey job))) /\
    (forall row st, mr_job_id row = id job -> R st (set_db (add_media row) st)).

(** ** Destination of a reconciled job *)

(** The names of the members an object literal inherits from
    [Object.prototype]. A lookup [bucketMap[name]] finds them, though
    [bucketMap] has no entry of its own under any of these names. *)
Definition inheritedNames : list string :=
  [ "constructor"; "__defineGetter__"; "__defineSetter__"; "hasOwnProperty";
    "__lookupGetter__"; "__lookupSetter__"; "isPrototypeOf";
    "propertyIsEnumerable"; "toString"; "valueOf"; "__proto__";
    "toLocaleString" ].

(** The lookup of the type in [bucketMap] is decided by the entries of
    [bucketMap] itself: the type does not name an inherited member. *)
Definition own_lookup (linked_to_type : jsval) : Prop :=
  ~ In (to_str linked_to_type) inheritedNames.

(** ToString prints the value as [to_str] does: a number is printed in
    full below 10^21 and in exponent form from there on. *)
Definition printed_in_full (v : jsval) : Prop :=
  match v with
  | VNum n => (Z.abs n < 10 ^ 21)%Z
  | _ => True
  end.

(** ** Unsafe content never reaches the approved-media store *)

(** Calls other than [createMediaItem] for the job [target]. *)
Definition not_created (target : string) (c : Call) : Prop :=
  forall m, c = CCreateMediaItem m -> mi_job_id m <> target.

(** The rows of [target] in the approved-media store are the same. *)
Definition same_media_of (target : string) (st st' : St) : Prop :=
  media_of target (db st') = media_of target (db st).

(** ** Per-job isolation *)

(** A computation that always returns the value [a]. *)
Definition returns {A} (m : M A) (a : A) : Prop :=
  forall st, exists st' evs, m st = (Ok a, st', evs).

(** The audit event written for an exception that escapes the
    reconciliation of a job. *)
Definition unexpectedErrorEvent (job : Job) (err : string) : LogArgs :=
  mkLog (VStr ("Unexpected error while processing job " +:+ id job +:+ ": " +:+ err))
        "error" (Some "unexpected_job_processing_error") (Some (id job)).

(** ** Quarantine path *)

(** The audit event of the third sub-step. *)
Definition unsafeContentEvent (type : string) (job : Job) : LogArgs :=
  mkLog (VStr ("NSFW detected in " +:+ slice_0_m1 type +:+ " with ID " +:+ id job))
        "unsafe_content_detected" None (Some (id job)).

(** The record the first sub-step inserts for a job with a string MIME
    type. *)
Definition blockedHashOf (job : Job) (mime : string) : BlockedHash :=
  mkBlockedHash (sha256_hash job) "sha256" "nsfw"
    (if String.prefix "video" mime then "video" else "image")
    "media_scanner" (getTargetKey job).

Definition quarantineMoveArgs (job : Job) : MoveArgs :=
  mkMove (file_name job) (file_name job) VUndef (VStr "quarantine").

(** ** Commit path *)

Definition commitMoveArgs (job : Job) : MoveArgs :=
  mkMove (file_name job) (getTargetKey job) VUndef
         (VStr (getTargetBucket (linked_to_type job))).

(** Calls other than [createMediaItem]. *)
Definition not_create (c : Call) : Prop := forall m, c <> CCreateMediaItem m.

Definition same_media (st st' : St) : Prop := media (db st') = media (db st).

(** ** Jobs without a valid verdict *)

(** The collaborator calls of a run, in order. *)
Definition calls (evs : list Event) : list Call :=
  omap (fun e => match e with ECall c => Some c | _ => None end) evs.

(** The rows of [media_jobs] of a job. *)
Definition rows_of (target : string) (d : Db) : list JobRow :=
  filter (fun r => id (row_job r) = target) (media_jobs d).

Definition missingResultEvent (job : Job) : LogArgs :=
  mkLog (VStr ("[Scanner] Invalid or missing result for media " +:+ id job))
        "error" (Some "scan_result_missing") (Some (id job)).

(** Completion is not marked for [target]. *)
Definition not_marked (target : string) (c : Call) : Prop :=
  forall js, c = CMarkJobsAsComplete js -> ~ In target (map id js).

Definition same_rows_of (target : string) (st st' : St) : Prop :=
  rows_of target (db st') = rows_of target (db st).

(** ** Bounded retry and whole-batch failure *)

(** A reply that makes an attempt fail: the invocation throws, or the
    response has no result array. *)
Definition bad_reply (r : ModalReply) : bool :=
  match r with
  | RemoteReturns (ResResults _) => false
  | _ => true
  end.

(** The error a failed attempt is left with. *)
Definition attempt_error (r : ModalReply) : string :=
  match r with
  | RemoteThrows e => e
  | RemoteReturns _ => "Bad response from scanner"
  end.

(** The invocations of the remote function in a run, and the delays
    slept. *)
Definition remote_attempts (evs : list Event) : nat :=
  length (omap (fun e => match e with ERemote _ r => Some r | _ => None end) evs).

Definition sleeps (evs : list Event) : list Z :=
  omap (fun e => match e with ESleep ms => Some ms | _ => None end) evs.

Definition vision_attempts (evs : list Event) : nat :=
  length (omap (fun e => match e with EVisionPost _ r => Some r | _ => None end) evs).

Definition failedScanEvent (err : string) : LogArgs :=
  mkLog (VStr ("Failed to scan media via modal scan engine: " +:+ err))
        "failed_scan" (Some "media_scan_engine_failed") None.

(** Calls that are not per-job side effects. *)
Definition scan_only (c : Call) : Prop :=
  match c with
  | CLogSystemEvent _ | CSafeSearch _ => True
  | _ => False
  end.

(** Nothing but the audit log changes. *)
Definition only_logs (st st' : St) : Prop :=
  media (db st') = media (db st) /\
  media_jobs (db st') = media_jobs (db st) /\
  blocked_hashes (db st') = blocked_hashes (db st) /\
  users_bans (db st') = users_bans (db st).

(** What one failed attempt leaves on the event log. *)
Definition failed_attempt_events (p : Payload) (reply : ModalReply) (attempt : nat)
  : list Event :=
  ERemote p reply
  :: match reply with
     | RemoteThrows _ => []
     | RemoteReturns _ => [EConsole "error" "Unexpected scanner response:"]
     end
  ++ [EConsole "error" ("Attempt " +:+ pretty (S attempt) +:+ " failed: "
                        +:+ attempt_error reply)].

Definition bump (st : St) : St := mkSt (S (tick st)) (db st) (qs st).

(** ** Single flight per media class *)

(** The number of scans of a class that are in flight. *)
Definition inflight_count (type : string) (q : QState) : nat :=
  length (filter (fun p => p.1 = type) (inFlight q)).

(** The events of the process, each handled to completion before the
    next: a job is enqueued, a pending timer fires, a scan in flight
    settles, the recovery runs, or something else happens that leaves the
    module state of the queue alone (the effects of the scans in flight,
    other request handlers). *)
Inductive step (env : Env) : St -> St -> Prop :=
| step_enqueue job st r st' evs :
    queueMediaJob env job st = (r, st', evs) -> step env st st'
| step_image_timer st d r st' evs :
    imageTimer (qs st) = Some d ->
    imageTimerCallback (set_qs (set_imageTimer None) st) = (r, st', evs) ->
    step env st st'
| step_video_timer st d r st' evs :
    videoTimer (qs st) = Some d ->
    videoTimerCallback (set_qs (set_videoTimer None) st) = (r, st', evs) ->
    step env st st'
| step_image_settled st l1 batch l2 r st' evs :
    inFlight (qs st) = l1 ++ ("images", batch) :: l2 ->
    imageScanSettled env (set_qs (set_inFlight (l1 ++ l2)) st) = (r, st', evs) ->
    step env st st'
| step_video_settled st l1 batch l2 r st' evs :
    inFlight (qs st) = l1 ++ ("videos", batch) :: l2 ->
    videoScanSettled env (set_qs (set_inFlight (l1 ++ l2)) st) = (r, st', evs) ->
    step env st st'
| step_recovery st r st' evs :
    recovery env st = (r, st', evs) -> step env st st'
| step_external st st' :
    qs st' = qs st -> step env st st'.

(** The scanning flag of a class is set exactly while one scan of the
    class is in flight. *)
Definition single_flight (q : QState) : Prop :=
  inflight_count "images" q = (if imageScanning q then 1 else 0)%nat /\
  inflight_count "videos" q = (if videoScanning q then 1 else 0)%nat.

Definition keeps_single_flight : Rel :=
  fun st st' _ => single_flight (qs st) -> single_flight (qs st').

(** A new flush cycle of a class is scheduled in a run from [st]: a timer
    of the class is armed, with its scanning flag down and nothing taken
    from the queue or started; or a scan of the class is started on the
    first jobs of the queue, up to the batch size, which leave the queue
    and are in flight, the scanning flag up. *)
Definition new_flush_cycle (isVideo : bool) (st st' : St) (evs : list Event)
  : Prop :=
  let type := if isVideo then "videos" else "images" in
  let size := if isVideo then VIDEO_BATCH_SIZE else IMAGE_BATCH_SIZE in
  let queue := if isVideo then videoQueue else imageQueue in
  let scanning := if isVideo then videoScanning else imageScanning in
  let timer := if isVideo then videoTimer else imageTimer in
  (exists delay,
     In (ESetTimeout isVideo delay) evs /\
     timer (qs st') = Some delay /\
     scanning (qs st') = false /\
     queue (qs st') = queue (qs st) /\
     inFlight (qs st') = inFlight (qs st)) \/
  (In (ECall (CScanMediaJobs (take size (queue (qs st))) type)) evs /\
   scanning (qs st') = true /\
   queue (qs st') = drop size (queue (qs st)) /\
   inFlight (qs st') = inFlight (qs st) ++ [(type, take size (queue (qs st)))]).

(** ** Enqueue *)

(** What a call of [queueMediaJob] does to the queue of the job's class:
    the job is appended, and the batch the call flushes, if it flushes
    one, is taken from the head of that queue and put in flight. *)
Definition enqueued_to (type : string) (queue : QState -> list Job)
    (job : Job) (st st' : St) : Prop :=
  exists batch,
    queue (qs st) ++ [job] = batch ++ queue (qs st') /\
    inFlight (qs st')
    = inFlight (qs st) ++ match batch with [] => [] | _ => [(type, batch)] end.

(** ** Vocabulary of the enqueue: when a flush happens *)

(** A flush of the class is due at the enqueue of [job] in [st]: with the
    job appended the queue reaches the batch size, or the maximum wait
    has elapsed since the first job of the cycle, at the time the clock
    gives. *)
Definition flush_due (env : Env) (isVideo : bool) (job : Job) (st : St) : bool :=
  let now := date_now env (tick st) in
  if isVideo then
    let first := if unset_time (firstVideoTime (qs st)) then now
                 else time_value (firstVideoTime (qs st)) in
    (VIDEO_MAX_WAIT <=? now - first)%Z
    || (VIDEO_BATCH_SIZE <=? length (videoQueue (qs st) ++ [job]))%nat
  else
    let first := if unset_time (firstImageTime (qs st)) then now
                 else time_value (firstImageTime (qs st)) in
    (IMAGE_MAX_WAIT <=? now - first)%Z
    || (IMAGE_BATCH_SIZE <=? length (imageQueue (qs st) ++ [job]))%nat.

(** The enqueue of [job] in [st] flushes: a flush is due and no scan of
    the class is in flight. *)
Definition flushes (env : Env) (isVideo : bool) (job : Job) (st : St) : bool :=
  flush_due env isVideo job st
  && negb (if isVideo then videoScanning (qs st) else imageScanning (qs st)).

(** What an enqueue that flushes, or does not, leaves of the queue of the
    class and puts in flight. *)
Definition enqueue_outcome (env : Env) (isVideo : bool) (job : Job) (st st' : St)
  : Prop :=
  let type := if isVideo then "videos" else "images" in
  let size := if isVideo then VIDEO_BATCH_SIZE else IMAGE_BATCH_SIZE in
  let queue := if isVideo then videoQueue else imageQueue in
  if flushes env isVideo job st
  then queue (qs st') = drop size (queue (qs st) ++ [job]) /\
       inFlight (qs st')
       = inFlight (qs st) ++ [(type, take size (queue (qs st) ++ [job]))]
  else queue (qs st') = queue (qs st) ++ [job] /\
       inFlight (qs st') = inFlight (qs st).

(** ** Recovery *)


(** The jobs [getPendingMediaJobs] returns. *)
Definition pending (d : Db) : list Job :=
  map row_job (filter (fun r => status r = Pending) (media_jobs d)).

(** The [file_name] test of the recovery loop passes. *)
Definition valid_file_name (job : Job) : bool :=
  truthy (file_name job) && is_string (file_name job).


(** The outcome of the URL derivation for a job in the state [st]: the
    fresh URL, or [None] when no URL is obtained, because the job has no
    usable storage key or because the signer fails. *)
Definition regenerated_url (env : Env) (job : Job) (st : St) : option jsval :=
  if valid_file_name job
  then match presign env (tick st) with
       | SignReturns u => if truthy u then Some u else None
       | SignThrows _ => None
       end
  else None.

(** The jobs the recovery loop re-admits, in order: for each job in its
    turn, the job carrying its fresh URL when the URL is derived in the
    state in which the iteration starts, and no job otherwise. *)
Fixpoint readmitted (env : Env) (jobs : list Job) (st : St) : list Job :=
  match jobs with
  | [] => []
  | job :: rest =>
      match regenerated_url env job st with
      | Some u => [set_url job u]
      | None => []
      end ++ readmitted env rest (recoverJob env job st).1.2
  end.


Definition not_enqueue (c : Call) : Prop := forall j, c <> CQueueMediaJob j.

Definition same_media_jobs (st st' : St) : Prop :=
  media_jobs (db st') = media_jobs (db st).


(** ** Concrete runs *)

Definition ex_image_job : Job :=
  mkJob "job-1" (VStr "user-1") (VStr "images/jo/job-1.jpeg") (VNum 2048)
        (VStr "ab12") (VStr "image/jpeg") (VStr "post-7") (VStr "project")
        (VStr "https://signed.example/job-1").

Definition ex_video_named (name : string) : Job :=
  mkJob name (VStr "user-2") (VStr ("videos/jo/" +:+ name +:+ ".mp4")) (VNum 4096)
        (VStr "cd34") (VStr "video/mp4") (VStr "post-8") (VStr "post")
        (VStr ("https://signed.example/" +:+ name)).

Definition ex_video_job : Job := ex_video_named "job-2".

Definition ex_db : Db :=
  mkDb [] [mkJobRow ex_image_job Pending; mkJobRow ex_video_job Pending] [] [] [].

Definition ex_st0 : St := mkSt 0 ex_db initialQueue.

(** An environment in which storage, the store and the signer work, the
    clock stands at 1000 and the two backends answer [v] and [m]. *)
Definition ex_env (v : VisionReply) (m : ModalReply) : Env :=
  mkEnv (fun _ => None) (fun _ => None) (fun _ => v) (fun _ => m)
        (fun _ => SignReturns (VStr "https://signed.example/fresh"))
        (fun _ => 1000%Z).

Definition ex_nsfw : Verdict :=
  mkVerdict "job-2" (VBool true) (VNum 640) (VNum 480) (VNum 12) None.

Definition ex_safe : Verdict :=
  mkVerdict "job-2" (VBool false) (VNum 640) (VNum 480) (VNum 12) None.

Definition ex_env_down : Env :=
  ex_env (VisionRejects "ECONNRESET") (RemoteThrows "ECONNRESET").

Definition ex_env_nsfw : Env :=
  ex_env (VisionRejects "ECONNRESET") (RemoteReturns (ResResults [RObj ex_nsfw])).

(** The Vision endpoint answers the one image with a per-image error. *)
Definition ex_env_vision_error : Env :=
  ex_env (VisionData [mkVision (Some "Bad image data") None])
         (RemoteThrows "ECONNRESET").

Definition ex_five_images : list Job :=
  map (fun name => mkJob name (VStr "user-1") (VStr ("images/jo/" +:+ name +:+ ".png"))
                     (VNum 2048) (VStr "ab12") (VStr "image/png") (VStr "post-7")
                     (VStr "post") (VStr ("https://signed.example/" +:+ name)))
      ["i1"; "i2"; "i3"; "i4"; "i5"].

(** The state after nine videos were enqueued one after the other. *)
Definition ex_st9 : St :=
  fold_left (fun st job => (queueMediaJob ex_env_down job st).1.2)
    (map ex_video_named ["v1"; "v2"; "v3"; "v4"; "v5"; "v6"; "v7"; "v8"; "v9"])
    ex_st0.

(** The state after two more videos: the tenth starts a scan of the ten,
    the eleventh waits in the queue while that scan is in flight. *)
Definition ex_st11 : St :=
  fold_left (fun st job => (queueMediaJob ex_env_down job st).1.2)
    (map ex_video_named ["v10"; "v11"]) ex_st9.

(** ** Further vocabulary of the scanner *)

Definition invalidScanTypeEvent (type : string) : LogArgs :=
  mkLog (VStr ("Invalid scan type: " +:+ type)) "error" (Some "invalid_scan_type") None.

Definition markedEvent (n : nat) : LogArgs :=
  mkLog (VStr ("Marked " +:+ pretty n +:+ " jobs as complete.")) "scan" None None.

Definition markFailedEvent (err : string) : LogArgs :=
  mkLog (VStr ("Failed to mark jobs as complete: " +:+ err)) "error"
        (Some "mark_jobs_complete_failed") None.

(** The message of the TypeError raised by reading [job_id] of [null]. *)
Definition nullEntryError : string :=
  "Cannot read properties of null (reading 'job_id')".

(** An audit error was written for the job. *)
Definition error_logged_for (job : Job) (evs : list Event) : Prop :=
  exists l,
    In (ECall (CLogSystemEvent l)) evs /\
    target_id l = Some (id job) /\ action l = "error" /\ is_Some (error_name l).

(** Calls that penalise an uploader or quarantine an object. *)
Definition penalising (c : Call) : Prop :=
  match c with
  | CAddBlockedHash _ | CRestrictUser _ => True
  | CMove a => toBucket a = VStr "quarantine"
  | _ => False
  end.

Definition not_penalising (c : Call) : Prop := ~ penalising c.

Definition same_penalties (st st' : St) : Prop :=
  blocked_hashes (db st') = blocked_hashes (db st) /\
  users_bans (db st') = users_bans (db st).

Definition any_call (c : Call) : Prop := True.

Definition not_mark (c : Call) : Prop := forall js, c <> CMarkJobsAsComplete js.

Definition any_state (st st' : St) : Prop := True.


(** ** Vocabulary of the Vision adapter *)

(** Whether the adapter flags a response: a response with an error is
    never flagged. *)
Definition visionFlag (res : VisionResponse) : bool :=
  match v_error res, v_annotation res with
  | Some _, _ => false
  | None, Some (adult, violence, racy) => flagged adult violence racy
  | None, None => false
  end.

(** The verdict of the job at the position of a response. *)
Definition visionVerdictOf (job : Job) (res : VisionResponse) : ResultEntry :=
  RObj (mkVerdict (id job) (VBool (visionFlag res)) VUndef VUndef VUndef
          (v_error res)).


(** Calls other than a [markJobsAsComplete] of a list that is not
    [completed]. *)
Definition marks_only (completed : list Job) (c : Call) : Prop :=
  forall js, c = CMarkJobsAsComplete js -> js = completed.


(** ** Vocabulary of the store *)

(** What holds of the row [createMediaItem] stores for an item. *)
Definition approved_row (m : MediaItem) (row : MediaRow) : Prop :=
  mr_job_id row = mi_job_id m /\
  mr_moderation_status row = "approved" /\
  truthy (mr_width row) = true /\ truthy (mr_height row) = true /\
  exists mime,
    mr_mime_type row = VStr mime /\
    mr_media_type row = (if String.prefix "image" mime then "image" else "video") /\
    if String.prefix "video" mime then nullish (mr_duration row) = false
    else mr_duration row = VNull.


(** ** Vocabulary of the queue: scans and timers *)

(** The batch size and the flush interval of a class. *)
Definition batch_limit (type : string) : nat :=
  if String.eqb type "videos" then VIDEO_BATCH_SIZE else IMAGE_BATCH_SIZE.

Definition timer_interval (isVideo : bool) : Z :=
  if isVideo then VIDEO_INTERVAL else IMAGE_INTERVAL.

(** A scan is started for a known class on a batch that is not empty and
    within the batch size of the class; a timer is armed with a positive
    delay within the flush interval of its class. *)
Definition well_formed_event (e : Event) : Prop :=
  match e with
  | ECall (CScanMediaJobs batch type) =>
      (type = "images" \/ type = "videos") /\
      batch <> [] /\ (length batch <= batch_limit type)%nat
  | ESetTimeout isVideo delay => (0 < delay <= timer_interval isVideo)%Z
  | _ => True
  end.

(** The runs all of whose events satisfy [okE]. *)
Definition events_ok (okE : Event -> Prop) : Rel :=
  fun _ _ evs => Forall okE evs.


(** ** Vocabulary of the rate limiter *)

(** The timestamps within the window that ends at [now]. *)
Definition recent (now : Z) (times : list Z) : list Z :=
  filter (fun ts => (now - ts < WINDOW_MS)%Z) times.

(** The requests of one key at the given times, one after the other. *)
Fixpoint checkAll (key : jsval) (times : list Z) (l : Limiter)
  : list bool * Limiter :=
  match times with
  | [] => ([], l)
  | now :: rest =>
      let r := checkRateLimit now key l in
      let rs := checkAll key rest r.2 in
      (r.1 :: rs.1, rs.2)
  end.

(** The timestamps the limiter holds for a key. *)
Definition stored (key : jsval) (l : Limiter) : list Z :=
  default [] (rateLimits l !! key).


(** ** Vocabulary of the upload routes *)

(** The character occurs in the string. *)
Fixpoint contains (c : Ascii.ascii) (s : string) : bool :=
  match s with
  | EmptyString => false
  | String c' rest => Ascii.eqb c' c || contains c rest
  end.

(** The linked types without an entry in [bucketMap]. *)
Definition unmappedLinkedTypes : list string :=
  ["message"; "course"; "note"; "exam"; "event"].


(** ** Vocabulary of the queue: order of the jobs *)

(** The job is of the class: its MIME type is a string that starts with
    [video], or a string that does not. *)
Definition job_class_is (isVideo : bool) (job : Job) : bool :=
  match mime_type job with
  | VStr m => Bool.eqb (String.prefix "video" m) isVideo
  | _ => false
  end.

(** The jobs of a class given to [queueMediaJob] in a run, in order. *)
Definition admitted (isVideo : bool) (evs : list Event) : list Job :=
  omap (fun e => match e with
                 | ECall (CQueueMediaJob j) =>
                     if job_class_is isVideo j then Some j else None
                 | _ => None
                 end) evs.

(** The jobs of the scans of a class started in a run, in order. *)
Definition started (type : string) (evs : list Event) : list Job :=
  concat (omap (fun e => match e with
                         | ECall (CScanMediaJobs batch t) =>
                             if String.eqb t type then Some batch else None
                         | _ => None
                         end) evs).

(** First in, first out: the jobs queued before the run followed by the
    jobs admitted in it are the jobs the run sent to a scan followed by
    the jobs still queued. *)
Definition fifo : Rel :=
  fun st st' evs =>
    imageQueue (qs st) ++ admitted false evs
    = started "images" evs ++ imageQueue (qs st') /\
    videoQueue (qs st) ++ admitted true evs
    = started "videos" evs ++ videoQueue (qs st').

(** Events of the console. *)
Definition console_event (e : Event) : Prop :=
  match e with EConsole _ _ => True | _ => False end.

(** A run that only writes to the console. *)
Definition console_only : Rel :=
  fun st st' evs => st' = st /\ Forall console_event evs.


(** ** Further concrete data *)

(** The bulk backend answers with a safe verdict, or with an array that
    holds [null]. *)
Definition ex_env_safe : Env :=
  ex_env (VisionRejects "ECONNRESET") (RemoteReturns (ResResults [RObj ex_safe])).

Definition ex_env_null_entry : Env :=
  ex_env (VisionRejects "ECONNRESET") (RemoteReturns (ResResults [RNullish])).

(** The Vision endpoint finds the one image safe. *)
Definition ex_env_vision_safe : Env :=
  ex_env (VisionData [mkVision None (Some (VStr "VERY_UNLIKELY", VStr "UNLIKELY",
                                           VStr "VERY_UNLIKELY"))])
         (RemoteThrows "ECONNRESET").

Definition ex_untyped_job : Job :=
  mkJob "job-3" (VStr "user-3") (VStr "images/jo/job-3.jpeg") (VNum 2048)
        (VStr "ef56") VUndef (VStr "post-9") (VStr "post") VUndef.

Definition ex_limiter : Limiter := mkLimiter ∅ [] None [].

(** Fifty requests of [user-1] at time 0. *)
Definition ex_limiter_full : Limiter :=
  mkLimiter {[ VStr "user-1" := repeat 0%Z 50 ]} [] None [].

(** * Properties *)

(** ** Relations preserved along a run *)

Section Respects.
Context (P : Rel) `{!Compositional P}.

Lemma respects_ret {A} (a : A) : respects P (mret a).
Proof. intros st r st' evs H. inversion H; subst. apply comp_refl. Qed.

Lemma respects_throw {A} (e : string) : respects P (@throw A e).
Proof. intros st r st' evs H. inversion H; subst. apply comp_refl. Qed.

Lemma respects_get : respects P get.
Proof. intros st r st' evs H. inversion H; subst. apply comp_refl. Qed.

Lemma respects_bind {A B} (m : M A) (f : A -> M B) :
  respects P m -> (forall a, respects P (f a)) -> respects P (m ≫= f).
Proof.
  intros Hm Hf st r st' evs H.
  unfold mbind, M_bind, bind in H.
  destruct (m st) as [[[a|e] st1] e1] eqn:Em.
  - destruct (f a st1) as [[r2 st2] e2] eqn:Ef. inversion H; subst.
    eapply comp_trans; [eapply Hm | eapply Hf]; eassumption.
  - inversion H; subst. eapply Hm; eassumption.
Qed.

Lemma respects_try_catch {A} (m : M A) (h : string -> M A) :
  respects P m -> (forall e, respects P (h e)) -> respects P (try_catch m h).
Proof.
  intros Hm Hh st r st' evs H.
  unfold try_catch in H.
  destruct (m st) as [[[a|e] st1] e1] eqn:Em.
  - inversion H; subst. eapply Hm; eassumption.
  - destruct (h e st1) as [[r2 st2] e2] eqn:Eh. inversion H; subst.
    eapply comp_trans; [eapply Hm | eapply Hh]; eassumption.
Qed.

Lemma respects_emit (e : Event) :
  (forall st, P st st [e]) -> respects P (emit e).
Proof. intros Hp st r st' evs H. inversion H; subst. apply Hp. Qed.

Lemma respects_modify (f : St -> St) :
  (forall st, P st (f st) []) -> respects P (modify f).
Proof. intros Hp st r st' evs H. inversion H; subst. apply Hp. Qed.

Lemma respects_next_op :
  (forall st, P st (mkSt (S (tick st)) (db st) (qs st)) []) -> respects P next_op.
Proof. intros Hp st r st' evs H. inversion H; subst. apply Hp. Qed.

End Respects.

(** Decomposes a goal [respects P m] along the structure of [m]. *)
Ltac respects_step :=
  lazymatch goal with
  | |- respects ?P (mret _) => apply (respects_ret P)
  | |- respects ?P (throw _) => apply (respects_throw P)
  | |- respects ?P get => apply (respects_get P)
  | |- respects ?P (_ ≫= _) => apply (respects_bind P); [ | intros ?; cbv beta ]
  | |- respects ?P (try_catch _ _) =>
      apply (respects_try_catch P); [ | intros ?; cbv beta ]
  | |- respects _ (if ?b then _ else _) => destruct b
  | |- respects _ (match ?x with _ => _ end) => destruct x
  | |- respects _ (console _ _) => unfold console
  | |- respects _ _ => progress cbv beta zeta
  end.

(** ** Runs of the primitive operations *)

Lemma bind_run {A B} (m : M A) (f : A -> M B) st :
  (m ≫= f) st =
  match m st with
  | (Ok a, st1, e1) =>
      match f a st1 with (r, st2, e2) => (r, st2, e1 ++ e2) end
  | (Throw err, st1, e1) => (Throw err, st1, e1)
  end.
Proof. reflexivity. Qed.

Lemma bind_ok {A B} (m : M A) (f : A -> M B) st a st1 e1 :
  m st = (Ok a, st1, e1) ->
  (m ≫= f) st = match f a st1 with (r, st2, e2) => (r, st2, e1 ++ e2) end.
Proof. intros H. rewrite bind_run, H. reflexivity. Qed.

Lemma bind_throw {A B} (m : M A) (f : A -> M B) st err st1 e1 :
  m st = (Throw err, st1, e1) -> (m ≫= f) st = (Throw err, st1, e1).
Proof. intros H. rewrite bind_run, H. reflexivity. Qed.

Lemma try_catch_ok {A} (m : M A) h st a st1 e1 :
  m st = (Ok a, st1, e1) -> try_catch m h st = (Ok a, st1, e1).
Proof. intros H. unfold try_catch. rewrite H. reflexivity. Qed.

Lemma try_catch_throw {A} (m : M A) h st err st1 e1 :
  m st = (Throw err, st1, e1) ->
  try_catch m h st = match h err st1 with (r, st2, e2) => (r, st2, e1 ++ e2) end.
Proof. intros H. unfold try_catch. rewrite H. reflexivity. Qed.

Lemma total_ret {A} (a : A) : total (mret a).
Proof. intros st. by eexists _, _, _. Qed.

Lemma total_bind {A B} (m : M A) (f : A -> M B) :
  total m -> (forall a, total (f a)) -> total (m ≫= f).
Proof.
  intros Hm Hf st. destruct (Hm st) as (a & st1 & e1 & E1).
  destruct (Hf a st1) as (b & st2 & e2 & E2).
  exists b, st2, (e1 ++ e2). by rewrite (bind_ok _ _ _ _ _ _ E1), E2.
Qed.

Lemma total_try_catch {A} (m : M A) (h : string -> M A) :
  (forall e, total (h e)) -> total (try_catch m h).
Proof.
  intros Hh st. unfold try_catch.
  destruct (m st) as [[[a|e] st1] e1].
  - by eexists _, _, _.
  - destruct (Hh e st1) as (b & st2 & e2 & E2). rewrite E2. by eexists _, _, _.
Qed.

Lemma total_emit e : total (emit e).
Proof. intros st. by eexists _, _, _. Qed.

Lemma total_modify f : total (modify f).
Proof. intros st. by eexists _, _, _. Qed.

Lemma total_get : total get.
Proof. intros st. by eexists _, _, _. Qed.

Lemma total_next_op : total next_op.
Proof. intros st. by eexists _, _, _. Qed.

Ltac total_step :=
  lazymatch goal with
  | |- total (mret _) => apply total_ret
  | |- total (emit _) => apply total_emit
  | |- total (console _ _) => apply total_emit
  | |- total (modify _) => apply total_modify
  | |- total get => apply total_get
  | |- total next_op => apply total_next_op
  | |- total (_ ≫= _) => apply total_bind; [ | intros ?; cbv beta ]
  | |- total (try_catch _ _) => apply total_try_catch; intros ?; cbv beta
  | |- total (if ?b then _ else _) => destruct b
  | |- total (match ?x with _ => _ end) => destruct x
  end.

Section TotalCollaborators.
Context (env : Env).

Lemma supabase_total q f : total (supabase env q f).
Proof. unfold supabase. repeat total_step. Qed.

(** [logSystemEvent] reports a failed insert on the console and returns:
    it never throws. *)
Lemma logSystemEvent_total l : total (logSystemEvent env l).
Proof.
  unfold logSystemEvent.
  total_step; [apply total_emit|]. total_step; [apply supabase_total|].
  repeat total_step.
Qed.

Lemma restrictUserMediaUploads_total u : total (restrictUserMediaUploads env u).
Proof.
  unfold restrictUserMediaUploads.
  total_step; [apply total_emit|]. total_step; [apply supabase_total|].
  repeat total_step.
Qed.

End TotalCollaborators.

Lemma bind_events_prefix {A B} (m : M A) (f : A -> M B) st r st' evs :
  (m ≫= f) st = (r, st', evs) ->
  exists r1 st1 e1 e2, m st = (r1, st1, e1) /\ evs = e1 ++ e2.
Proof.
  rewrite bind_run. destruct (m st) as [[[a|e] st1] e1].
  - destruct (f a st1) as [[r2 st2] e2]. intros H; inversion H; subst.
    by eexists _, _, _, _.
  - intros H; inversion H; subst. exists (Throw e), st', evs, [].
    by rewrite app_nil_r.
Qed.

Lemma try_catch_events_prefix {A} (m : M A) h st r st' evs :
  try_catch m h st = (r, st', evs) ->
  exists r1 st1 e1 e2, m st = (r1, st1, e1) /\ evs = e1 ++ e2.
Proof.
  unfold try_catch. destruct (m st) as [[[a|e] st1] e1].
  - intros H; inversion H; subst. exists (Ok a), st', evs, [].
    by rewrite app_nil_r.
  - destruct (h e st1) as [[r2 st2] e2]. intros H; inversion H; subst.
    by eexists _, _, _, _.
Qed.

Lemma moveObjectWithinBuckets_first env a st r st' evs :
  moveObjectWithinBuckets env a st = (r, st', evs) ->
  exists evs', evs = ECall (CMove a) :: evs'.
Proof.
  unfold moveObjectWithinBuckets.
  rewrite (bind_ok _ _ _ tt st [ECall (CMove a)]) by reflexivity.
  match goal with |- context [match ?x with _ => _ end] => destruct x as [[r2 st2] e2] end.
  intros H; inversion H; subst. by eexists.
Qed.

(** ** Destination of a reconciled job *)

Lemma bucketMap_values_truthy k b :
  bucketMap !! k = Some b -> truthy (VStr b) = true.
Proof.
  intros H. apply elem_of_list_to_map_2 in H.
  repeat (apply elem_of_cons in H as [H|H]; [inversion H; subst; reflexivity|]).
  by apply elem_of_nil in H.
Qed.

Lemma includes_prefixTypes lt :
  includes prefixTypes lt = true <-> lt = VStr "post" \/ lt = VStr "opportunity".
Proof.
  split.
  - destruct lt as [| |b|n|s]; simpl; try discriminate.
    rewrite !orb_true_iff, !String.eqb_eq. intros [->|[->|?]]; auto; discriminate.
  - intros [->| ->]; reflexivity.
Qed.

(** C9. For a job whose [linked_to_type] does not name a member inherited
    from [Object.prototype], as no type the upload route admits does, and
    whose type and file name are printed in full: the bucket is the entry
    of the static map for the type, and the default bucket when the map
    has no entry for it, in particular when the type is absent; the key is
    the file name when the type is [post] or [opportunity] or is absent
    (falsy), and the file name prefixed with the type and a slash
    otherwise. The commit path moves the object to that bucket and key. *)
Theorem destination_bucket_and_key (job : Job) :
  (forall b, bucketMap !! to_str (linked_to_type job) = Some b ->
             getTargetBucket (linked_to_type job) = b) /\
  (own_lookup (linked_to_type job) ->
   bucketMap !! to_str (linked_to_type job) = None ->
   getTargetBucket (linked_to_type job) = "default-bucket") /\
  (nullish (linked_to_type job) = true ->
   own_lookup (linked_to_type job) /\
   getTargetBucket (linked_to_type job) = "default-bucket") /\
  (linked_to_type job = VStr "post" \/ linked_to_type job = VStr "opportunity"
   \/ truthy (linked_to_type job) = false ->
   getTargetKey job = file_name job) /\
  (printed_in_full (linked_to_type job) -> printed_in_full (file_name job) ->
   linked_to_type job <> VStr "post" -> linked_to_type job <> VStr "opportunity" ->
   truthy (linked_to_type job) = true ->
   getTargetKey job
   = VStr (to_str (linked_to_type job) +:+ "/" +:+ to_str (file_name job))) /\
  (forall env type result st,
     own_lookup (linked_to_type job) ->
     printed_in_full (linked_to_type job) -> printed_in_full (file_name job) ->
     truthy (is_nsfw result) = false ->
     exists r st' evs,
       reconcile env type job result st
       = (r, st',
          ECall (CMove (mkMove (file_name job) (getTargetKey job) VUndef
                          (VStr (getTargetBucket (linked_to_type job))))) :: evs)) /\
  (forall lt, In lt allowedLinkedTypes ->
     own_lookup (VStr lt) /\ printed_in_full (VStr lt)).
Proof.
  split; [|split; [|split; [|split; [|split; [|split]]]]].
  - intros b Hb. unfold getTargetBucket. rewrite Hb.
    by rewrite (bucketMap_values_truthy _ _ Hb).
  - intros _ Hn. unfold getTargetBucket. by rewrite Hn.
  - intros Hn. split.
    + unfold own_lookup, inheritedNames.
      destruct (linked_to_type job); try discriminate; simpl;
        intros H; repeat (destruct H as [H|H]; [discriminate H|]); exact H.
    + destruct (linked_to_type job); try discriminate; reflexivity.
  - intros H. unfold getTargetKey.
    destruct H as [H|[H|H]]; rewrite H; try reflexivity.
    by rewrite orb_true_r.
  - intros _ _ H1 H2 H3. unfold getTargetKey. rewrite H3.
    destruct (includes prefixTypes (linked_to_type job)) eqn:E; [|reflexivity].
    apply includes_prefixTypes in E as [E|E]; contradiction.
  - intros env type result st _ _ _ Hn. unfold reconcile. rewrite Hn.
    destruct (commitPath env job result (getTargetBucket (linked_to_type job))
                (getTargetKey job) st) as [[r st'] evs] eqn:E.
    unfold commitPath in E.
    apply bind_events_prefix in E as (r1 & st1 & e1 & e2 & E & ->).
    apply try_catch_events_prefix in E as (r2 & st2 & e3 & e4 & E & ->).
    apply bind_events_prefix in E as (r3 & st3 & e5 & e6 & E & ->).
    apply moveObjectWithinBuckets_first in E as [e7 ->].
    by eexists _, _, _.
  - intros lt Hin. split; [|exact I].
    unfold own_lookup, inheritedNames. cbn [to_str].
    repeat (destruct Hin as [<-|Hin];
            [intros H; repeat (destruct H as [H|H]; [discriminate H|]); exact H|]).
    destruct Hin.
Qed.

(** ** Relations given by calls and state *)

Global Instance guarded_compositional okC R `{!Permissive okC R} :
  Compositional (guarded okC R).
Proof.
  split.
  - intros st. split; [intros c []|apply perm_refl].
  - intros st st1 st2 e1 e2 [H1 H1'] [H2 H2']. split.
    + intros c Hin. apply in_app_or in Hin as [Hin|Hin]; eauto.
    + eapply perm_trans; eauto.
Qed.

Section Guarded.
Context (env : Env) (okC : Call -> Prop) (R : St -> St -> Prop).
Context `{!Permissive okC R}.
Abbreviation G := (guarded okC R).

Lemma emit_call_guarded c : okC c -> respects G (emit (ECall c)).
Proof.
  intros Hc. apply (respects_emit G). intros st. split; [|apply perm_refl].
  intros c' [Hm|[]]. by inversion Hm; subst.
Qed.

Lemma modify_guarded f : (forall st, R st (f st)) -> respects G (modify f).
Proof. intros Hf. apply (respects_modify G). intros st. split; [intros c []|apply Hf]. Qed.

Local Ltac emit_ok :=
  apply (respects_emit G); intros ?; split;
  [ intros ? [Hm|[]]; discriminate Hm | apply perm_refl ].
Local Ltac tick_ok :=
  apply (respects_next_op G); intros ?; split; [ intros ? [] | apply perm_tick ].
Local Ltac go :=
  repeat first [ solve [ emit_ok ] | solve [ tick_ok ]
               | solve [ eauto using emit_call_guarded, modify_guarded ]
               | respects_step ].

Lemma supabase_guarded q f :
  (forall st, R st (set_db f st)) -> respects G (supabase env q f).
Proof. intros Hf. unfold supabase. go. Qed.

Lemma logSystemEvent_guarded l : respects G (logSystemEvent env l).
Proof.
  unfold logSystemEvent. go.
  - apply emit_call_guarded, perm_log_call.
  - apply supabase_guarded, perm_log.
Qed.

Lemma restrictUser_guarded u :
  okC (CRestrictUser u) -> (forall st, R st (set_db (add_user_ban u) st)) ->
  respects G (restrictUserMediaUploads env u).
Proof. intros. unfold restrictUserMediaUploads. go. by apply supabase_guarded. Qed.

Lemma addBlockedHash_guarded b :
  okC (CAddBlockedHash b) -> (forall st, R st (set_db (add_blocked_hash b) st)) ->
  respects G (addBlockedHash env b).
Proof. intros. unfold addBlockedHash. go. by apply supabase_guarded. Qed.

Lemma markJobsAsComplete_guarded jobs :
  okC (CMarkJobsAsComplete jobs) ->
  (forall st, R st (set_db (set_complete (map id jobs)) st)) ->
  respects G (markJobsAsComplete env jobs).
Proof. intros. unfold markJobsAsComplete. go. by apply supabase_guarded. Qed.

Lemma s3_send_guarded cmd : respects G (s3_send env cmd).
Proof. unfold s3_send. go. Qed.

Lemma move_guarded a : okC (CMove a) -> respects G (moveObjectWithinBuckets env a).
Proof. intros. unfold moveObjectWithinBuckets. go; apply s3_send_guarded. Qed.

Lemma starts_with_guarded s p : respects G (starts_with s p).
Proof. unfold starts_with. go. Qed.

Lemma createMediaItem_guarded m :
  okC (CCreateMediaItem m) ->
  (forall row st, mr_job_id row = mi_job_id m -> R st (set_db (add_media row) st)) ->
  respects G (createMediaItem env m).
Proof.
  intros Hc Hr. unfold createMediaItem.
  go; try apply starts_with_guarded.
  apply supabase_guarded. intros st. by apply Hr.
Qed.

Lemma remote_guarded p : respects G (remote env p).
Proof. unfold remote. go. Qed.

Lemma sleep_guarded ms : respects G (sleep ms).
Proof. unfold sleep. go. Qed.

Lemma Date_now_guarded : respects G (Date_now env).
Proof. unfold Date_now. go. Qed.

Lemma generateSignedGetUrl_guarded k : respects G (generateSignedGetUrl env k).
Proof. unfold generateSignedGetUrl. go. Qed.

Lemma visionVerdict_guarded jobs res i : respects G (visionVerdict jobs res i).
Proof. unfold visionVerdict. go. Qed.

Lemma visionMap_guarded jobs responses i : respects G (visionMap jobs responses i).
Proof.
  revert i. induction responses as [|res rest IH]; intros i; simpl.
  - go.
  - go. apply visionVerdict_guarded.
Qed.

Lemma safeSearchFromUrls_guarded jobs :
  okC (CSafeSearch jobs) -> respects G (safeSearchFromUrls env jobs).
Proof. intros. unfold safeSearchFromUrls. go. apply visionMap_guarded. Qed.

Lemma withRetryLoop_guarded fuel attempt p :
  respects G (withRetryLoop env fuel attempt p).
Proof.
  revert attempt. induction fuel as [|fuel IH]; intros attempt; simpl.
  - go.
  - go; first [apply remote_guarded | apply sleep_guarded].
Qed.

Lemma fetchResults_guarded jobs type :
  okC (CSafeSearch jobs) -> respects G (fetchResults env jobs type).
Proof.
  intros. unfold fetchResults, withRetry.
  go; first [ by apply safeSearchFromUrls_guarded | apply withRetryLoop_guarded
            | apply logSystemEvent_guarded ].
Qed.

End Guarded.

Section GuardedScanner.
Context (env : Env) (okC : Call -> Prop) (R : St -> St -> Prop).
Context `{!Permissive okC R} `{!Reconciling okC R}.
Abbreviation GS := (guarded okC R).

Local Ltac leaf :=
  first [ assumption
        | apply logSystemEvent_guarded; assumption
        | apply starts_with_guarded; assumption
        | apply addBlockedHash_guarded;
            [ assumption | apply rec_block | apply rec_block_row ]
        | apply restrictUser_guarded;
            [ assumption | apply rec_restrict | apply rec_ban_row ]
        | apply move_guarded; [ assumption | apply rec_move ]
        | apply (respects_emit GS); intros ?; split;
            [ intros ? [Hm|[]]; discriminate Hm | apply perm_refl ] ].
Local Ltac go := repeat first [ solve [ leaf ] | respects_step ].

Lemma quarantinePath_guarded type job toKey :
  respects GS (quarantinePath env type job toKey).
Proof.
  unfold quarantinePath, quarantineBlockHash, quarantineRestrictUser,
    quarantineAudit, quarantineMove.
  go.
Qed.

Lemma commitPath_guarded job result toBucket toKey :
  okC (CCreateMediaItem (mediaItemOf job result toKey)) ->
  (forall row st, mr_job_id row = id job -> R st (set_db (add_media row) st)) ->
  respects GS (commitPath env job result toBucket toKey).
Proof.
  intros Hc Hr. unfold commitPath. go.
  apply createMediaItem_guarded; assumption.
Qed.

Lemma perJobTry_guarded job body completed :
  respects GS body -> respects GS (perJobTry env job body completed).
Proof. intros Hb. unfold perJobTry. go. Qed.

Lemma loopBody_guarded rb type job completed :
  commit_allowed okC R rb job -> respects GS (loopBody env rb type job completed).
Proof.
  intros Ha. unfold loopBody.
  destruct (validVerdict (rb !! id job)) as [r|] eqn:Ev.
  - apply perJobTry_guarded. unfold reconcile.
    destruct (truthy (is_nsfw r)) eqn:En.
    + apply quarantinePath_guarded.
    + destruct (Ha r Ev En). by apply commitPath_guarded.
  - go.
Qed.

Lemma reconcileJobs_guarded rb type jobs completed :
  (forall job, In job jobs -> commit_allowed okC R rb job) ->
  respects GS (reconcileJobs env rb type jobs completed).
Proof.
  revert completed. induction jobs as [|job rest IH]; intros completed Ha; simpl.
  - go.
  - respects_step.
    + apply loopBody_guarded, Ha. by left.
    + apply IH. intros j Hj. apply Ha. by right.
Qed.

Lemma finishBatch_guarded completed :
  okC (CMarkJobsAsComplete completed) ->
  (forall st, R st (set_db (set_complete (map id completed)) st)) ->
  respects GS (finishBatch env completed).
Proof.
  intros Hc Hr. unfold finishBatch. go.
  apply markJobsAsComplete_guarded; assumption.
Qed.

End GuardedScanner.

(** ** Unsafe content never reaches the approved-media store *)

Global Instance no_record_permissive target :
  Permissive (not_created target) (same_media_of target).
Proof.
  split; unfold same_media_of; try done.
  - intros; congruence.
Qed.

Global Instance no_record_reconciling target :
  Reconciling (not_created target) (same_media_of target).
Proof. split; done. Qed.

Lemma validVerdict_Some o r :
  validVerdict o = Some r -> o = Some r /\ exists b, is_nsfw r = VBool b.
Proof.
  destruct o as [v|]; simpl; [|discriminate].
  destruct (is_nsfw v) eqn:E; simpl; try discriminate.
  intros H; inversion H; subst. eauto.
Qed.

Lemma indexResults_run results l st :
  entries results = Some l ->
  indexResults results st = (Ok (fromEntries l), st, []).
Proof. intros H. unfold indexResults. by rewrite H. Qed.

(** C1. In any run of [scanMediaJobs], for a job of the batch whose
    verdict, as indexed from the results of the backend, has
    [is_nsfw = true], [createMediaItem] is never called with that job's id
    and the rows of the approved-media store for that job are unchanged. *)
Theorem nsfw_never_approved env jobs type st r st' evs results st1 evs1 job v :
  scanMediaJobs env jobs type st = (r, st', evs) ->
  fetchResults env jobs type st = (Ok results, st1, evs1) ->
  In job jobs ->
  verdictOf results job = Some v ->
  is_nsfw v = VBool true ->
  (forall m, In (ECall (CCreateMediaItem m)) evs -> mi_job_id m <> id job) /\
  media_of (id job) (db st') = media_of (id job) (db st).
Proof.
  intros Hrun Hfetch Hin Hv Hnsfw.
  set (G := guarded (not_created (id job)) (same_media_of (id job))).
  assert (HG : G st st' evs).
  { unfold scanMediaJobs in Hrun.
    destruct (negb (existsb (String.eqb type) ["images"; "videos"])).
    { revert Hrun. apply (respects_bind G); [apply logSystemEvent_guarded; tc_solve|].
      intros ?. apply (respects_throw G). }
    rewrite (bind_ok _ _ _ _ _ _ Hfetch) in Hrun.
    unfold verdictOf in Hv. destruct (entries results) as [l|] eqn:El; [|discriminate].
    rewrite (bind_ok _ _ _ _ _ _ (indexResults_run _ _ _ El)) in Hrun.
    match type of Hrun with
    | match match ?m st1 with _ => _ end with _ => _ end = _ =>
        destruct (m st1) as [[r2 st2] e2] eqn:E2
    end.
    inversion Hrun; subst. clear Hrun.
    eapply (comp_trans (P:=G)).
    { eapply (fetchResults_guarded env _ _ jobs type); [done|exact Hfetch]. }
    revert E2. apply (respects_bind G).
    - apply reconcileJobs_guarded; try tc_solve.
      intros j Hj r0 Hr0 Hsafe.
      assert (id j <> id job) as Hne.
      { intros Heq. rewrite Heq in Hr0.
        apply validVerdict_Some in Hr0 as [Hr0 _].
        rewrite Hv in Hr0. inversion Hr0; subst.
        rewrite Hnsfw in Hsafe. discriminate. }
      split.
      + intros m Hm. inversion Hm; subst. exact Hne.
      + intros row st0 Hrow. unfold same_media_of, media_of. simpl.
        rewrite filter_app, filter_cons_False, filter_nil, app_nil_r; [done|].
        congruence.
    - intros completed. apply finishBatch_guarded; try tc_solve; done. }
  destruct HG as [Hc Hm]. split; [|exact Hm].
  intros m Hin'. by apply (Hc _ Hin').
Qed.

(** ** Per-job isolation *)

Lemma returns_ret {A} (a : A) : returns (mret a) a.
Proof. intros st. by eexists _, _. Qed.

Lemma returns_bind {A B} (m : M A) (f : A -> M B) b :
  total m -> (forall a, returns (f a) b) -> returns (m ≫= f) b.
Proof.
  intros Hm Hf st. destruct (Hm st) as (a & st1 & e1 & E1).
  destruct (Hf a st1) as (st2 & e2 & E2).
  exists st2, (e1 ++ e2). by rewrite (bind_ok _ _ _ _ _ _ E1), E2.
Qed.

Lemma returns_unit (m : M unit) : total m -> returns m tt.
Proof. intros Hm st. destruct (Hm st) as ([] & st' & evs & E). eauto. Qed.

(** The [catch] blocks of the scanner: report on the console, write an
    audit event, then go on with the value [c]. *)
Lemma handler_returns {A} env msg l (c : A) :
  returns (console "error" msg;; logSystemEvent env l;; mret c) c.
Proof.
  apply returns_bind; [apply total_emit|]. intros _.
  apply returns_bind; [apply logSystemEvent_total|]. intros _.
  apply returns_ret.
Qed.

Lemma handler_unit_returns env msg l :
  returns (console "error" msg;; logSystemEvent env l) tt.
Proof.
  apply returns_unit. apply total_bind; [apply total_emit|].
  intros _. apply logSystemEvent_total.
Qed.

Lemma logSystemEvent_first env l st r st' evs :
  logSystemEvent env l st = (r, st', evs) ->
  exists evs', evs = ECall (CLogSystemEvent l) :: evs'.
Proof.
  unfold logSystemEvent.
  rewrite (bind_ok _ _ _ tt st [ECall (CLogSystemEvent l)]) by reflexivity.
  match goal with |- context [match ?x with _ => _ end] => destruct x as [[r2 st2] e2] end.
  intros H; inversion H; subst. by eexists.
Qed.

Lemma perJobTry_run env job body completed st :
  exists st' evs,
    perJobTry env job body completed st
    = (Ok match body st with
          | (Ok true, _, _) => completed ++ [job]
          | _ => completed
          end, st', evs) /\
    forall err st1 e1, body st = (Throw err, st1, e1) ->
      In (ECall (CLogSystemEvent (unexpectedErrorEvent job err))) evs.
Proof.
  unfold perJobTry, try_catch. rewrite bind_run.
  destruct (body st) as [[[b|err] st1] e1].
  - simpl. eexists _, _. split; [destruct b; reflexivity|]. discriminate.
  - match goal with |- context [?h st1] =>
      destruct (handler_returns env
        ("Unexpected error while processing job " +:+ id job +:+ ": " +:+ err)
        (unexpectedErrorEvent job err) completed st1) as (st2 & e2 & E2)
    end.
    unfold unexpectedErrorEvent in E2. rewrite E2.
    eexists _, _. split; [reflexivity|].
    intros err' st1' e1' H. inversion H; subst.
    apply in_or_app. right.
    rewrite bind_run in E2. unfold console, emit in E2.
    destruct ((logSystemEvent env _ ≫= _) st1') as [[r3 st3] e3] eqn:E3.
    inversion E2; subst.
    apply bind_events_prefix in E3 as (r4 & st4 & e4 & e5 & E4 & ->).
    apply logSystemEvent_first in E4 as [e6 ->].
    simpl. right. by left.
Qed.

Lemma loopBody_returns env rb type job completed st :
  exists c' st' evs,
    loopBody env rb type job completed st = (Ok c', st', evs) /\
    (c' = completed \/
     c' = completed ++ [job] /\ is_Some (validVerdict (rb !! id job))).
Proof.
  unfold loopBody. destruct (validVerdict (rb !! id job)) as [result|].
  - destruct (perJobTry_run env job (reconcile env type job result) completed st)
      as (st' & evs & E & _).
    rewrite E. eexists _, _, _. split; [reflexivity|].
    destruct (reconcile env type job result st) as [[[[]|] ?] ?]; eauto.
  - match goal with |- context [?m st] =>
      assert (returns m completed) as Hr
    end.
    { apply returns_bind; [apply total_emit|]. intros _.
      apply returns_bind; [apply logSystemEvent_total|]. intros _.
      apply returns_ret. }
    destruct (Hr st) as (st' & evs & E). rewrite E. eauto 10.
Qed.

Lemma reconcileJobs_returns env rb type jobs completed st :
  exists c' st' evs,
    reconcileJobs env rb type jobs completed st = (Ok c', st', evs) /\
    forall j, In j c' ->
      In j completed \/ In j jobs /\ is_Some (validVerdict (rb !! id j)).
Proof.
  revert completed st. induction jobs as [|job rest IH]; intros completed st; simpl.
  - eexists _, _, _. split; [reflexivity|]. auto.
  - destruct (loopBody_returns env rb type job completed st)
      as (c1 & st1 & e1 & E1 & Hc1).
    destruct (IH c1 st1) as (c2 & st2 & e2 & E2 & Hc2).
    rewrite (bind_ok _ _ _ _ _ _ E1), E2.
    eexists _, _, _. split; [reflexivity|].
    intros j Hj. destruct (Hc2 j Hj) as [Hj1|[Hj1 Hv]]; [|by auto].
    destruct Hc1 as [->|[-> Hv]]; [by auto|].
    apply in_app_or in Hj1 as [Hj1|[<-|[]]]; auto.
Qed.

(** C8. Whatever the reconciliation of a job throws is caught by the
    job's own [try]: the job is left out of the completed list, an
    [unexpected_job_processing_error] audit event is written for it, the
    iteration ends normally and the loop goes on with the remaining jobs;
    the loop over a batch always runs to its end and never throws. *)
Theorem per_job_isolation env :
  (forall job body completed st err st1 e1,
     body st = (Throw err, st1, e1) ->
     exists st' evs,
       perJobTry env job body completed st = (Ok completed, st', evs) /\
       In (ECall (CLogSystemEvent (unexpectedErrorEvent job err))) evs) /\
  (forall rb type job rest completed st,
     exists c1 st1 e1,
       loopBody env rb type job completed st = (Ok c1, st1, e1) /\
       reconcileJobs env rb type (job :: rest) completed st
       = match reconcileJobs env rb type rest c1 st1 with
         | (r, st2, e2) => (r, st2, e1 ++ e2)
         end) /\
  (forall rb type jobs completed st,
     exists c' st' evs,
       reconcileJobs env rb type jobs completed st = (Ok c', st', evs)).
Proof.
  repeat split.
  - intros job body completed st err st1 e1 Hb.
    destruct (perJobTry_run env job body completed st) as (st' & evs & E & Hlog).
    rewrite Hb in E. eauto.
  - intros rb type job rest completed st.
    destruct (loopBody_returns env rb type job completed st)
      as (c1 & st1 & e1 & E1 & _).
    exists c1, st1, e1. split; [exact E1|].
    simpl. by rewrite (bind_ok _ _ _ _ _ _ E1).
  - intros rb type jobs completed st.
    destruct (reconcileJobs_returns env rb type jobs completed st)
      as (c' & st' & evs & E & _). eauto.
Qed.

(** ** Quarantine path *)

Lemma emit_bind_first {B} e (k : unit -> M B) st r st' evs :
  (emit e ≫= k) st = (r, st', evs) -> exists evs', evs = e :: evs'.
Proof.
  rewrite (bind_ok _ _ _ tt st [e]) by reflexivity.
  destruct (k tt st) as [[r2 st2] e2].
  intros H; inversion H; subst. by eexists.
Qed.

Lemma try_catch_unit_returns (m : M unit) h :
  (forall e, total (h e)) -> returns (try_catch m h) tt.
Proof. intros Hh. apply returns_unit. by apply total_try_catch. Qed.

Lemma try_catch_first {A} (m : M A) h e st r st' evs :
  (forall st r st' evs, m st = (r, st', evs) -> exists evs', evs = e :: evs') ->
  try_catch m h st = (r, st', evs) -> In e evs.
Proof.
  intros Hm H. apply try_catch_events_prefix in H as (r1 & st1 & e1 & e2 & E & ->).
  apply Hm in E as [e3 ->]. by left.
Qed.

Lemma quarantineBlockHash_attempt env job st st' evs mime :
  mime_type job = VStr mime ->
  quarantineBlockHash env job (getTargetKey job) st = (Ok tt, st', evs) ->
  In (ECall (CAddBlockedHash (blockedHashOf job mime))) evs.
Proof.
  intros Hm. unfold quarantineBlockHash. rewrite Hm.
  apply try_catch_first. clear. intros st r st' evs.
  unfold starts_with. rewrite bind_run. simpl.
  destruct (addBlockedHash env _ st) as [[r1 st1] e1] eqn:E. intros H.
  inversion H; subst. unfold addBlockedHash in E.
  by apply emit_bind_first in E.
Qed.

(** C6. On the quarantine path each of the four sub-steps ends normally
    whatever happens inside it, so each one is run from the state its
    predecessor leaves: the blocklist insert is called (for a job whose
    MIME type is a string; otherwise the attempt fails and is caught like
    any other failure of the step), the user restriction is called, the
    unsafe-content audit event is written and the move to the quarantine
    bucket at the same key is called; and the iteration of a job whose
    verdict is unsafe always adds the job to the completed list. *)
Theorem quarantine_steps_independent env type job st :
  exists st1 e1 st2 e2 st3 e3 st4 e4,
    quarantineBlockHash env job (getTargetKey job) st = (Ok tt, st1, e1) /\
    quarantineRestrictUser env job st1 = (Ok tt, st2, e2) /\
    quarantineAudit env job
      ("NSFW detected in " +:+ slice_0_m1 type +:+ " with ID " +:+ id job) st2
    = (Ok tt, st3, e3) /\
    quarantineMove env job st3 = (Ok tt, st4, e4) /\
    quarantinePath env type job (getTargetKey job) st
    = (Ok true, st4, e1 ++ e2 ++ e3 ++ e4) /\
    (forall mime, mime_type job = VStr mime ->
       In (ECall (CAddBlockedHash (blockedHashOf job mime))) e1) /\
    In (ECall (CRestrictUser (user_id job))) e2 /\
    In (ECall (CLogSystemEvent (unsafeContentEvent type job))) e3 /\
    In (ECall (CMove (quarantineMoveArgs job))) e4 /\
    (forall rb completed result,
       validVerdict (rb !! id job) = Some result ->
       truthy (is_nsfw result) = true ->
       loopBody env rb type job completed st
       = (Ok (completed ++ [job]), st4, e1 ++ e2 ++ e3 ++ e4)).
Proof.
  set (msg := "NSFW detected in " +:+ slice_0_m1 type +:+ " with ID " +:+ id job).
  assert (H1 : returns (quarantineBlockHash env job (getTargetKey job)) tt).
  { apply try_catch_unit_returns. intros e.
    apply total_bind; [apply total_emit|]. intros _. apply logSystemEvent_total. }
  assert (H2 : returns (quarantineRestrictUser env job) tt).
  { apply try_catch_unit_returns. intros e.
    apply total_bind; [apply total_emit|]. intros _. apply logSystemEvent_total. }
  assert (H3 : returns (quarantineAudit env job msg) tt).
  { apply try_catch_unit_returns. intros e.
    apply total_bind; [apply total_emit|]. intros _. apply logSystemEvent_total. }
  assert (H4 : returns (quarantineMove env job) tt).
  { apply try_catch_unit_returns. intros e.
    apply total_bind; [apply total_emit|]. intros _. apply logSystemEvent_total. }
  destruct (H1 st) as (st1 & e1 & E1). destruct (H2 st1) as (st2 & e2 & E2).
  destruct (H3 st2) as (st3 & e3 & E3). destruct (H4 st3) as (st4 & e4 & E4).
  exists st1, e1, st2, e2, st3, e3, st4, e4.
  assert (Hpath : quarantinePath env type job (getTargetKey job) st
                  = (Ok true, st4, e1 ++ e2 ++ e3 ++ e4)).
  { unfold quarantinePath. fold msg.
    rewrite (bind_ok _ _ _ _ _ _ E1), (bind_ok _ _ _ _ _ _ E2),
      (bind_ok _ _ _ _ _ _ E3), (bind_ok _ _ _ _ _ _ E4).
    simpl. by rewrite app_nil_r. }
  repeat split; try assumption.
  - intros mime Hm. by eapply quarantineBlockHash_attempt.
  - revert E2. unfold quarantineRestrictUser. apply try_catch_first.
    intros s r s' evs. unfold restrictUserMediaUploads. apply emit_bind_first.
  - revert E3. unfold quarantineAudit. apply try_catch_first.
    intros s r s' evs. apply logSystemEvent_first.
  - revert E4. unfold quarantineMove. apply try_catch_first.
    intros s r s' evs. apply moveObjectWithinBuckets_first.
  - intros rb completed result Hv Hn. unfold loopBody. rewrite Hv.
    unfold perJobTry, reconcile. rewrite Hn.
    unfold try_catch. rewrite (bind_ok _ _ _ _ _ _ Hpath). simpl.
    by rewrite app_nil_r.
Qed.

(** ** Commit path *)

Global Instance not_create_permissive : Permissive not_create same_media.
Proof.
  split; unfold same_media; try done.
  intros; congruence.
Qed.

Lemma move_then_handler_no_record env a msg l st err st1 e1 st2 e2 :
  moveObjectWithinBuckets env a st = (Throw err, st1, e1) ->
  (console "error" msg;; logSystemEvent env l;; mret false) st1 = (Ok false, st2, e2) ->
  (forall m, ~ In (ECall (CCreateMediaItem m)) (e1 ++ e2)) /\
  media (db st2) = media (db st).
Proof.
  intros Hm Hh.
  assert (guarded not_create same_media st st2 (e1 ++ e2)) as [Hc Hr].
  { eapply (comp_trans (P := guarded not_create same_media)).
    - eapply (move_guarded env not_create same_media); [|exact Hm]. done.
    - revert Hh. apply (respects_bind (guarded not_create same_media)).
      + apply (respects_emit (guarded not_create same_media)).
        intros s. split; [|done]. intros c [H|[]]. discriminate.
      + intros _. apply (respects_bind (guarded not_create same_media)).
        * apply logSystemEvent_guarded. tc_solve.
        * intros _. apply (respects_ret (guarded not_create same_media)). }
  split; [|exact Hr]. intros m Hin. by apply (Hc _ Hin m).
Qed.

(** C3. The iteration of a job whose verdict is safe: when the storage
    move throws, [createMediaItem] is not called, no row is added to the
    store and the job is not added to the completed list; when the move
    succeeds and [createMediaItem] throws, the job is not added either;
    the job is added exactly when both succeed. *)
Theorem commit_requires_move_and_record env rb type job completed st result :
  validVerdict (rb !! id job) = Some result ->
  truthy (is_nsfw result) = false ->
  exists c' st' evs,
    loopBody env rb type job completed st = (Ok c', st', evs) /\
    match moveObjectWithinBuckets env (commitMoveArgs job) st with
    | (Throw _, _, _) =>
        c' = completed /\
        (forall m, ~ In (ECall (CCreateMediaItem m)) evs) /\
        media (db st') = media (db st)
    | (Ok _, st1, _) =>
        match createMediaItem env (mediaItemOf job result (getTargetKey job)) st1 with
        | (Throw _, _, _) => c' = completed
        | (Ok _, _, _) => c' = completed ++ [job]
        end
    end.
Proof.
  intros Hv Hn. unfold loopBody. rewrite Hv.
  unfold perJobTry, reconcile. rewrite Hn.
  unfold commitPath. fold (commitMoveArgs job).
  destruct (moveObjectWithinBuckets env (commitMoveArgs job) st)
    as [[[[]|err] st1] e1] eqn:Emove.
  - (* the move succeeded *)
    assert (Hmoved :
      try_catch (moveObjectWithinBuckets env (commitMoveArgs job);; mret true)
        (fun err =>
           console "error"
             ("Failed to move media item for job " +:+ id job +:+ " to "
              +:+ getTargetBucket (linked_to_type job) +:+ ": " +:+ err);;
           logSystemEvent env
             (mkLog (VStr ("Failed to move media item for job " +:+ id job
                           +:+ " to " +:+ getTargetBucket (linked_to_type job)
                           +:+ ": " +:+ err)) "error"
                (Some "media_move_failed") (Some (id job)));;
           mret false) st = (Ok true, st1, e1 ++ [])).
    { unfold try_catch. by rewrite (bind_ok _ _ _ _ _ _ Emove). }
    destruct (createMediaItem env (mediaItemOf job result (getTargetKey job)) st1)
      as [[[[]|err] st2] e2] eqn:Ecreate.
    + eexists _, _, _. split; [|reflexivity].
      unfold try_catch at 1. rewrite bind_run.
      rewrite (bind_ok _ _ _ _ _ _ Hmoved). simpl.
      unfold try_catch. rewrite (bind_ok _ _ _ _ _ _ Ecreate). simpl. reflexivity.
    + destruct (handler_returns env
        ("Failed to create media item for job " +:+ id job +:+ ": " +:+ err)
        (mkLog (VStr ("Failed to create media item for job " +:+ id job +:+ ": "
                      +:+ err)) "error" (Some "media_create_failed") (Some (id job)))
        false st2) as (st3 & e3 & E3).
      eexists _, _, _. split; [|reflexivity].
      unfold try_catch at 1. rewrite bind_run.
      rewrite (bind_ok _ _ _ _ _ _ Hmoved). simpl.
      unfold try_catch. rewrite (bind_throw _ _ _ _ _ _ Ecreate). rewrite E3.
      simpl. reflexivity.
  - (* the move threw *)
    destruct (handler_returns env
      ("Failed to move media item for job " +:+ id job +:+ " to "
       +:+ getTargetBucket (linked_to_type job) +:+ ": " +:+ err)
      (mkLog (VStr ("Failed to move media item for job " +:+ id job +:+ " to "
                    +:+ getTargetBucket (linked_to_type job) +:+ ": " +:+ err))
         "error" (Some "media_move_failed") (Some (id job)))
      false st1) as (st2 & e2 & E2).
    destruct (move_then_handler_no_record env _ _ _ _ _ _ _ _ _ Emove E2)
      as [Hnc Hmedia].
    assert (Hmoved :
      try_catch (moveObjectWithinBuckets env (commitMoveArgs job);; mret true)
        (fun err =>
           console "error"
             ("Failed to move media item for job " +:+ id job +:+ " to "
              +:+ getTargetBucket (linked_to_type job) +:+ ": " +:+ err);;
           logSystemEvent env
             (mkLog (VStr ("Failed to move media item for job " +:+ id job
                           +:+ " to " +:+ getTargetBucket (linked_to_type job)
                           +:+ ": " +:+ err)) "error"
                (Some "media_move_failed") (Some (id job)));;
           mret false) st = (Ok false, st2, e1 ++ e2)).
    { unfold try_catch. by rewrite (bind_throw _ _ _ _ _ _ Emove), E2. }
    exists completed, st2, (((e1 ++ e2) ++ []) ++ []).
    split; [|split; [reflexivity|split; [|exact Hmedia]]].
    + unfold try_catch at 1. rewrite bind_run.
      rewrite (bind_ok _ _ _ _ _ _ Hmoved). simpl. reflexivity.
    + intros m. rewrite !app_nil_r. apply Hnc.
Qed.

(** ** Jobs without a valid verdict *)

Global Instance not_marked_permissive target :
  Permissive (not_marked target) (same_rows_of target).
Proof.
  split; unfold same_rows_of; try done.
  intros; congruence.
Qed.

Global Instance not_marked_reconciling target :
  Reconciling (not_marked target) (same_rows_of target).
Proof. split; done. Qed.

Lemma rows_of_set_complete target ids d :
  ~ In target ids -> rows_of target (set_complete ids d) = rows_of target d.
Proof.
  intros Hni. unfold rows_of, set_complete. simpl.
  induction (media_jobs d) as [|r rows IH]; [done|]. simpl.
  assert (Hid : id (row_job (complete_row ids r)) = id (row_job r)).
  { unfold complete_row. by destruct (bool_decide _). }
  destruct (decide (id (row_job r) = target)) as [Heq|Hne].
  - rewrite !filter_cons_True by congruence. f_equal; [|exact IH].
    unfold complete_row. rewrite bool_decide_eq_false_2; [done|].
    rewrite Heq. by rewrite list_elem_of_In.
  - rewrite !filter_cons_False by congruence. exact IH.
Qed.

(** C2, as the code has it. A job whose indexed verdict is absent or has
    an [is_nsfw] that is not a boolean is skipped: its iteration makes one
    call, the [scan_result_missing] audit event, leaves the job out of the
    completed list and changes no table but the audit log; and over the
    whole scan the job's rows of [media_jobs] keep their status and no
    completion is marked for its id. *)
Theorem invalid_verdict_skipped env jobs type job :
  (forall rb completed st,
     validVerdict (rb !! id job) = None ->
     exists st' evs,
       loopBody env rb type job completed st = (Ok completed, st', evs) /\
       calls evs = [CLogSystemEvent (missingResultEvent job)] /\
       media (db st') = media (db st) /\
       media_jobs (db st') = media_jobs (db st) /\
       blocked_hashes (db st') = blocked_hashes (db st) /\
       users_bans (db st') = users_bans (db st)) /\
  (forall st r st' evs results st1 evs1,
     scanMediaJobs env jobs type st = (r, st', evs) ->
     fetchResults env jobs type st = (Ok results, st1, evs1) ->
     In job jobs ->
     validVerdict (verdictOf results job) = None ->
     rows_of (id job) (db st') = rows_of (id job) (db st) /\
     forall js, In (ECall (CMarkJobsAsComplete js)) evs -> ~ In (id job) (map id js)).
Proof.
  split.
  - intros rb completed st Hv. unfold loopBody. rewrite Hv.
    cbv [mbind M_bind bind console emit logSystemEvent supabase next_op modify
         mret M_ret ret].
    fold (missingResultEvent job).
    destruct (supabase_error env (tick st)); eexists _, _; (split; [reflexivity|]);
      simpl; auto.
  - intros st r st' evs results st1 evs1 Hrun Hfetch Hin Hv.
    set (G := guarded (not_marked (id job)) (same_rows_of (id job))).
    assert (HG : G st st' evs).
    { unfold scanMediaJobs in Hrun.
      destruct (negb (existsb (String.eqb type) ["images"; "videos"])).
      { revert Hrun. apply (respects_bind G); [apply logSystemEvent_guarded; tc_solve|].
        intros ?. apply (respects_throw G). }
      rewrite (bind_ok _ _ _ _ _ _ Hfetch) in Hrun.
      assert (Hf : G st st1 evs1).
      { eapply (fetchResults_guarded env _ _ jobs type); [done|exact Hfetch]. }
      unfold verdictOf in Hv. unfold indexResults in Hrun.
      destruct (entries results) as [l|] eqn:El.
      2:{ rewrite bind_run in Hrun. simpl in Hrun. inversion Hrun; subst.
          by rewrite app_nil_r. }
      rewrite bind_run in Hrun. cbn [mret M_ret ret] in Hrun.
      destruct (reconcileJobs_returns env (fromEntries l) type jobs [] st1)
        as (c' & st2 & e2 & E2 & Hc').
      rewrite (bind_ok _ _ _ _ _ _ E2) in Hrun.
      destruct (finishBatch env c' st2) as [[r3 st3] e3] eqn:E3.
      inversion Hrun; subst. clear Hrun.
      assert (Hnotin : ~ In (id job) (map id c')).
      { intros Hi. apply in_map_iff in Hi as (j & Hid & Hj).
        destruct (Hc' j Hj) as [[]|[_ Hs]].
        rewrite Hid, Hv in Hs. by destruct Hs. }
      eapply (comp_trans (P:=G)); [exact Hf|].
      simpl. eapply (comp_trans (P:=G)).
      - eapply (reconcileJobs_guarded env _ _ _ type jobs []); [|exact E2].
        intros j Hj r0 Hr0 Hsafe. split; [done|]. intros; done.
      - eapply (finishBatch_guarded env _ _ c'); [| |exact E3].
        + intros js Hjs. inversion Hjs; subst. exact Hnotin.
        + intros s. unfold same_rows_of. simpl.
          by apply rows_of_set_complete. }
    destruct HG as [Hc Hr]. split; [exact Hr|].
    intros js Hjs. by apply (Hc _ Hjs).
Qed.

(** ** Bounded retry and whole-batch failure *)

Global Instance scan_only_permissive : Permissive scan_only only_logs.
Proof.
  split; unfold only_logs; try done.
  intros st1 st2 st3 (?&?&?&?) (?&?&?&?). repeat split; congruence.
Qed.

Lemma withRetryLoop_failed_attempt env fuel attempt p st :
  bad_reply (modal_remote env (tick st)) = true ->
  withRetryLoop env (S fuel) attempt p st
  = if (MAX_RETRIES <=? S attempt)%nat
    then (Throw (attempt_error (modal_remote env (tick st))), bump st,
          failed_attempt_events p (modal_remote env (tick st)) attempt)
    else match withRetryLoop env fuel (S attempt) p (bump st) with
         | (r, st2, e2) =>
             (r, st2,
              failed_attempt_events p (modal_remote env (tick st)) attempt
              ++ ESleep RETRY_DELAY_MS :: e2)
         end.
Proof.
  intros Hbad. cbn [withRetryLoop]. unfold failed_attempt_events, bump.
  destruct (MAX_RETRIES <=? S attempt)%nat;
    destruct (modal_remote env (tick st)) as [e|[| |rs]] eqn:Er; try discriminate;
    cbv [try_catch mbind M_bind bind remote next_op emit console sleep throw
         mret M_ret ret]; rewrite Er; try reflexivity;
    destruct (withRetryLoop env fuel (S attempt) p _) as [[r st2] e2];
    reflexivity.
Qed.

Lemma withRetryLoop_good_attempt env fuel attempt p st rs :
  modal_remote env (tick st) = RemoteReturns (ResResults rs) ->
  withRetryLoop env (S fuel) attempt p st
  = (Ok rs, bump st, [ERemote p (RemoteReturns (ResResults rs))]).
Proof.
  intros Hgood. cbn [withRetryLoop].
  cbv [try_catch mbind M_bind bind remote next_op emit console sleep throw
       mret M_ret ret].
  rewrite Hgood. reflexivity.
Qed.

(** The iteration bound of [withRetryLoop] is never what stops it: any
    two bounds that cover the attempts left give the same run. *)
Lemma withRetryLoop_fuel env p fuel1 :
  forall fuel2 attempt st,
    (MAX_RETRIES - attempt <= fuel1)%nat ->
    (MAX_RETRIES - attempt <= fuel2)%nat ->
    (attempt < MAX_RETRIES)%nat ->
    withRetryLoop env fuel1 attempt p st = withRetryLoop env fuel2 attempt p st.
Proof.
  induction fuel1 as [|fuel1 IH]; intros fuel2 attempt st H1 H2 Hlt; [lia|].
  destruct fuel2 as [|fuel2]; [lia|].
  cbn [withRetryLoop]. unfold try_catch.
  match goal with |- context [match ?m st with _ => _ end] =>
    destruct (m st) as [[[a|e] st1] e1]
  end; [reflexivity|].
  rewrite !bind_run. unfold console, emit.
  destruct (MAX_RETRIES <=? S attempt)%nat eqn:E; [reflexivity|].
  apply Nat.leb_gt in E.
  rewrite !bind_run. unfold sleep, emit.
  rewrite (IH fuel2 (S attempt)); [reflexivity|lia|lia|lia].
Qed.

Lemma failed_attempt_events_counts p reply attempt evs :
  remote_attempts (failed_attempt_events p reply attempt ++ evs)
  = S (remote_attempts evs) /\
  sleeps (failed_attempt_events p reply attempt ++ evs) = sleeps evs /\
  calls (failed_attempt_events p reply attempt ++ evs) = calls evs.
Proof. destruct reply as [e|res]; repeat split. Qed.

(** After [k] failed attempts a good reply is returned. *)
Lemma withRetryLoop_succeeds env p rs k :
  forall fuel attempt st,
    (attempt + k < MAX_RETRIES)%nat -> (k < fuel)%nat ->
    (forall i, (i < k)%nat -> bad_reply (modal_remote env (tick st + i)) = true) ->
    modal_remote env (tick st + k) = RemoteReturns (ResResults rs) ->
    exists st1 evs1,
      withRetryLoop env fuel attempt p st = (Ok rs, st1, evs1) /\
      remote_attempts evs1 = S k /\
      sleeps evs1 = repeat RETRY_DELAY_MS k /\
      calls evs1 = [].
Proof.
  induction k as [|k IH]; intros fuel attempt st Hlt Hfuel Hbad Hgood.
  - destruct fuel as [|fuel]; [lia|]. rewrite Nat.add_0_r in Hgood.
    rewrite (withRetryLoop_good_attempt _ _ _ _ _ _ Hgood).
    eexists _, _. split; [reflexivity|]. by repeat split.
  - destruct fuel as [|fuel]; [lia|].
    rewrite withRetryLoop_failed_attempt.
    2:{ specialize (Hbad 0%nat). rewrite Nat.add_0_r in Hbad. apply Hbad. lia. }
    destruct (MAX_RETRIES <=? S attempt)%nat eqn:E; [apply Nat.leb_le in E; lia|].
    destruct (IH fuel (S attempt) (bump st)) as (st1 & evs1 & E1 & Ha & Hs & Hc).
    + lia.
    + lia.
    + intros i Hi. simpl. replace (S (tick st + i)) with (tick st + S i)%nat by lia.
      apply Hbad. lia.
    + simpl. replace (S (tick st + k)) with (tick st + S k)%nat by lia. exact Hgood.
    + rewrite E1. eexists _, _. split; [reflexivity|].
      destruct (failed_attempt_events_counts p (modal_remote env (tick st)) attempt
                  (ESleep RETRY_DELAY_MS :: evs1)) as (Ha' & Hs' & Hc').
      rewrite Ha', Hs', Hc'.
      change (remote_attempts (ESleep RETRY_DELAY_MS :: evs1))
        with (remote_attempts evs1).
      change (sleeps (ESleep RETRY_DELAY_MS :: evs1))
        with (RETRY_DELAY_MS :: sleeps evs1).
      change (calls (ESleep RETRY_DELAY_MS :: evs1)) with (calls evs1).
      by rewrite Ha, Hs, Hc.
Qed.

(** When every remaining attempt fails, the loop throws the error of the
    last one. *)
Lemma withRetryLoop_exhausts env p k :
  forall fuel attempt st,
    (attempt + S k = MAX_RETRIES)%nat -> (k < fuel)%nat ->
    (forall i, (i <= k)%nat -> bad_reply (modal_remote env (tick st + i)) = true) ->
    exists st1 evs1,
      withRetryLoop env fuel attempt p st
      = (Throw (attempt_error (modal_remote env (tick st + k))), st1, evs1) /\
      remote_attempts evs1 = S k /\
      sleeps evs1 = repeat RETRY_DELAY_MS k /\
      calls evs1 = [] /\
      only_logs st st1.
Proof.
  induction k as [|k IH]; intros fuel attempt st Hlt Hfuel Hbad.
  - destruct fuel as [|fuel]; [lia|].
    rewrite withRetryLoop_failed_attempt.
    2:{ specialize (Hbad 0%nat). rewrite Nat.add_0_r in Hbad. apply Hbad. lia. }
    destruct (MAX_RETRIES <=? S attempt)%nat eqn:E; [|apply Nat.leb_gt in E; lia].
    rewrite Nat.add_0_r. eexists _, _. split; [reflexivity|].
    destruct (failed_attempt_events_counts p (modal_remote env (tick st)) attempt [])
      as (Ha' & Hs' & Hc').
    rewrite app_nil_r in Ha', Hs', Hc'. rewrite Ha', Hs', Hc'. done.
  - destruct fuel as [|fuel]; [lia|].
    rewrite withRetryLoop_failed_attempt.
    2:{ specialize (Hbad 0%nat). rewrite Nat.add_0_r in Hbad. apply Hbad. lia. }
    destruct (MAX_RETRIES <=? S attempt)%nat eqn:E; [apply Nat.leb_le in E; lia|].
    destruct (IH fuel (S attempt) (bump st)) as (st1 & evs1 & E1 & Ha & Hs & Hc & Hl).
    + lia.
    + lia.
    + intros i Hi. simpl. replace (S (tick st + i)) with (tick st + S i)%nat by lia.
      apply Hbad. lia.
    + rewrite E1. simpl tick.
      replace (S (tick st) + k)%nat with (tick st + S k)%nat by lia.
      eexists _, _. split; [reflexivity|].
      destruct (failed_attempt_events_counts p (modal_remote env (tick st)) attempt
                  (ESleep RETRY_DELAY_MS :: evs1)) as (Ha' & Hs' & Hc').
      rewrite Ha', Hs', Hc'.
      change (remote_attempts (ESleep RETRY_DELAY_MS :: evs1))
        with (remote_attempts evs1).
      change (sleeps (ESleep RETRY_DELAY_MS :: evs1))
        with (RETRY_DELAY_MS :: sleeps evs1).
      change (calls (ESleep RETRY_DELAY_MS :: evs1)) with (calls evs1).
      rewrite Ha, Hs, Hc. repeat split; try done; apply Hl.
Qed.

Lemma calls_In c evs : In c (calls evs) <-> In (ECall c) evs.
Proof.
  unfold calls. rewrite <- !list_elem_of_In, list_elem_of_omap. split.
  - intros (e & He & Hc). destruct e; try discriminate. by inversion Hc; subst.
  - intros He. by exists (ECall c).
Qed.

Lemma calls_app e1 e2 : calls (e1 ++ e2) = calls e1 ++ calls e2.
Proof. apply omap_app. Qed.

Lemma sleeps_app e1 e2 : sleeps (e1 ++ e2) = sleeps e1 ++ sleeps e2.
Proof. apply omap_app. Qed.

Lemma remote_attempts_app e1 e2 :
  remote_attempts (e1 ++ e2) = (remote_attempts e1 + remote_attempts e2)%nat.
Proof. unfold remote_attempts. by rewrite omap_app, length_app. Qed.

Lemma logSystemEvent_run env l st :
  exists st' evs,
    logSystemEvent env l st = (Ok tt, st', evs) /\
    calls evs = [CLogSystemEvent l] /\ sleeps evs = [] /\
    remote_attempts evs = 0%nat /\ only_logs st st'.
Proof.
  cbv [logSystemEvent supabase mbind M_bind bind console emit next_op modify
       mret M_ret ret].
  destruct (supabase_error env (tick st)); eexists _, _;
    (split; [reflexivity|]); by repeat split.
Qed.

(** C4, as the code has it. For a scan of a recognized class: a failure of
    the backend invocation fails the scan as a whole, with no call but
    audit events, no completion and no change to any table other than the
    audit log, so every job of the batch keeps its status. When the batch
    goes to the bulk remote backend (videos, or more than 16 images), the
    invocation is tried at most [MAX_RETRIES] = 3 times, a failed attempt
    being a thrown error or a response without a result array, with
    [RETRY_DELAY_MS] slept between attempts: the first good reply is
    returned, and three failed attempts fail the scan with the last error
    and exactly one call, the [failed_scan] audit event. *)
Theorem remote_backend_bounded_retry env jobs type st :
  existsb (String.eqb type) ["images"; "videos"] = true ->
  (forall err st1 evs1,
     fetchResults env jobs type st = (Throw err, st1, evs1) ->
     scanMediaJobs env jobs type st = (Throw err, st1, evs1) /\
     (forall c, In c (calls evs1) -> scan_only c) /\
     only_logs st st1) /\
  (String.eqb type "images" && (length jobs <=? 16)%nat = false ->
   (forall k rs,
      (k < MAX_RETRIES)%nat ->
      (forall i, (i < k)%nat -> bad_reply (modal_remote env (tick st + i)) = true) ->
      modal_remote env (tick st + k) = RemoteReturns (ResResults rs) ->
      exists st1 evs1,
        fetchResults env jobs type st = (Ok rs, st1, evs1) /\
        remote_attempts evs1 = S k /\
        sleeps evs1 = repeat RETRY_DELAY_MS k) /\
   ((forall i, (i < MAX_RETRIES)%nat ->
               bad_reply (modal_remote env (tick st + i)) = true) ->
    exists st1 evs1,
      scanMediaJobs env jobs type st
      = (Throw (attempt_error (modal_remote env (tick st + 2))), st1, evs1) /\
      remote_attempts evs1 = MAX_RETRIES /\
      sleeps evs1 = [RETRY_DELAY_MS; RETRY_DELAY_MS] /\
      calls evs1
      = [CLogSystemEvent
           (failedScanEvent (attempt_error (modal_remote env (tick st + 2))))] /\
      only_logs st st1)).
Proof.
  intros Hvalid. split.
  - intros err st1 evs1 Hf. split.
    + unfold scanMediaJobs. rewrite Hvalid. cbn [negb].
      by rewrite (bind_throw _ _ _ _ _ _ Hf).
    + destruct (fetchResults_guarded env scan_only only_logs jobs type I
                  _ _ _ _ Hf) as [Hc Hr].
      split; [|exact Hr]. intros c Hin. apply Hc. by apply calls_In.
  - intros Hremote. split.
    + intros k rs Hk Hbad Hgood. unfold fetchResults. rewrite Hremote.
      destruct (withRetryLoop_succeeds env (prepareJobs jobs type) rs k
                  MAX_RETRIES 0%nat st) as (st1 & evs1 & E1 & Ha & Hs & _);
        try done.
      exists st1, evs1. split; [|done].
      unfold withRetry. by rewrite (try_catch_ok _ _ _ _ _ _ E1).
    + intros Hbad.
      destruct (withRetryLoop_exhausts env (prepareJobs jobs type) 2
                  MAX_RETRIES 0%nat st) as (st1 & evs1 & E1 & Ha & Hs & Hc & Hl).
      { reflexivity. } { unfold MAX_RETRIES. lia. }
      { intros i Hi. apply Hbad. unfold MAX_RETRIES. lia. }
      set (err := attempt_error (modal_remote env (tick st + 2))) in *.
      destruct (logSystemEvent_run env (failedScanEvent err) st1)
        as (st2 & evs2 & E2 & Hc2 & Hs2 & Ha2 & Hl2).
      exists st2, (evs1 ++ [EConsole "error"
                      ("Failed to scan media via modal scan engine: " +:+ err)]
                   ++ evs2 ++ []).
      split; [|split; [|split; [|split]]].
      * unfold scanMediaJobs. rewrite Hvalid. cbn [negb].
        unfold fetchResults. rewrite Hremote. unfold withRetry.
        erewrite bind_throw; [reflexivity|].
        rewrite (try_catch_throw _ _ _ _ _ _ E1).
        fold (failedScanEvent err).
        rewrite (bind_ok _ _ _ tt st1
                   [EConsole "error"
                      ("Failed to scan media via modal scan engine: " +:+ err)])
          by reflexivity.
        rewrite (bind_ok _ _ _ _ _ _ E2). reflexivity.
      * rewrite !remote_attempts_app, Ha, Ha2. reflexivity.
      * rewrite !sleeps_app, Hs, Hs2. reflexivity.
      * rewrite !calls_app, Hc, Hc2. reflexivity.
      * destruct Hl as (?&?&?&?), Hl2 as (?&?&?&?).
        unfold only_logs. repeat split; congruence.
Qed.

(** ** Single flight per media class *)

Global Instance keeps_single_flight_compositional :
  Compositional keeps_single_flight.
Proof. split; unfold keeps_single_flight; auto. Qed.

Lemma maybeFlushImages_run st :
  maybeFlushImages st
  = if imageScanning (qs st) || (length (imageQueue (qs st)) =? 0)%nat
    then (Ok tt, st, [])
    else (Ok tt,
          set_qs (fun q =>
                    set_inFlight
                      (inFlight q ++ [("images", take IMAGE_BATCH_SIZE (imageQueue q))])
                      (set_imageScanning true
                         (set_imageQueue (drop IMAGE_BATCH_SIZE (imageQueue q)) q)))
                 st,
          [ECall (CScanMediaJobs (take IMAGE_BATCH_SIZE (imageQueue (qs st)))
                    "images")]).
Proof.
  unfold maybeFlushImages. rewrite bind_run. cbn [get].
  destruct (imageScanning (qs st)); [reflexivity|].
  destruct (imageQueue (qs st)) as [|j rest] eqn:Eq; [reflexivity|].
  cbn [length orb Nat.eqb].
  cbv [mbind M_bind bind modify startScan emit get mret M_ret ret].
  unfold IMAGE_BATCH_SIZE, set_qs. simpl. rewrite Eq. reflexivity.
Qed.

Lemma maybeFlushVideos_run st :
  maybeFlushVideos st
  = if videoScanning (qs st) || (length (videoQueue (qs st)) =? 0)%nat
    then (Ok tt, st, [])
    else (Ok tt,
          set_qs (fun q =>
                    set_inFlight
                      (inFlight q ++ [("videos", take VIDEO_BATCH_SIZE (videoQueue q))])
                      (set_videoScanning true
                         (set_videoQueue (drop VIDEO_BATCH_SIZE (videoQueue q)) q)))
                 st,
          [ECall (CScanMediaJobs (take VIDEO_BATCH_SIZE (videoQueue (qs st)))
                    "videos")]).
Proof.
  unfold maybeFlushVideos. rewrite bind_run. cbn [get].
  destruct (videoScanning (qs st)); [reflexivity|].
  destruct (videoQueue (qs st)) as [|j rest] eqn:Eq; [reflexivity|].
  cbn [length orb Nat.eqb].
  cbv [mbind M_bind bind modify startScan emit get mret M_ret ret].
  unfold VIDEO_BATCH_SIZE, set_qs. simpl. rewrite Eq. reflexivity.
Qed.

Lemma inflight_count_snoc type q p :
  inflight_count type (set_inFlight (inFlight q ++ [p]) q)
  = (inflight_count type q + (if decide (p.1 = type) then 1 else 0))%nat.
Proof.
  unfold inflight_count. simpl. rewrite filter_app, length_app. f_equal.
  destruct (decide (p.1 = type)).
  - by rewrite filter_cons_True.
  - by rewrite filter_cons_False.
Qed.

Lemma inflight_count_remove type q l1 p l2 :
  inFlight q = l1 ++ p :: l2 ->
  inflight_count type q
  = (inflight_count type (set_inFlight (l1 ++ l2) q)
     + (if decide (p.1 = type) then 1 else 0))%nat.
Proof.
  intros H. unfold inflight_count. simpl. rewrite H.
  rewrite !filter_app, !length_app.
  destruct (decide (p.1 = type)).
  - rewrite filter_cons_True by done. simpl. lia.
  - rewrite filter_cons_False by done. lia.
Qed.

Lemma maybeFlushImages_keeps : respects keeps_single_flight maybeFlushImages.
Proof.
  intros st r st' evs. rewrite maybeFlushImages_run.
  destruct (imageScanning (qs st)) eqn:Es; simpl orb; cbv iota.
  { intros H; inversion H; subst. by intros ?. }
  destruct (length (imageQueue (qs st)) =? 0)%nat.
  { intros H; inversion H; subst. by intros ?. }
  intros H; inversion H; subst. intros [Hi Hv]. rewrite Es in Hi.
  split; simpl qs.
  - unfold inflight_count in *. simpl. rewrite filter_app, length_app, Hi.
    by rewrite filter_cons_True.
  - unfold inflight_count in *. simpl. rewrite filter_app, length_app, Hv.
    rewrite filter_cons_False by done. simpl. lia.
Qed.

Lemma maybeFlushVideos_keeps : respects keeps_single_flight maybeFlushVideos.
Proof.
  intros st r st' evs. rewrite maybeFlushVideos_run.
  destruct (videoScanning (qs st)) eqn:Es; simpl orb; cbv iota.
  { intros H; inversion H; subst. by intros ?. }
  destruct (length (videoQueue (qs st)) =? 0)%nat.
  { intros H; inversion H; subst. by intros ?. }
  intros H; inversion H; subst. intros [Hi Hv]. rewrite Es in Hv.
  split; simpl qs.
  - unfold inflight_count in *. simpl. rewrite filter_app, length_app, Hi.
    rewrite filter_cons_False by done. simpl. lia.
  - unfold inflight_count in *. simpl. rewrite filter_app, length_app, Hv.
    by rewrite filter_cons_True.
Qed.

Section SingleFlight.
Context (env : Env).
Abbreviation K := keeps_single_flight.

Local Ltac leaf :=
  first [ assumption
        | apply maybeFlushImages_keeps
        | apply maybeFlushVideos_keeps
        | apply (respects_modify K); intros ? H; exact H
        | apply (respects_emit K); intros ? H; exact H
        | apply (respects_next_op K); intros ? H; exact H ].
Local Ltac go := repeat first [ solve [ leaf ] | respects_step ].

Lemma Date_now_keeps : respects K (Date_now env).
Proof. unfold Date_now. go. Qed.

Lemma scheduleFlush_keeps isVideo : respects K (scheduleFlush env isVideo).
Proof. unfold scheduleFlush. go; apply Date_now_keeps. Qed.

Lemma starts_with_keeps s p : respects K (starts_with s p).
Proof. unfold starts_with. go. Qed.

Lemma queueMediaJob_keeps job : respects K (queueMediaJob env job).
Proof.
  unfold queueMediaJob.
  go; first [ apply starts_with_keeps | apply scheduleFlush_keeps ].
Qed.

Lemma supabase_keeps q f : respects K (supabase env q f).
Proof. unfold supabase. go. Qed.

Lemma logSystemEvent_keeps l : respects K (logSystemEvent env l).
Proof. unfold logSystemEvent. go. apply supabase_keeps. Qed.

Lemma generateSignedGetUrl_keeps k : respects K (generateSignedGetUrl env k).
Proof. unfold generateSignedGetUrl. go. Qed.

Lemma recoverJob_keeps job : respects K (recoverJob env job).
Proof.
  unfold recoverJob, detached.
  go; first [ apply generateSignedGetUrl_keeps | apply queueMediaJob_keeps
            | apply logSystemEvent_keeps ].
Qed.

Lemma recoverJobs_keeps jobs : respects K (recoverJobs env jobs).
Proof.
  induction jobs as [|job rest IH]; simpl.
  - go.
  - respects_step; [apply recoverJob_keeps|exact IH].
Qed.

Lemma recovery_keeps : respects K (recovery env).
Proof.
  unfold recovery, getPendingMediaJobs.
  go; first [ apply supabase_keeps | apply recoverJobs_keeps
            | apply scheduleFlush_keeps ].
Qed.

Lemma step_keeps st st' :
  step env st st' -> single_flight (qs st) -> single_flight (qs st').
Proof.
  intros Hstep Hinv. destruct Hstep as
    [job st r st' evs H | st d r st' evs Ht H | st d r st' evs Ht H
    | st l1 batch l2 r st' evs Hf H | st l1 batch l2 r st' evs Hf H
    | st r st' evs H | st st' H].
  - by eapply queueMediaJob_keeps.
  - change (single_flight (qs (set_qs (set_imageTimer None) st))) in Hinv.
    revert H Hinv. unfold imageTimerCallback.
    apply (respects_bind K); [leaf|intros ?; leaf].
  - change (single_flight (qs (set_qs (set_videoTimer None) st))) in Hinv.
    revert H Hinv. unfold videoTimerCallback.
    apply (respects_bind K); [leaf|intros ?; leaf].
  - unfold imageScanSettled in H. rewrite bind_run in H. cbn [modify] in H.
    match type of H with
    | match ?m ?s with _ => _ end = _ => destruct (m s) as [[r2 st2] e2] eqn:E2
    end.
    inversion H; subst. clear H.
    assert (Hmid : single_flight
                     (qs (set_qs (set_imageScanning false)
                            (set_qs (set_inFlight (l1 ++ l2)) st)))).
    { destruct Hinv as [Hi Hv].
      rewrite (inflight_count_remove "images" _ _ _ _ Hf) in Hi.
      rewrite (inflight_count_remove "videos" _ _ _ _ Hf) in Hv.
      simpl in Hi, Hv. split; simpl.
      - destruct (imageScanning (qs st)); simpl in Hi; [|lia].
        unfold inflight_count in *. simpl in *. lia.
      - unfold inflight_count in *. simpl in *. rewrite Nat.add_0_r in Hv.
        exact Hv. }
    revert E2 Hmid. apply (respects_bind K); [apply (respects_get K)|].
    intros s. cbv beta. go. apply scheduleFlush_keeps.
  - unfold videoScanSettled in H. rewrite bind_run in H. cbn [modify] in H.
    match type of H with
    | match ?m ?s with _ => _ end = _ => destruct (m s) as [[r2 st2] e2] eqn:E2
    end.
    inversion H; subst. clear H.
    assert (Hmid : single_flight
                     (qs (set_qs (set_videoScanning false)
                            (set_qs (set_inFlight (l1 ++ l2)) st)))).
    { destruct Hinv as [Hi Hv].
      rewrite (inflight_count_remove "images" _ _ _ _ Hf) in Hi.
      rewrite (inflight_count_remove "videos" _ _ _ _ Hf) in Hv.
      simpl in Hi, Hv. split; simpl.
      - unfold inflight_count in *. simpl in *. rewrite Nat.add_0_r in Hi.
        exact Hi.
      - destruct (videoScanning (qs st)); simpl in Hv; [|lia].
        unfold inflight_count in *. simpl in *. lia. }
    revert E2 Hmid. apply (respects_bind K); [apply (respects_get K)|].
    intros s. cbv beta. go. apply scheduleFlush_keeps.
  - by eapply recovery_keeps.
  - by rewrite H.
Qed.

End SingleFlight.

(** Evaluates the queue operations on a state given field by field. *)
Ltac queue_cbn H :=
  cbv [mbind M_bind bind next_op get modify emit mret M_ret ret throw try_catch
       console] in H;
  cbn [qs set_qs tick db
       imageQueue videoQueue imageScanning videoScanning imageTimer videoTimer
       firstImageTime firstVideoTime inFlight
       set_imageQueue set_videoQueue set_imageScanning set_videoScanning
       set_imageTimer set_videoTimer set_firstImageTime set_firstVideoTime
       set_inFlight orb negb length Nat.eqb Nat.ltb Nat.leb app] in H.

Lemma scheduleFlush_images_schedules env st r st' evs :
  scheduleFlush env false st = (r, st', evs) ->
  imageScanning (qs st) = false ->
  imageQueue (qs st) <> [] ->
  r = Ok tt /\
  (is_Some (imageTimer (qs st')) \/
   imageScanning (qs st') = true /\
   inflight_count "images" (qs st') = S (inflight_count "images" (qs st))).
Proof.
  destruct st as [t d [iq vq isc vsc it vt fit fvt inf]].
  cbn [qs imageScanning imageQueue]. intros H -> Hq.
  destruct iq as [|j rest]; [done|].
  unfold scheduleFlush, Date_now, maybeFlushImages, startScan in H.
  queue_cbn H.
  destruct (unset_time fit); queue_cbn H;
    match type of H with
    | context [if ?c then _ else _] => destruct c
    end;
    queue_cbn H; inversion H; subst; (split; [reflexivity|]);
    first [ left; simpl; by eexists
          | right; split; [reflexivity|]; unfold inflight_count; simpl;
            rewrite filter_app, length_app, filter_cons_True by done;
            simpl; lia ].
Qed.

Lemma scheduleFlush_videos_schedules env st r st' evs :
  scheduleFlush env true st = (r, st', evs) ->
  videoScanning (qs st) = false ->
  videoQueue (qs st) <> [] ->
  r = Ok tt /\
  (is_Some (videoTimer (qs st')) \/
   videoScanning (qs st') = true /\
   inflight_count "videos" (qs st') = S (inflight_count "videos" (qs st))).
Proof.
  destruct st as [t d [iq vq isc vsc it vt fit fvt inf]].
  cbn [qs videoScanning videoQueue]. intros H -> Hq.
  destruct vq as [|j rest]; [done|].
  unfold scheduleFlush, Date_now, maybeFlushVideos, startScan in H.
  queue_cbn H.
  destruct (unset_time fvt); queue_cbn H;
    match type of H with
    | context [if ?c then _ else _] => destruct c
    end;
    queue_cbn H; inversion H; subst; (split; [reflexivity|]);
    first [ left; simpl; by eexists
          | right; split; [reflexivity|]; unfold inflight_count; simpl;
            rewrite filter_app, length_app, filter_cons_True by done;
            simpl; lia ].
Qed.

Lemma scheduleFlush_new_cycle env isVideo st r st' evs :
  scheduleFlush env isVideo st = (r, st', evs) ->
  (if isVideo then videoScanning (qs st) else imageScanning (qs st)) = false ->
  (if isVideo then videoQueue (qs st) else imageQueue (qs st)) <> [] ->
  r = Ok tt /\ new_flush_cycle isVideo st st' evs.
Proof.
  destruct st as [t d [iq vq isc vsc it vt fit fvt inf]].
  unfold new_flush_cycle. destruct isVideo;
    cbn [qs imageScanning imageQueue videoScanning videoQueue inFlight];
    intros H -> Hq.
  - destruct vq as [|j rest]; [done|].
    unfold scheduleFlush, Date_now, maybeFlushVideos, startScan in H.
    queue_cbn H.
    destruct (unset_time fvt); queue_cbn H;
      match type of H with
      | context [if ?c then _ else _] => destruct c
      end;
      queue_cbn H; inversion H; subst; (split; [reflexivity|]);
      first [ right; simpl; by auto
            | left; eexists; simpl; by auto 10 ].
  - destruct iq as [|j rest]; [done|].
    unfold scheduleFlush, Date_now, maybeFlushImages, startScan in H.
    queue_cbn H.
    destruct (unset_time fit); queue_cbn H;
      match type of H with
      | context [if ?c then _ else _] => destruct c
      end;
      queue_cbn H; inversion H; subst; (split; [reflexivity|]);
      first [ right; simpl; by auto
            | left; eexists; simpl; by auto 10 ].
Qed.

Lemma enqueues_are_steps env jobs st :
  rtc (step env) st
      (fold_left (fun st job => (queueMediaJob env job st).1.2) jobs st).
Proof.
  revert st. induction jobs as [|job rest IH]; intros st; simpl; [apply rtc_refl|].
  eapply rtc_l; [|apply IH].
  eapply (step_enqueue env job st (queueMediaJob env job st).1.1 _
            (queueMediaJob env job st).2).
  by destruct (queueMediaJob env job st) as [[? ?] ?].
Qed.

Lemma steps_keep env st st' :
  rtc (step env) st st' -> single_flight (qs st) -> single_flight (qs st').
Proof.
  induction 1 as [st|st st1 st2 Hstep _ IH]; intros Hinv; [exact Hinv|].
  apply IH. by eapply step_keeps.
Qed.

(** C5. From the state in which the queue module is loaded, whatever
    sequence of events the process goes through, at most one scan of each
    media class is in flight; a flush asked for while the class is
    scanning changes nothing and starts no scan; and when a scan settles
    with jobs left in the queue of its class, the callback schedules a
    new flush cycle in that very run: it arms a timer of the class, with
    the scanning flag down and nothing started or taken from the queue, or
    it starts a scan of the first jobs of the queue, up to the batch size,
    which are then the one more scan in flight. *)
Theorem single_flight_per_class env :
  (forall st st',
     qs st = initialQueue -> rtc (step env) st st' ->
     (inflight_count "images" (qs st') <= 1)%nat /\
     (inflight_count "videos" (qs st') <= 1)%nat) /\
  (forall st, imageScanning (qs st) = true ->
              maybeFlushImages st = (Ok tt, st, [])) /\
  (forall st, videoScanning (qs st) = true ->
              maybeFlushVideos st = (Ok tt, st, [])) /\
  (forall st r st' evs,
     imageScanSettled env st = (r, st', evs) ->
     imageQueue (qs st) <> [] ->
     r = Ok tt /\
     new_flush_cycle false st st' evs /\
     (is_Some (imageTimer (qs st')) \/ imageScanning (qs st') = true)) /\
  (forall st r st' evs,
     videoScanSettled env st = (r, st', evs) ->
     videoQueue (qs st) <> [] ->
     r = Ok tt /\
     new_flush_cycle true st st' evs /\
     (is_Some (videoTimer (qs st')) \/ videoScanning (qs st') = true)).
Proof.
  split; [|split; [|split; [|split]]].
  - intros st st' Hinit Hsteps.
    assert (Hinv : single_flight (qs st')).
    { apply (steps_keep env st st' Hsteps). rewrite Hinit. by split. }
    destruct Hinv as [Hi Hv]. rewrite Hi, Hv.
    destruct (imageScanning (qs st')), (videoScanning (qs st')); lia.
  - intros st Hs. rewrite maybeFlushImages_run, Hs. reflexivity.
  - intros st Hs. rewrite maybeFlushVideos_run, Hs. reflexivity.
  - intros st r st' evs H Hq. unfold imageScanSettled in H.
    rewrite bind_run in H. cbn [modify] in H. rewrite bind_run in H.
    cbn [get qs set_qs imageQueue set_imageScanning] in H.
    destruct (imageQueue (qs st)) as [|j rest] eqn:Eq; [done|].
    cbn [length Nat.ltb Nat.leb] in H.
    destruct (scheduleFlush env false (set_qs (set_imageScanning false) st))
      as [[r2 st2] e2] eqn:E2.
    inversion H; subst.
    destruct (scheduleFlush_new_cycle env false _ _ _ _ E2) as [_ Hcycle];
      [reflexivity|simpl; by rewrite Eq|].
    apply scheduleFlush_images_schedules in E2 as [-> Hsched];
      [|reflexivity|simpl; by rewrite Eq].
    split; [reflexivity|]. split; [|destruct Hsched as [?|[? _]]; auto].
    destruct st as [t d q]. destruct q. exact Hcycle.
  - intros st r st' evs H Hq. unfold videoScanSettled in H.
    rewrite bind_run in H. cbn [modify] in H. rewrite bind_run in H.
    cbn [get qs set_qs videoQueue set_videoScanning] in H.
    destruct (videoQueue (qs st)) as [|j rest] eqn:Eq; [done|].
    cbn [length Nat.ltb Nat.leb] in H.
    destruct (scheduleFlush env true (set_qs (set_videoScanning false) st))
      as [[r2 st2] e2] eqn:E2.
    inversion H; subst.
    destruct (scheduleFlush_new_cycle env true _ _ _ _ E2) as [_ Hcycle];
      [reflexivity|simpl; by rewrite Eq|].
    apply scheduleFlush_videos_schedules in E2 as [-> Hsched];
      [|reflexivity|simpl; by rewrite Eq].
    split; [reflexivity|]. split; [|destruct Hsched as [?|[? _]]; auto].
    destruct st as [t d q]. destruct q. exact Hcycle.
Qed.

(** ** Enqueue *)

Lemma queueMediaJob_video env job st mime :
  mime_type job = VStr mime -> String.prefix "video" mime = true ->
  exists st' evs batch,
    queueMediaJob env job st = (Ok tt, st', evs) /\
    imageQueue (qs st') = imageQueue (qs st) /\
    videoQueue (qs st) ++ [job] = batch ++ videoQueue (qs st') /\
    inFlight (qs st')
    = inFlight (qs st) ++ match batch with [] => [] | _ => [("videos", batch)] end.
Proof.
  intros Hm Hp.
  destruct st as [t d [iq vq isc vsc it vt fit fvt inf]].
  unfold queueMediaJob, starts_with. rewrite Hm.
  rewrite (bind_ok _ _ _ tt _ [ECall (CQueueMediaJob job)]) by reflexivity.
  rewrite bind_run. cbn [mret M_ret ret]. rewrite Hp.
  unfold scheduleFlush, Date_now, maybeFlushVideos, startScan.
  cbv [mbind M_bind bind next_op get modify emit mret M_ret ret throw try_catch
       console].
  destruct vq as [|j vq'], vsc; simpl;
  destruct (unset_time fvt); simpl;
    try match goal with
    | |- context [if ?c then _ else _] => destruct c
    end; simpl;
  first [ by (eexists _, _, []; repeat split; rewrite ?app_nil_r)
        | match goal with
          | |- context [CScanMediaJobs ?b "videos"] =>
              eexists _, _, b; split; [reflexivity|]; simpl;
              repeat split; try reflexivity
          end ];
  by rewrite take_drop.
Qed.

Lemma queueMediaJob_image env job st mime :
  mime_type job = VStr mime -> String.prefix "video" mime = false ->
  exists st' evs batch,
    queueMediaJob env job st = (Ok tt, st', evs) /\
    videoQueue (qs st') = videoQueue (qs st) /\
    imageQueue (qs st) ++ [job] = batch ++ imageQueue (qs st') /\
    inFlight (qs st')
    = inFlight (qs st) ++ match batch with [] => [] | _ => [("images", batch)] end.
Proof.
  intros Hm Hp.
  destruct st as [t d [iq vq isc vsc it vt fit fvt inf]].
  unfold queueMediaJob, starts_with. rewrite Hm.
  rewrite (bind_ok _ _ _ tt _ [ECall (CQueueMediaJob job)]) by reflexivity.
  rewrite bind_run. cbn [mret M_ret ret]. rewrite Hp.
  unfold scheduleFlush, Date_now, maybeFlushImages, startScan.
  cbv [mbind M_bind bind next_op get modify emit mret M_ret ret throw try_catch
       console].
  destruct iq as [|j iq'], isc; simpl;
  destruct (unset_time fit); simpl;
    try match goal with
    | |- context [if ?c then _ else _] => destruct c
    end; simpl;
  first [ by (eexists _, _, []; repeat split; rewrite ?app_nil_r)
        | match goal with
          | |- context [CScanMediaJobs ?b "images"] =>
              eexists _, _, b; split; [reflexivity|]; simpl;
              repeat split; try reflexivity
          end ];
  by rewrite take_drop.
Qed.

Lemma queueMediaJob_outcome env job st mime :
  mime_type job = VStr mime ->
  exists st' evs,
    queueMediaJob env job st = (Ok tt, st', evs) /\
    enqueue_outcome env (String.prefix "video" mime) job st st'.
Proof.
  intros Hm.
  destruct st as [t d [iq vq isc vsc it vt fit fvt inf]].
  unfold queueMediaJob, starts_with. rewrite Hm.
  rewrite (bind_ok _ _ _ tt _ [ECall (CQueueMediaJob job)]) by reflexivity.
  rewrite bind_run. cbn [mret M_ret ret].
  unfold enqueue_outcome, flushes, flush_due.
  assert (forall q : list Job, (length (q ++ [job]) =? 0)%nat = false) as Hl.
  { intros q. rewrite length_app. apply Nat.eqb_neq. simpl. lia. }
  destruct (String.prefix "video" mime).
  - unfold scheduleFlush, Date_now.
    cbv [mbind M_bind bind next_op get modify emit mret M_ret ret].
    cbn [qs set_qs tick db videoQueue firstVideoTime videoScanning inFlight
         set_videoQueue set_firstVideoTime set_videoTimer].
    destruct (unset_time fvt);
      cbn [qs set_qs tick db videoQueue firstVideoTime videoScanning inFlight
           set_videoQueue set_firstVideoTime set_videoTimer time_value];
      destruct (_ || _) eqn:Ed; cbn [andb];
      try (eexists _, _; split; [reflexivity|]; by split);
      rewrite maybeFlushVideos_run;
      cbn [qs set_qs tick db videoQueue firstVideoTime videoScanning inFlight
           set_videoQueue set_firstVideoTime set_videoTimer];
      rewrite Hl; destruct vsc; cbn [orb negb];
      eexists _, _; (split; [reflexivity|]); by split.
  - unfold scheduleFlush, Date_now.
    cbv [mbind M_bind bind next_op get modify emit mret M_ret ret].
    cbn [qs set_qs tick db imageQueue firstImageTime imageScanning inFlight
         set_imageQueue set_firstImageTime set_imageTimer].
    destruct (unset_time fit);
      cbn [qs set_qs tick db imageQueue firstImageTime imageScanning inFlight
           set_imageQueue set_firstImageTime set_imageTimer time_value];
      destruct (_ || _) eqn:Ed; cbn [andb];
      try (eexists _, _; split; [reflexivity|]; by split);
      rewrite maybeFlushImages_run;
      cbn [qs set_qs tick db imageQueue firstImageTime imageScanning inFlight
           set_imageQueue set_firstImageTime set_imageTimer];
      rewrite Hl; destruct isc; cbn [orb negb];
      eexists _, _; (split; [reflexivity|]); by split.
Qed.

(** C10, as the code has it. For a job whose MIME type is a string,
    [queueMediaJob] returns normally; the job goes to the video queue
    exactly when the MIME type starts with [video], and to the image queue
    otherwise; it is appended at the end of that queue and the other queue
    is left as it is. The only jobs a call takes out of a queue are those
    of the batch it flushes to the scanner itself, from the head of the
    queue it appended to; it flushes exactly when, with the job appended,
    the batch size or the maximum wait is reached and no scan of the class
    is in flight, and then the batch is the first jobs of the queue, up to
    the batch size. *)
Theorem enqueue_appends_one env job st mime :
  mime_type job = VStr mime ->
  exists st' evs,
    queueMediaJob env job st = (Ok tt, st', evs) /\
    (if String.prefix "video" mime
     then imageQueue (qs st') = imageQueue (qs st) /\
          enqueued_to "videos" videoQueue job st st'
     else videoQueue (qs st') = videoQueue (qs st) /\
          enqueued_to "images" imageQueue job st st') /\
    enqueue_outcome env (String.prefix "video" mime) job st st'.
Proof.
  intros Hm.
  destruct (queueMediaJob_outcome env job st mime Hm) as (st' & evs & E & Ho).
  exists st', evs. split; [exact E|]. split; [|exact Ho].
  destruct (String.prefix "video" mime) eqn:Hp.
  - destruct (queueMediaJob_video env job st mime Hm Hp)
      as (st1 & evs1 & batch & E1 & Hi & Hq & Hf).
    rewrite E in E1. inversion E1; subst st1 evs1.
    split; [exact Hi|]. by exists batch.
  - destruct (queueMediaJob_image env job st mime Hm Hp)
      as (st1 & evs1 & batch & E1 & Hi & Hq & Hf).
    rewrite E in E1. inversion E1; subst st1 evs1.
    split; [exact Hi|]. by exists batch.
Qed.

(** ** Recovery *)

Global Instance not_enqueue_permissive : Permissive not_enqueue same_media_jobs.
Proof.
  split; unfold same_media_jobs; try done.
  intros; congruence.
Qed.



Section RecoveryLemmas.
Context (env : Env).
Abbreviation Q := (guarded not_enqueue same_media_jobs).

Local Ltac leaf :=
  first [ assumption
        | apply (respects_modify Q); intros ?; split; [intros ? []|reflexivity]
        | apply (respects_emit Q); intros ?; split;
            [ intros ? [Hm|[]]; inversion Hm; subst; intros ?; discriminate
            | reflexivity ]
        | apply (Date_now_guarded env not_enqueue same_media_jobs) ].
Local Ltac go := repeat first [ solve [ leaf ] | respects_step ].










End RecoveryLemmas.









(** ** Concrete runs *)

(** A video flagged by the remote backend: the four quarantine calls, then
    the completion of the job; nothing reaches the approved-media store. *)
Example ex_quarantine_run :
  exists st' evs,
    scanMediaJobs ex_env_nsfw [ex_video_job] "videos" ex_st0 = (Ok tt, st', evs) /\
    calls evs
    = [ CAddBlockedHash (blockedHashOf ex_video_job "video/mp4");
        CRestrictUser (VStr "user-2");
        CLogSystemEvent (unsafeContentEvent "videos" ex_video_job);
        CMove (quarantineMoveArgs ex_video_job);
        CMarkJobsAsComplete [ex_video_job];
        CLogSystemEvent (mkLog (VStr "Marked 1 jobs as complete.") "scan" None None) ] /\
    media (db st') = [] /\
    map status (media_jobs (db st')) = [Pending; Complete].
Proof. eexists _, _. split; [vm_compute; reflexivity|]. by repeat split. Qed.

(** A video cleared by the remote backend: moved, recorded, completed. *)
Example ex_commit_run :
  exists st' evs,
    scanMediaJobs
      (ex_env (VisionRejects "ECONNRESET") (RemoteReturns (ResResults [RObj ex_safe])))
      [ex_video_job] "videos" ex_st0
    = (Ok tt, st', evs) /\
    calls evs
    = [ CMove (commitMoveArgs ex_video_job);
        CCreateMediaItem (mediaItemOf ex_video_job ex_safe (getTargetKey ex_video_job));
        CMarkJobsAsComplete [ex_video_job];
        CLogSystemEvent (mkLog (VStr "Marked 1 jobs as complete.") "scan" None None) ] /\
    map mr_job_id (media (db st')) = ["job-2"] /\
    map status (media_jobs (db st')) = [Pending; Complete].
Proof. eexists _, _. split; [vm_compute; reflexivity|]. by repeat split. Qed.

Lemma nsfw_never_approved_witness :
  (forall m,
     In (ECall (CCreateMediaItem m))
        (scanMediaJobs ex_env_nsfw [ex_video_job] "videos" ex_st0).2 ->
     mi_job_id m <> "job-2") /\
  media_of "job-2" (db (scanMediaJobs ex_env_nsfw [ex_video_job] "videos" ex_st0).1.2)
  = media_of "job-2" (db ex_st0).
Proof.
  eapply (nsfw_never_approved ex_env_nsfw [ex_video_job] "videos" ex_st0
            (scanMediaJobs ex_env_nsfw [ex_video_job] "videos" ex_st0).1.1
            _ _ [RObj ex_nsfw] _ _ ex_video_job ex_nsfw).
  - by destruct (scanMediaJobs ex_env_nsfw [ex_video_job] "videos" ex_st0) as [[? ?] ?].
  - vm_compute. reflexivity.
  - left. reflexivity.
  - vm_compute. reflexivity.
  - reflexivity.
Defined.

Lemma invalid_verdict_skipped_witness :
  exists st' evs,
    loopBody ex_env_down ∅ "images" ex_image_job [] ex_st0 = (Ok [], st', evs) /\
    calls evs = [CLogSystemEvent (missingResultEvent ex_image_job)] /\
    media (db st') = media (db ex_st0) /\
    media_jobs (db st') = media_jobs (db ex_st0) /\
    blocked_hashes (db st') = blocked_hashes (db ex_st0) /\
    users_bans (db st') = users_bans (db ex_st0).
Proof.
  apply (proj1 (invalid_verdict_skipped ex_env_down [ex_image_job] "images"
                  ex_image_job) ∅ [] ex_st0).
  vm_compute. reflexivity.
Defined.

(** The claim of C2 fails for a verdict that carries an error: the Vision
    adapter turns a per-image error into a verdict with [is_nsfw = false],
    and the scan then takes the commit path for the job: it moves the
    object, and writes no [scan_result_missing] audit error. *)
Lemma error_verdict_treated_as_safe :
  exists v st1 evs1 r st' evs,
    fetchResults ex_env_vision_error [ex_image_job] "images" ex_st0
    = (Ok [RObj v], st1, evs1) /\
    job_id v = id ex_image_job /\
    error v = Some "Bad image data" /\
    scanMediaJobs ex_env_vision_error [ex_image_job] "images" ex_st0 = (r, st', evs) /\
    In (ECall (CMove (commitMoveArgs ex_image_job))) evs /\
    ~ In (ECall (CLogSystemEvent (missingResultEvent ex_image_job))) evs.
Proof.
  eexists _, _, _, _, _, _.
  split; [vm_compute; reflexivity|].
  split; [reflexivity|]. split; [reflexivity|].
  split; [vm_compute; reflexivity|].
  split.
  - vm_compute. do 3 right. left. reflexivity.
  - vm_compute. intros H.
    repeat (destruct H as [H|H]; [discriminate H|]). exact H.
Qed.

Lemma commit_requires_move_and_record_witness :
  exists st' evs,
    loopBody ex_env_down (fromEntries [("job-2", ex_safe)]) "videos" ex_video_job []
      ex_st0
    = (Ok [ex_video_job], st', evs).
Proof.
  destruct (commit_requires_move_and_record ex_env_down
              (fromEntries [("job-2", ex_safe)]) "videos" ex_video_job [] ex_st0
              ex_safe)
    as (c' & st' & evs & E & H).
  - vm_compute. reflexivity.
  - reflexivity.
  - exists st', evs. rewrite E.
    assert (c' = [ex_video_job]) as -> by exact H. reflexivity.
Defined.

Lemma remote_backend_bounded_retry_witness :
  exists st1 evs1,
    scanMediaJobs ex_env_down [ex_video_job] "videos" ex_st0
    = (Throw "ECONNRESET", st1, evs1) /\
    remote_attempts evs1 = 3%nat /\
    sleeps evs1 = [3000%Z; 3000%Z] /\
    calls evs1 = [CLogSystemEvent (failedScanEvent "ECONNRESET")] /\
    only_logs ex_st0 st1.
Proof.
  apply (proj2 (proj2 (remote_backend_bounded_retry ex_env_down [ex_video_job]
                         "videos" ex_st0 eq_refl) eq_refl)).
  intros i _. reflexivity.
Defined.

(** The claim of C4 fails for a small batch of images: the Vision backend
    is invoked once, its failure is not retried and no audit event is
    written for the batch. *)
Lemma small_image_batch_not_retried :
  exists st' evs,
    scanMediaJobs ex_env_down ex_five_images "images" ex_st0
    = (Throw "ECONNRESET", st', evs) /\
    vision_attempts evs = 1%nat /\
    remote_attempts evs = 0%nat /\
    sleeps evs = [] /\
    calls evs = [CSafeSearch ex_five_images].
Proof.
  eexists _, _. split; [vm_compute; reflexivity|]. by repeat split.
Qed.

(** With ten videos enqueued a scan of the ten is in flight and the
    eleventh waits in the queue. *)
Example ex_st11_in_flight :
  videoScanning (qs ex_st11) = true /\
  inflight_count "videos" (qs ex_st11) = 1%nat /\
  videoQueue (qs ex_st11) = [ex_video_named "v11"].
Proof. vm_compute. by repeat split. Qed.

Lemma single_flight_per_class_witness :
  ((inflight_count "images" (qs ex_st11) <= 1)%nat /\
   (inflight_count "videos" (qs ex_st11) <= 1)%nat) /\
  maybeFlushVideos ex_st11 = (Ok tt, ex_st11, []) /\
  (videoScanSettled ex_env_down (set_qs (set_inFlight []) ex_st11)).1.1 = Ok tt /\
  new_flush_cycle true (set_qs (set_inFlight []) ex_st11)
    (videoScanSettled ex_env_down (set_qs (set_inFlight []) ex_st11)).1.2
    (videoScanSettled ex_env_down (set_qs (set_inFlight []) ex_st11)).2.
Proof.
  destruct (single_flight_per_class ex_env_down) as (Hcount & _ & Hbusy & _ & Hsettle).
  split; [|split].
  - apply (Hcount ex_st0 ex_st11); [reflexivity|].
    apply (rtc_trans ex_st0 ex_st9 ex_st11).
    + exact (enqueues_are_steps ex_env_down
               (map ex_video_named
                  ["v1"; "v2"; "v3"; "v4"; "v5"; "v6"; "v7"; "v8"; "v9"])
               ex_st0).
    + exact (enqueues_are_steps ex_env_down
               (map ex_video_named ["v10"; "v11"]) ex_st9).
  - apply Hbusy. vm_compute. reflexivity.
  - destruct (Hsettle (set_qs (set_inFlight []) ex_st11)
                (videoScanSettled ex_env_down (set_qs (set_inFlight []) ex_st11)).1.1
                (videoScanSettled ex_env_down (set_qs (set_inFlight []) ex_st11)).1.2
                (videoScanSettled ex_env_down (set_qs (set_inFlight []) ex_st11)).2)
      as (Hr & Hc & _).
    + by destruct (videoScanSettled ex_env_down (set_qs (set_inFlight []) ex_st11))
        as [[? ?] ?].
    + vm_compute. discriminate.
    + by split.
Defined.

Lemma quarantine_steps_independent_witness :
  exists st' evs,
    loopBody ex_env_down (fromEntries [("job-2", ex_nsfw)]) "videos" ex_video_job []
      ex_st0
    = (Ok [ex_video_job], st', evs) /\
    In (ECall (CAddBlockedHash (blockedHashOf ex_video_job "video/mp4"))) evs.
Proof.
  destruct (quarantine_steps_independent ex_env_down "videos" ex_video_job ex_st0)
    as (st1 & e1 & st2 & e2 & st3 & e3 & st4 & e4 & _ & _ & _ & _ & _ & Hb & _ & _
        & _ & Hl).
  eexists _, _. split.
  - apply (Hl (fromEntries [("job-2", ex_nsfw)]) [] ex_nsfw).
    + vm_compute. reflexivity.
    + reflexivity.
  - apply in_or_app. left. apply Hb. reflexivity.
Defined.

(** The two pending jobs of the example store are both re-admitted, in
    the order fetched, each with the fresh URL. *)
Example ex_recovery_readmitted :
  readmitted ex_env_down (pending (db ex_st0)) (bump ex_st0)
  = [set_url ex_image_job (VStr "https://signed.example/fresh");
     set_url ex_video_job (VStr "https://signed.example/fresh")].
Proof. vm_compute. reflexivity. Qed.


Lemma per_job_isolation_witness :
  exists st' evs,
    perJobTry ex_env_down ex_image_job (throw "boom") [] ex_st0 = (Ok [], st', evs) /\
    In (ECall (CLogSystemEvent (unexpectedErrorEvent ex_image_job "boom"))) evs.
Proof.
  apply (proj1 (per_job_isolation ex_env_down) ex_image_job (throw "boom") []
           ex_st0 "boom" ex_st0 []).
  reflexivity.
Defined.

Lemma destination_bucket_and_key_witness :
  getTargetBucket (linked_to_type ex_image_job) = "talent-profiles-media" /\
  getTargetKey ex_image_job = VStr "project/images/jo/job-1.jpeg" /\
  getTargetBucket (linked_to_type (ex_video_named "v1")) = "posts-media" /\
  getTargetKey (ex_video_named "v1") = file_name (ex_video_named "v1") /\
  (own_lookup (VStr "message") /\ printed_in_full (VStr "message")) /\
  (own_lookup VUndef /\ getTargetBucket VUndef = "default-bucket").
Proof.
  destruct (destination_bucket_and_key ex_image_job) as (Hb & _ & _ & _ & Hk & _ & Ha).
  destruct (destination_bucket_and_key (ex_video_named "v1"))
    as (Hb' & _ & _ & Hk' & _).
  split; [|split; [|split; [|split; [|split]]]].
  - apply Hb. vm_compute. reflexivity.
  - apply Hk; [exact I|exact I|discriminate|discriminate|reflexivity].
  - apply Hb'. vm_compute. reflexivity.
  - apply Hk'. left. reflexivity.
  - apply Ha. vm_compute. tauto.
  - apply (proj1 (proj2 (proj2 (destination_bucket_and_key
                                   (mkJob "job-4" (VStr "user-4") (VStr "images/jo/job-4.png")
                                      (VNum 1) (VStr "aa") (VStr "image/png")
                                      (VStr "post-1") VUndef VUndef))))).
    reflexivity.
Defined.

Lemma enqueue_appends_one_witness :
  exists st' evs,
    queueMediaJob ex_env_down (ex_video_named "v10") ex_st9 = (Ok tt, st', evs) /\
    (imageQueue (qs st') = imageQueue (qs ex_st9) /\
     enqueued_to "videos" videoQueue (ex_video_named "v10") ex_st9 st') /\
    enqueue_outcome ex_env_down true (ex_video_named "v10") ex_st9 st'.
Proof.
  apply (enqueue_appends_one ex_env_down (ex_video_named "v10") ex_st9 "video/mp4").
  reflexivity.
Defined.

(** The claim of C10 fails on the tenth video: the call that appends it
    reaches the batch size and flushes, so the queue that held nine jobs
    before the call holds none after it. *)
Lemma enqueue_flushes_full_batch :
  length (videoQueue (qs ex_st9)) = 9%nat /\
  inFlight (qs ex_st9) = [] /\
  exists st' evs,
    queueMediaJob ex_env_down (ex_video_named "v10") ex_st9 = (Ok tt, st', evs) /\
    videoQueue (qs st') = [] /\
    length (inFlight (qs st')) = 1%nat.
Proof.
  split; [vm_compute; reflexivity|]. split; [vm_compute; reflexivity|].
  eexists _, _. split; [vm_compute; reflexivity|]. by split.
Qed.

(** * Further properties *)

(** ** The scan: class check, index of the verdicts, completion *)

Lemma logSystemEvent_quiet env l st :
  exists st' evs,
    logSystemEvent env l st = (Ok tt, st', evs) /\
    calls evs = [CLogSystemEvent l] /\
    remote_attempts evs = 0%nat /\ vision_attempts evs = 0%nat /\
    only_logs st st' /\ qs st' = qs st /\ tick st' = S (tick st).
Proof.
  cbv [logSystemEvent supabase mbind M_bind bind console emit next_op modify
       mret M_ret ret].
  destruct (supabase_error env (tick st)); eexists _, _;
    (split; [reflexivity|]); by repeat split.
Qed.

(** X1. A scan asked for a class other than [images] and [videos] writes
    the [invalid_scan_type] audit event and throws; it invokes no backend,
    makes no other call and changes no table but the audit log. *)
Theorem invalid_scan_type_rejected env jobs type st :
  existsb (String.eqb type) ["images"; "videos"] = false ->
  exists st' evs,
    scanMediaJobs env jobs type st
    = (Throw ("Invalid scan type: " +:+ type), st', evs) /\
    calls evs = [CLogSystemEvent (invalidScanTypeEvent type)] /\
    remote_attempts evs = 0%nat /\ vision_attempts evs = 0%nat /\
    only_logs st st'.
Proof.
  intros Hbad. unfold scanMediaJobs. rewrite Hbad. cbn [negb].
  destruct (logSystemEvent_quiet env (invalidScanTypeEvent type) st)
    as (st' & evs & E & Hc & Hr & Hv & Hl & _).
  exists st', evs. unfold invalidScanTypeEvent in E.
  rewrite (bind_ok _ _ _ _ _ _ E). cbn [throw]. rewrite app_nil_r.
  split; [reflexivity|]. repeat split; try assumption; apply Hl.
Qed.

Lemma finishBatch_run env completed st :
  exists st' evs,
    finishBatch env completed st = (Ok tt, st', evs) /\
    media (db st') = media (db st) /\
    blocked_hashes (db st') = blocked_hashes (db st) /\
    users_bans (db st') = users_bans (db st) /\
    match completed with
    | [] =>
        media_jobs (db st') = media_jobs (db st) /\
        calls evs = [CMarkJobsAsComplete []; CLogSystemEvent (markedEvent 0)] /\
        forall ids err, ~ In (ESupabase (UpdateComplete ids) err) evs
    | _ :: _ =>
        match supabase_error env (tick st) with
        | None =>
            media_jobs (db st')
            = map (complete_row (map id completed)) (media_jobs (db st)) /\
            calls evs = [CMarkJobsAsComplete completed;
                         CLogSystemEvent (markedEvent (length completed))]
        | Some err =>
            media_jobs (db st') = media_jobs (db st) /\
            calls evs = [CMarkJobsAsComplete completed;
                         CLogSystemEvent (markFailedEvent err)]
        end
    end.
Proof.
  unfold markedEvent, markFailedEvent.
  cbv [finishBatch markJobsAsComplete logSystemEvent supabase try_catch mbind
       M_bind bind console emit next_op modify throw mret M_ret ret].
  destruct completed as [|job rest]; simpl.
  - destruct (supabase_error env (tick st)); eexists _, _;
      (split; [reflexivity|]); simpl; repeat split;
      intros ids err H; repeat (destruct H as [H|H]; [discriminate H|]); exact H.
  - destruct (supabase_error env (tick st)) as [err|]; simpl;
      destruct (supabase_error env (S (tick st))); simpl;
      eexists _, _; (split; [reflexivity|]); by repeat split.
Qed.

(** X2. The last step of a scan never throws and never undoes what the
    jobs' reconciliation wrote. With no completed job it sends no update;
    with completed jobs it sets exactly their rows to [complete] and
    writes the summary event; when the update fails, statuses stay as they
    were and the [mark_jobs_complete_failed] event is written instead. *)
Theorem finishBatch_outcomes env completed st :
  exists st' evs,
    finishBatch env completed st = (Ok tt, st', evs) /\
    media (db st') = media (db st) /\
    blocked_hashes (db st') = blocked_hashes (db st) /\
    users_bans (db st') = users_bans (db st) /\
    match completed with
    | [] =>
        media_jobs (db st') = media_jobs (db st) /\
        calls evs = [CMarkJobsAsComplete []; CLogSystemEvent (markedEvent 0)] /\
        forall ids err, ~ In (ESupabase (UpdateComplete ids) err) evs
    | _ :: _ =>
        match supabase_error env (tick st) with
        | None =>
            media_jobs (db st')
            = map (complete_row (map id completed)) (media_jobs (db st)) /\
            calls evs = [CMarkJobsAsComplete completed;
                         CLogSystemEvent (markedEvent (length completed))]
        | Some err =>
            media_jobs (db st') = media_jobs (db st) /\
            calls evs = [CMarkJobsAsComplete completed;
                         CLogSystemEvent (markFailedEvent err)]
        end
    end.
Proof. apply finishBatch_run. Qed.

Lemma fromEntries_snoc l k v :
  fromEntries (l ++ [(k, v)]) = <[k := v]> (fromEntries l).
Proof. unfold fromEntries. by rewrite fold_left_app. Qed.

Lemma fromEntries_lookup_None l k :
  fromEntries l !! k = None <-> forall v, ~ In (k, v) l.
Proof.
  induction l as [|[k' v'] l IH] using rev_ind.
  - split; [intros _ v []|intros _; apply lookup_empty].
  - rewrite fromEntries_snoc. destruct (decide (k' = k)) as [->|Hne].
    + rewrite lookup_insert_eq. split; [discriminate|].
      intros H. exfalso. apply (H v'). apply in_or_app. right. by left.
    + rewrite lookup_insert_ne by done. rewrite IH. split.
      * intros H v Hin. apply in_app_or in Hin as [Hin|[Heq|[]]].
        -- by apply (H v).
        -- inversion Heq; subst. done.
      * intros H v Hin. apply (H v). apply in_or_app. by left.
Qed.

Lemma fromEntries_lookup_last l k v rest :
  (forall v', ~ In (k, v') rest) ->
  fromEntries (l ++ (k, v) :: rest) !! k = Some v.
Proof.
  induction rest as [|[k' v'] rest IH] using rev_ind; intros Hno.
  - rewrite fromEntries_snoc. apply lookup_insert_eq.
  - replace (l ++ (k, v) :: rest ++ [(k', v')])
      with ((l ++ (k, v) :: rest) ++ [(k', v')])
      by (by rewrite <- app_assoc).
    rewrite fromEntries_snoc.
    assert (k' <> k) as Hne.
    { intros ->. apply (Hno v'). apply in_or_app. right. by left. }
    rewrite lookup_insert_ne by done. apply IH.
    intros v0 Hin. apply (Hno v0). apply in_or_app. by left.
Qed.

Lemma entries_None results : entries results = None <-> In RNullish results.
Proof.
  induction results as [|[|v] rest IH]; simpl.
  - split; [discriminate|intros []].
  - split; [by left|done].
  - destruct (entries rest) as [l|].
    + split; [discriminate|]. intros [H|H]; [discriminate|].
      by apply IH in H.
    + split; [|done]. intros _. right. by apply IH.
Qed.

Lemma entries_Some_In results l :
  entries results = Some l ->
  forall k v, In (k, v) l <-> In (RObj v) results /\ job_id v = k.
Proof.
  revert l. induction results as [|[|v0] rest IH]; intros l H k v; simpl in H.
  - inversion H; subst. simpl. tauto.
  - discriminate.
  - destruct (entries rest) as [l0|] eqn:E; [|discriminate].
    inversion H; subst. simpl. rewrite (IH l0 eq_refl). split.
    + intros [Heq|[Hin Hk]]; [inversion Heq; subst; by split; [left|]|].
      split; [by right|done].
    + intros [[Heq|Hin] Hk]; [inversion Heq; subst; by left|]. by right.
Qed.

Lemma entries_app r1 r2 l1 l2 :
  entries r1 = Some l1 -> entries r2 = Some l2 ->
  entries (r1 ++ r2) = Some (l1 ++ l2).
Proof.
  revert l1. induction r1 as [|[|v] r1 IH]; intros l1 H1 H2; simpl in *.
  - inversion H1; subst. exact H2.
  - discriminate.
  - destruct (entries r1) as [l|] eqn:E; [|discriminate].
    inversion H1; subst. by rewrite (IH l eq_refl H2).
Qed.

(** X3. The index of the verdicts: among several verdicts for one job id
    the last of the result list is the one used, and a job has no verdict
    exactly when no element of the list carries its id. *)
Theorem verdict_index_last_wins job :
  (forall before v after,
     ~ In RNullish (before ++ RObj v :: after) ->
     job_id v = id job ->
     (forall v', In (RObj v') after -> job_id v' <> id job) ->
     verdictOf (before ++ RObj v :: after) job = Some v) /\
  (forall results,
     ~ In RNullish results ->
     (verdictOf results job = None <->
      forall v, In (RObj v) results -> job_id v <> id job)).
Proof.
  split.
  - intros before v after Hnn Hid Hafter.
    assert (~ In RNullish before /\ ~ In RNullish after) as [Hb Ha].
    { split; intros H; apply Hnn, in_or_app; [by left|right; by right]. }
    destruct (entries before) as [lb|] eqn:Eb; [|by apply entries_None in Eb].
    destruct (entries after) as [la|] eqn:Ea; [|by apply entries_None in Ea].
    unfold verdictOf.
    rewrite (entries_app before (RObj v :: after) lb ((job_id v, v) :: la) Eb)
      by (simpl; by rewrite Ea).
    rewrite Hid. apply fromEntries_lookup_last.
    intros v' Hin. apply (entries_Some_In _ _ Ea) in Hin as [Hin Hk].
    by apply (Hafter v').
  - intros results Hnn. unfold verdictOf.
    destruct (entries results) as [l|] eqn:E; [|by apply entries_None in E].
    rewrite fromEntries_lookup_None. split.
    + intros H v Hin Hk. apply (H v). apply (entries_Some_In _ _ E). by split.
    + intros H v Hin. apply (entries_Some_In _ _ E) in Hin as [Hin Hk].
      by apply (H v).
Qed.

(** X4. A [null] or [undefined] element in the results of the backend
    makes the scan throw a TypeError while it indexes them, before any job
    is reconciled: nothing is moved, recorded, blocked or completed. *)
Theorem null_result_entry_aborts env jobs type st results st1 evs1 :
  existsb (String.eqb type) ["images"; "videos"] = true ->
  fetchResults env jobs type st = (Ok results, st1, evs1) ->
  In RNullish results ->
  scanMediaJobs env jobs type st = (Throw nullEntryError, st1, evs1) /\
  (forall c, In c (calls evs1) -> scan_only c) /\
  only_logs st st1.
Proof.
  intros Hvalid Hf Hnull. split.
  - unfold scanMediaJobs. rewrite Hvalid. cbn [negb].
    rewrite (bind_ok _ _ _ _ _ _ Hf). unfold indexResults.
    apply entries_None in Hnull. rewrite Hnull.
    rewrite bind_run. cbn [throw]. by rewrite app_nil_r.
  - destruct (fetchResults_guarded env scan_only only_logs jobs type I
                _ _ _ _ Hf) as [Hc Hr].
    split; [|exact Hr]. intros c Hin. apply Hc. by apply calls_In.
Qed.


(** ** The scan: every job is accounted for *)

Lemma handler_logs {A} env level msg l (c : A) st :
  exists st' evs,
    (console level msg;; logSystemEvent env l;; mret c) st = (Ok c, st', evs) /\
    In (ECall (CLogSystemEvent l)) evs.
Proof.
  destruct (logSystemEvent_quiet env l st) as (st' & evs & E & Hc & _).
  rewrite (bind_ok _ _ _ tt st [EConsole level msg]) by reflexivity.
  rewrite (bind_ok _ _ _ _ _ _ E). cbn [mret M_ret ret].
  eexists _, _. split; [reflexivity|].
  assert (In (ECall (CLogSystemEvent l)) evs) as Hin
    by (apply calls_In; rewrite Hc; by left).
  cbn [app]. right. rewrite ?in_app_iff. tauto.
Qed.

Lemma error_logged_for_app_l job e1 e2 :
  error_logged_for job e1 -> error_logged_for job (e1 ++ e2).
Proof.
  intros (l & Hin & H). exists l. split; [|exact H]. apply in_or_app. by left.
Qed.

Lemma error_logged_for_app_r job e1 e2 :
  error_logged_for job e2 -> error_logged_for job (e1 ++ e2).
Proof.
  intros (l & Hin & H). exists l. split; [|exact H]. apply in_or_app. by right.
Qed.

(** A [try] around a step whose [catch] ends the iteration. *)
Lemma try_flag_outcome (m : M unit) (h : string -> M bool)
    (P : list Event -> Prop) st :
  (forall err st1, exists st2 e2, h err st1 = (Ok false, st2, e2) /\ P e2) ->
  (forall e1 e2, P e2 -> P (e1 ++ e2)) ->
  exists b st' evs,
    try_catch (m ≫= fun _ => mret true) h st = (Ok b, st', evs) /\
    (b = false -> P evs).
Proof.
  intros Hh Happ. unfold try_catch. rewrite bind_run.
  destruct (m st) as [[[[]|err] st1] e1].
  - cbn. eexists true, _, _. split; [reflexivity|]. discriminate.
  - destruct (Hh err st1) as (st2 & e2 & E2 & Hp). rewrite E2.
    eexists false, _, _. split; [reflexivity|]. intros _. by apply Happ.
Qed.

Lemma quarantinePath_returns env type job toKey :
  returns (quarantinePath env type job toKey) true.
Proof.
  unfold quarantinePath, quarantineBlockHash, quarantineRestrictUser,
    quarantineAudit, quarantineMove.
  repeat (apply returns_bind;
          [ apply total_try_catch; intros ?; cbv beta zeta;
            apply total_bind; [apply total_emit | intros _; apply logSystemEvent_total]
          | intros _ ]).
  apply returns_ret.
Qed.

Lemma commitPath_outcome env job result toBucket toKey st :
  exists b st' evs,
    commitPath env job result toBucket toKey st = (Ok b, st', evs) /\
    (b = false -> error_logged_for job evs).
Proof.
  assert (forall name msg st1, exists st2 e2,
    (console "error" (msg : string);;
     logSystemEvent env (mkLog (VStr msg) "error" (Some name) (Some (id job)));;
     mret false) st1 = (Ok false, st2, e2) /\ error_logged_for job e2) as Hh.
  { intros name msg st1.
    destruct (handler_logs env "error" msg
                (mkLog (VStr msg) "error" (Some name) (Some (id job))) false st1)
      as (st2 & e2 & E & Hin).
    exists st2, e2. split; [exact E|]. eexists. split; [exact Hin|]. simpl. eauto. }
  unfold commitPath. rewrite bind_run.
  lazymatch goal with
  | |- context [try_catch (?m ≫= _) ?h st] =>
      destruct (try_flag_outcome m h (error_logged_for job) st)
        as (b1 & st1 & e1 & E1 & H1)
  end.
  { intros err st1. apply (Hh "media_move_failed"). }
  { intros. by apply error_logged_for_app_r. }
  rewrite E1. destruct b1; cbn [negb].
  - lazymatch goal with
    | |- context [try_catch (?m ≫= _) ?h st1] =>
        destruct (try_flag_outcome m h (error_logged_for job) st1)
          as (b2 & st2 & e2 & E2 & H2)
    end.
    { intros err st2. apply (Hh "media_create_failed"). }
    { intros. by apply error_logged_for_app_r. }
    rewrite E2. eexists _, _, _. split; [reflexivity|].
    intros Hb. by apply error_logged_for_app_r, H2.
  - eexists _, _, _. split; [reflexivity|].
    intros _. by apply error_logged_for_app_l, H1.
Qed.

Lemma perJobTry_ok env job (body : M bool) completed st b st1 e1 :
  body st = (Ok b, st1, e1) ->
  perJobTry env job body completed st
  = (Ok (if b then completed ++ [job] else completed), st1, e1 ++ []).
Proof.
  intros E. unfold perJobTry.
  apply try_catch_ok. by rewrite (bind_ok _ _ _ _ _ _ E).
Qed.

Lemma loopBody_accounted env rb type job completed st :
  exists (pushed : bool) st' evs,
    loopBody env rb type job completed st
    = (Ok (if pushed then completed ++ [job] else completed), st', evs) /\
    (pushed = false -> error_logged_for job evs).
Proof.
  unfold loopBody. destruct (validVerdict (rb !! id job)) as [result|].
  - assert (exists b st1 e1,
      reconcile env type job result st = (Ok b, st1, e1) /\
      (b = false -> error_logged_for job e1)) as (b & st1 & e1 & E & Hb).
    { unfold reconcile. destruct (truthy (is_nsfw result)).
      - destruct (quarantinePath_returns env type job (getTargetKey job) st)
          as (st1 & e1 & E).
        exists true, st1, e1. split; [exact E|]. discriminate.
      - apply commitPath_outcome. }
    rewrite (perJobTry_ok _ _ _ _ _ _ _ _ E).
    exists b, st1, (e1 ++ []). split; [reflexivity|].
    intros H. by apply error_logged_for_app_l, Hb.
  - cbv zeta.
    destruct (handler_logs env "warn"
      ("[Scanner] Invalid or missing result for media " +:+ id job)
      (mkLog (VStr ("[Scanner] Invalid or missing result for media " +:+ id job))
         "error" (Some "scan_result_missing") (Some (id job))) completed st)
      as (st' & evs & E & Hin).
    exists false, st', evs. split; [exact E|].
    intros _. eexists. split; [exact Hin|]. simpl. eauto.
Qed.

Lemma reconcileJobs_accounted env rb type jobs completed st :
  exists c' st' evs,
    reconcileJobs env rb type jobs completed st = (Ok (completed ++ c'), st', evs) /\
    sublist c' jobs /\
    forall job, In job jobs -> In job c' \/ error_logged_for job evs.
Proof.
  revert completed st. induction jobs as [|job rest IH]; intros completed st; simpl.
  - exists [], st, []. rewrite app_nil_r. split; [reflexivity|].
    split; [constructor|]. intros ? [].
  - destruct (loopBody_accounted env rb type job completed st)
      as (pushed & st1 & e1 & E1 & H1).
    destruct (IH (if pushed then completed ++ [job] else completed) st1)
      as (c2 & st2 & e2 & E2 & Hsub & Hall).
    rewrite (bind_ok _ _ _ _ _ _ E1), E2.
    exists (if pushed then job :: c2 else c2), st2, (e1 ++ e2).
    split; [|split].
    + destruct pushed; [|reflexivity]. by rewrite <- app_assoc.
    + destruct pushed; by constructor.
    + intros j [<-|Hj].
      * destruct pushed; [left; by left|].
        right. by apply error_logged_for_app_l, H1.
      * destruct (Hall j Hj) as [Hc|Hl].
        -- left. destruct pushed; [by right|done].
        -- right. by apply error_logged_for_app_r.
Qed.

Lemma finishBatch_marks env completed st :
  exists st' evs,
    finishBatch env completed st
    = (Ok tt, st', ECall (CMarkJobsAsComplete completed) :: evs).
Proof.
  destruct (finishBatch_run env completed st) as (st' & evs & E & _).
  pose proof E as E'. unfold finishBatch in E'.
  apply try_catch_events_prefix in E' as (r1 & st1 & e1 & e2 & Em & ->).
  apply bind_events_prefix in Em as (r2 & st2 & e3 & e4 & Em & ->).
  unfold markJobsAsComplete in Em. apply emit_bind_first in Em as [e5 ->].
  rewrite E. by eexists _, _.
Qed.

(** X5. Once the backend has answered, a scan always runs to its end and
    no job of the batch is dropped silently: the jobs handed to
    [markJobsAsComplete] are jobs of the batch, in the order of the batch,
    and every job of the batch is among them or has an audit event with
    action [error], an error name and the job's id as target. *)
Theorem no_job_silently_dropped env jobs type st results st1 evs1 :
  existsb (String.eqb type) ["images"; "videos"] = true ->
  fetchResults env jobs type st = (Ok results, st1, evs1) ->
  ~ In RNullish results ->
  exists completed st' evs,
    scanMediaJobs env jobs type st = (Ok tt, st', evs) /\
    In (ECall (CMarkJobsAsComplete completed)) evs /\
    sublist completed jobs /\
    forall job, In job jobs -> In job completed \/ error_logged_for job evs.
Proof.
  intros Hvalid Hf Hnn.
  destruct (entries results) as [l|] eqn:El;
    [|by apply entries_None in El].
  destruct (reconcileJobs_accounted env (fromEntries l) type jobs [] st1)
    as (c & st2 & e2 & E2 & Hsub & Hall).
  destruct (finishBatch_marks env c st2) as (st3 & e3 & E3).
  exists c, st3, (evs1 ++ [] ++ e2 ++ ECall (CMarkJobsAsComplete c) :: e3).
  split; [|split; [|split]].
  - unfold scanMediaJobs. rewrite Hvalid. cbn [negb].
    rewrite (bind_ok _ _ _ _ _ _ Hf).
    rewrite (bind_ok _ _ _ _ _ _ (indexResults_run _ _ _ El)).
    rewrite (bind_ok _ _ _ _ _ _ E2). cbn [app] in E3 |- *. by rewrite E3.
  - apply in_or_app. right. apply in_or_app. right. apply in_or_app. right. by left.
  - exact Hsub.
  - intros job Hj. destruct (Hall job Hj) as [?|Hl]; [by left|right].
    apply error_logged_for_app_r, error_logged_for_app_r. by apply error_logged_for_app_l.
Qed.


(** ** The Vision adapter *)

Global Instance console_only_compositional : Compositional console_only.
Proof.
  split; unfold console_only.
  - intros st. by split.
  - intros st st1 st2 e1 e2 [-> H1] [-> H2]. split; [done|]. by apply Forall_app.
Qed.

Lemma visionMap_console_only jobs responses i :
  respects console_only (visionMap jobs responses i).
Proof.
  revert i. induction responses as [|res rest IH]; intros i; simpl.
  - apply (respects_ret console_only).
  - apply (respects_bind console_only).
    + unfold visionVerdict.
      repeat first
        [ solve [ apply (respects_emit console_only); intros ?; split; [done|];
                  by repeat constructor ]
        | respects_step ].
    + intros v. apply (respects_bind console_only); [apply IH|].
      intros vs. apply (respects_ret console_only).
Qed.

Lemma console_only_quiet evs :
  Forall console_event evs ->
  calls evs = [] /\ vision_attempts evs = 0%nat /\ remote_attempts evs = 0%nat /\
  sleeps evs = [].
Proof.
  unfold calls, vision_attempts, remote_attempts, sleeps.
  induction 1 as [|e evs He _ IH]; [done|].
  destruct e; done.
Qed.

Lemma vision_attempts_app e1 e2 :
  vision_attempts (e1 ++ e2) = (vision_attempts e1 + vision_attempts e2)%nat.
Proof. unfold vision_attempts. by rewrite omap_app, length_app. Qed.

Lemma visionVerdict_run jobs res i st r st' evs :
  visionVerdict jobs res i st = (Ok r, st', evs) ->
  exists job, jobs !! i = Some job /\ RObj r = visionVerdictOf job res /\
              st' = st /\ calls evs = [].
Proof.
  unfold visionVerdict, visionVerdictOf, visionFlag.
  destruct res as [[msg|] [[[a v] r0]|]]; simpl;
    destruct (jobs !! i) as [job|];
    cbv [console emit mbind M_bind bind mret M_ret ret throw];
    intros H; inversion H; subst; eauto.
Qed.

Lemma visionMap_run jobs responses i st results st' evs :
  visionMap jobs responses i st = (Ok results, st', evs) ->
  results = zip_with visionVerdictOf (drop i jobs) responses /\
  (length responses <= length (drop i jobs))%nat /\
  st' = st /\ calls evs = [].
Proof.
  revert i st results st' evs.
  induction responses as [|res rest IH]; intros i st results st' evs H; simpl in H.
  - inversion H; subst. destruct (drop i jobs); simpl; repeat split; lia.
  - rewrite bind_run in H.
    destruct (visionVerdict jobs res i st) as [[[v|e] s1] e1] eqn:Ev; [|discriminate].
    apply visionVerdict_run in Ev as (job & Hj & Hv & -> & Hc1).
    rewrite bind_run in H.
    destruct (visionMap jobs rest (S i) st) as [[[vs|e] s2] e2] eqn:Em;
      [|discriminate].
    apply IH in Em as (-> & Hlen & -> & Hc2).
    inversion H; subst. rewrite (drop_S _ _ _ Hj). simpl.
    rewrite Hv, app_nil_r, calls_app, Hc1, Hc2. repeat split. lia.
Qed.

Lemma safeSearchFromUrls_run env jobs st results st' evs :
  safeSearchFromUrls env jobs st = (Ok results, st', evs) ->
  exists responses,
    vision_post env (tick st) = VisionData responses /\
    (length responses <= length jobs)%nat /\
    results = zip_with visionVerdictOf jobs responses /\
    db st' = db st /\ calls evs = [CSafeSearch jobs] /\
    vision_attempts evs = 1%nat /\ remote_attempts evs = 0%nat /\
    In (EVisionPost (map url jobs) (VisionData responses)) evs.
Proof.
  unfold safeSearchFromUrls.
  rewrite (bind_ok _ _ _ tt st [ECall (CSafeSearch jobs)]) by reflexivity.
  rewrite (bind_ok _ _ _ (tick st) (mkSt (S (tick st)) (db st) (qs st)) [])
    by reflexivity.
  rewrite (bind_ok _ _ _ tt (mkSt (S (tick st)) (db st) (qs st))
             [EVisionPost (map url jobs) (vision_post env (tick st))])
    by reflexivity.
  destruct (vision_post env (tick st)) as [e|responses]; [discriminate|].
  destruct (visionMap jobs responses 0 _) as [[rs s2] e2] eqn:Em.
  intros H. inversion H; subst.
  destruct (visionMap_console_only _ _ _ _ _ _ _ Em) as [_ Hco].
  apply console_only_quiet in Hco as (_ & Hv & Hr & _).
  apply visionMap_run in Em as (-> & Hlen & -> & Hc).
  rewrite drop_0 in Hlen. exists responses.
  change (ECall (CSafeSearch jobs)
          :: EVisionPost (map url jobs) (VisionData responses) :: e2)
    with ([ECall (CSafeSearch jobs);
           EVisionPost (map url jobs) (VisionData responses)] ++ e2).
  rewrite calls_app, vision_attempts_app, remote_attempts_app, Hc, Hv, Hr.
  repeat split; try done. right. by left.
Qed.

(** X6. What the Vision adapter returns: exactly one request went out, for
    the URLs of the jobs, and none to the bulk backend; the verdicts pair
    the responses with the jobs by position, so there are no more
    responses than jobs; a response with an error gives a verdict that is
    not unsafe; no verdict carries dimensions or a duration; the tables
    are left as they were. *)
Theorem vision_verdicts_by_position env jobs st results st' evs :
  safeSearchFromUrls env jobs st = (Ok results, st', evs) ->
  exists responses,
    vision_post env (tick st) = VisionData responses /\
    (length responses <= length jobs)%nat /\
    results = zip_with visionVerdictOf jobs responses /\
    (forall res, In res responses -> is_Some (v_error res) -> visionFlag res = false) /\
    (forall v, In (RObj v) results ->
       width v = VUndef /\ height v = VUndef /\ duration v = VUndef) /\
    db st' = db st /\ calls evs = [CSafeSearch jobs] /\
    vision_attempts evs = 1%nat /\ remote_attempts evs = 0%nat /\
    In (EVisionPost (map url jobs) (VisionData responses)) evs.
Proof.
  intros H. apply safeSearchFromUrls_run in H
    as (responses & Hp & Hlen & -> & Hdb & Hc & Hv & Hr & Hpost).
  exists responses. repeat split; try done.
  - intros res _ [msg Hm]. unfold visionFlag. by rewrite Hm.
  - apply list_elem_of_In, elem_of_lookup_zip_with in H
      as (i & job & res & Heq & _). by inversion Heq.
  - apply list_elem_of_In, elem_of_lookup_zip_with in H
      as (i & job & res & Heq & _). by inversion Heq.
  - apply list_elem_of_In, elem_of_lookup_zip_with in H
      as (i & job & res & Heq & _). by inversion Heq.
Qed.


(** ** Runs of a scan after the backend has answered *)

Section GuardedLoop.
Context (env : Env) (okC : Call -> Prop) (R : St -> St -> Prop).
Context `{!Permissive okC R}.
Abbreviation GL := (guarded okC R).

Local Ltac leaf :=
  first [ assumption
        | apply logSystemEvent_guarded; assumption
        | apply (respects_emit GL); intros ?; split;
            [ intros ? [Hm|[]]; discriminate Hm | apply perm_refl ] ].
Local Ltac go := repeat first [ solve [ leaf ] | respects_step ].

Lemma commitPath_respects job result toBucket toKey :
  okC (CMove (mkMove (file_name job) toKey VUndef (VStr toBucket))) ->
  respects GL (createMediaItem env (mediaItemOf job result toKey)) ->
  respects GL (commitPath env job result toBucket toKey).
Proof. intros Hmv Hcr. unfold commitPath. go. by apply move_guarded. Qed.

Lemma loopBody_respects rb type job completed :
  (forall r, validVerdict (rb !! id job) = Some r ->
     respects GL (reconcile env type job r)) ->
  respects GL (loopBody env rb type job completed).
Proof.
  intros Hr. unfold loopBody.
  destruct (validVerdict (rb !! id job)) as [r|] eqn:Ev.
  - specialize (Hr r eq_refl). unfold perJobTry. go.
  - go.
Qed.

Lemma reconcileJobs_respects rb type jobs completed :
  (forall job r, In job jobs -> validVerdict (rb !! id job) = Some r ->
     respects GL (reconcile env type job r)) ->
  respects GL (reconcileJobs env rb type jobs completed).
Proof.
  revert completed. induction jobs as [|job rest IH]; intros completed Hr; simpl.
  - go.
  - respects_step.
    + apply loopBody_respects. intros r. apply Hr. by left.
    + apply IH. intros j r Hj. apply Hr. by right.
Qed.

Lemma finishBatch_respects completed :
  okC (CMarkJobsAsComplete completed) ->
  (forall st, R st (set_db (set_complete (map id completed)) st)) ->
  respects GL (finishBatch env completed).
Proof.
  intros Hc Hr. unfold finishBatch. go.
  apply markJobsAsComplete_guarded; assumption.
Qed.

Lemma scan_after_fetch jobs type st r st' evs results st1 evs1 :
  scanMediaJobs env jobs type st = (r, st', evs) ->
  fetchResults env jobs type st = (Ok results, st1, evs1) ->
  okC (CSafeSearch jobs) ->
  (forall l job r, entries results = Some l -> In job jobs ->
     validVerdict (fromEntries l !! id job) = Some r ->
     respects GL (reconcile env type job r)) ->
  (forall completed,
     okC (CMarkJobsAsComplete completed) /\
     forall st, R st (set_db (set_complete (map id completed)) st)) ->
  GL st st' evs.
Proof.
  intros Hrun Hfetch Hs Hrec Hfin.
  unfold scanMediaJobs in Hrun.
  destruct (negb (existsb (String.eqb type) ["images"; "videos"])).
  { revert Hrun. apply (respects_bind GL); [apply logSystemEvent_guarded; assumption|].
    intros ?. apply (respects_throw GL). }
  rewrite (bind_ok _ _ _ _ _ _ Hfetch) in Hrun.
  assert (GL st st1 evs1) as Hg1.
  { eapply (fetchResults_guarded env _ _ jobs type); [done|exact Hfetch]. }
  destruct (entries results) as [l|] eqn:El.
  - rewrite (bind_ok _ _ _ _ _ _ (indexResults_run _ _ _ El)) in Hrun.
    match type of Hrun with
    | match match ?m st1 with _ => _ end with _ => _ end = _ =>
        destruct (m st1) as [[r2 st2] e2] eqn:E2
    end.
    inversion Hrun; subst. clear Hrun.
    eapply (comp_trans (P:=GL)); [exact Hg1|].
    revert E2. apply (respects_bind GL).
    + apply reconcileJobs_respects. intros job r1. by apply Hrec.
    + intros completed. apply finishBatch_respects; apply Hfin.
  - assert (indexResults results st1
            = (Throw "Cannot read properties of null (reading 'job_id')", st1, []))
      as Hi by (unfold indexResults; by rewrite El).
    rewrite (bind_throw _ _ _ _ _ _ Hi) in Hrun.
    inversion Hrun; subst. by rewrite app_nil_r.
Qed.

End GuardedLoop.


(** ** Small image batches *)

Global Instance any_call_permissive : Permissive any_call same_media.
Proof.
  split; unfold same_media, any_call; try done.
  intros; congruence.
Qed.

Global Instance any_call_reconciling : Reconciling any_call same_media.
Proof. split; done. Qed.

Global Instance not_mark_permissive : Permissive not_mark any_state.
Proof. split; done. Qed.

Global Instance not_mark_reconciling : Reconciling not_mark any_state.
Proof. split; done. Qed.

Global Instance marks_only_permissive completed :
  Permissive (marks_only completed) any_state.
Proof. split; done. Qed.

Lemma fromEntries_lookup_In l k v : fromEntries l !! k = Some v -> In (k, v) l.
Proof.
  induction l as [|[k' v'] l IH] using rev_ind.
  - unfold fromEntries. simpl. by rewrite lookup_empty.
  - rewrite fromEntries_snoc. simpl. destruct (decide (k' = k)) as [->|Hne].
    + rewrite lookup_insert_eq. intros H; inversion H; subst.
      apply in_or_app. right. by left.
    + rewrite lookup_insert_ne by done. intros H.
      apply in_or_app. left. by apply IH.
Qed.

Lemma createMediaItem_no_width env m st :
  truthy (mi_width m) = false ->
  createMediaItem env m st
  = (Throw "Invalid media item data", st, [ECall (CCreateMediaItem m)]).
Proof.
  intros Hw. unfold createMediaItem.
  rewrite (bind_ok _ _ _ tt st [ECall (CCreateMediaItem m)]) by reflexivity.
  rewrite Hw. cbn [negb]. rewrite orb_true_r. reflexivity.
Qed.

Lemma commitPath_no_width env job result toBucket toKey st :
  truthy (width result) = false ->
  exists st' evs,
    commitPath env job result toBucket toKey st = (Ok false, st', evs).
Proof.
  intros Hw. unfold commitPath. rewrite bind_run.
  lazymatch goal with
  | |- context [try_catch (?m ≫= _) ?h st] =>
      destruct (try_flag_outcome m h (fun _ => True) st)
        as (b1 & st1 & e1 & E1 & _)
  end.
  { intros err st1.
    destruct (handler_returns env
      ("Failed to move media item for job " +:+ id job +:+ " to " +:+ toBucket
       +:+ ": " +:+ err)
      (mkLog (VStr ("Failed to move media item for job " +:+ id job +:+ " to "
                    +:+ toBucket +:+ ": " +:+ err)) "error"
         (Some "media_move_failed") (Some (id job))) false st1) as (st2 & e2 & E).
    exists st2, e2. by split. }
  { done. }
  rewrite E1. destruct b1; cbn [negb]; [|by eexists _, _].
  assert ((createMediaItem env (mediaItemOf job result toKey) ≫= fun _ => mret true) st1
          = (Throw "Invalid media item data", st1,
             [ECall (CCreateMediaItem (mediaItemOf job result toKey))])) as Hc.
  { apply bind_throw. by apply createMediaItem_no_width. }
  rewrite (try_catch_throw _ _ _ _ _ _ Hc).
  destruct (handler_returns env
    ("Failed to create media item for job " +:+ id job +:+ ": "
     +:+ "Invalid media item data")
    (mkLog (VStr ("Failed to create media item for job " +:+ id job +:+ ": "
                  +:+ "Invalid media item data")) "error"
       (Some "media_create_failed") (Some (id job))) false st1) as (st2 & e2 & E).
  cbv zeta. rewrite E. by eexists _, _.
Qed.

Lemma reconcile_no_width env type job r :
  truthy (width r) = false ->
  respects (guarded any_call same_media) (reconcile env type job r).
Proof.
  intros Hw. unfold reconcile. destruct (truthy (is_nsfw r)).
  - apply quarantinePath_guarded; tc_solve.
  - apply commitPath_respects; [tc_solve|done|].
    intros st r0 st' evs H.
    rewrite createMediaItem_no_width in H by done.
    inversion H; subst. by split.
Qed.

Lemma loopBody_no_width env rb type job completed st c' st' evs :
  (forall r, validVerdict (rb !! id job) = Some r -> truthy (width r) = false) ->
  loopBody env rb type job completed st = (Ok c', st', evs) ->
  c' = completed \/
  c' = completed ++ [job] /\
  exists r, validVerdict (rb !! id job) = Some r /\ truthy (is_nsfw r) = true.
Proof.
  intros Hw H.
  destruct (loopBody_returns env rb type job completed st)
    as (c & s & e & E & Hc).
  rewrite E in H. inversion H; subst. clear H.
  destruct Hc as [Hc|[Hc [r Hv]]]; [by left|].
  destruct (truthy (is_nsfw r)) eqn:En; [right; eauto|].
  left. unfold loopBody in E. rewrite Hv in E. unfold reconcile in E.
  rewrite En in E.
  destruct (commitPath_no_width env job r (getTargetBucket (linked_to_type job))
              (getTargetKey job) st (Hw r Hv)) as (s1 & e1 & E1).
  rewrite (perJobTry_ok _ _ _ _ _ _ _ _ E1) in E. by inversion E.
Qed.

Lemma reconcileJobs_no_width env rb type jobs completed st c' st' evs :
  (forall job r, In job jobs -> validVerdict (rb !! id job) = Some r ->
     truthy (width r) = false) ->
  reconcileJobs env rb type jobs completed st = (Ok c', st', evs) ->
  forall j, In j c' ->
    In j completed \/
    exists r, validVerdict (rb !! id j) = Some r /\ truthy (is_nsfw r) = true.
Proof.
  revert completed st evs.
  induction jobs as [|job rest IH]; intros completed st evs Hw H j Hj; simpl in H.
  - inversion H; subst. by left.
  - rewrite bind_run in H.
    destruct (loopBody env rb type job completed st) as [[[c1|err] s1] e1] eqn:E1;
      [|discriminate].
    destruct (reconcileJobs env rb type rest c1 s1) as [[r2 s2] e2] eqn:E2.
    inversion H; subst. clear H.
    destruct (IH c1 s1 e2 (fun job r Hin => Hw job r (or_intror Hin)) E2 j Hj)
      as [Hj1|Hn]; [|by right].
    apply loopBody_no_width in E1 as [->|[-> Hn]];
      [by left| |intros r; apply Hw; by left].
    apply in_app_or in Hj1 as [Hj1|[<-|[]]]; [by left|by right].
Qed.

Lemma finishBatch_calls env completed st r st' evs c :
  finishBatch env completed st = (r, st', evs) ->
  In (ECall (CMarkJobsAsComplete c)) evs -> c = completed.
Proof.
  intros H Hin.
  assert (marks_only completed (CMarkJobsAsComplete completed)) as Hm
    by (intros js Heq; by inversion Heq).
  destruct (finishBatch_respects env (marks_only completed) any_state completed
              Hm (fun _ => I) _ _ _ _ H) as [Hc _].
  by apply (Hc _ Hin).
Qed.

Lemma fetchResults_small_images env jobs :
  (length jobs <= 16)%nat ->
  fetchResults env jobs "images" = safeSearchFromUrls env jobs.
Proof.
  intros Hlen. unfold fetchResults.
  apply Nat.leb_le in Hlen. by rewrite Hlen.
Qed.

(** X7. An image batch of at most sixteen jobs never adds a row to the
    approved-media store: the Vision verdicts carry no dimensions, so
    every [createMediaItem] is refused. The only jobs such a scan hands to
    [markJobsAsComplete] are jobs with an unsafe verdict. *)
Theorem small_image_batch_never_records env jobs st r st' evs :
  (length jobs <= 16)%nat ->
  scanMediaJobs env jobs "images" st = (r, st', evs) ->
  media (db st') = media (db st) /\
  forall completed job results st1 evs1,
    fetchResults env jobs "images" st = (Ok results, st1, evs1) ->
    In (ECall (CMarkJobsAsComplete completed)) evs -> In job completed ->
    exists v, verdictOf results job = Some v /\ is_nsfw v = VBool true.
Proof.
  intros Hlen Hrun.
  assert (forall results st1 evs1 l job r0,
    fetchResults env jobs "images" st = (Ok results, st1, evs1) ->
    entries results = Some l ->
    validVerdict (fromEntries l !! id job) = Some r0 ->
    truthy (width r0) = false) as Hwidth.
  { intros results st1 evs1 l job r0 Hf El Hv.
    rewrite fetchResults_small_images in Hf by done.
    apply safeSearchFromUrls_run in Hf as (responses & _ & _ & -> & _).
    apply validVerdict_Some in Hv as [Hv _].
    apply fromEntries_lookup_In in Hv.
    apply (entries_Some_In _ _ El) in Hv as [Hv _].
    apply list_elem_of_In, elem_of_lookup_zip_with in Hv
      as (i & j & res & Heq & _). by inversion Heq. }
  split.
  - destruct (fetchResults env jobs "images" st) as [[[results|err] st1] evs1] eqn:Hf.
    + apply (scan_after_fetch env any_call same_media _ _ _ _ _ _ _ _ _ Hrun Hf).
      * done.
      * intros l job r0 El _ Hv. apply reconcile_no_width.
        by apply (Hwidth _ _ _ _ _ _ eq_refl El Hv).
      * done.
    + unfold scanMediaJobs in Hrun. cbn [existsb String.eqb Ascii.eqb Bool.eqb orb negb] in Hrun.
      rewrite (bind_throw _ _ _ _ _ _ Hf) in Hrun. inversion Hrun; subst.
      by destruct (fetchResults_guarded env any_call same_media jobs "images" I
                     _ _ _ _ Hf).
  - intros completed job results st1 evs1 Hf Hin Hj.
    unfold scanMediaJobs in Hrun. cbn [existsb String.eqb Ascii.eqb Bool.eqb orb negb] in Hrun.
    rewrite (bind_ok _ _ _ _ _ _ Hf) in Hrun.
    assert (~ In (ECall (CMarkJobsAsComplete completed)) evs1) as Hno1.
    { intros Hc.
      assert (not_mark (CSafeSearch jobs)) as Hs by done.
      destruct (fetchResults_guarded env not_mark any_state jobs "images" Hs
                  _ _ _ _ Hf) as [Hg _].
      by apply (Hg _ Hc completed). }
    destruct (entries results) as [l|] eqn:El.
    + assert (forall j, In j jobs ->
                commit_allowed not_mark any_state (fromEntries l) j) as Hca
        by (by intros ? ? ? ? ?).
      rewrite (bind_ok _ _ _ _ _ _ (indexResults_run _ _ _ El)) in Hrun.
      rewrite bind_run in Hrun.
      destruct (reconcileJobs env (fromEntries l) "images" jobs [] st1)
        as [[[c|err] st2] e2] eqn:E2.
      * destruct (finishBatch env c st2) as [[r3 st3] e3] eqn:E3.
        inversion Hrun; subst. clear Hrun.
        assert (completed = c) as ->.
        { apply in_app_or in Hin as [Hin|Hin]; [done|].
          cbn [app] in Hin. apply in_app_or in Hin as [Hin|Hin].
          - exfalso.
            destruct (reconcileJobs_guarded env not_mark any_state
                        (fromEntries l) "images" jobs [] Hca _ _ _ _ E2) as [Hg _].
            by apply (Hg _ Hin completed).
          - by apply (finishBatch_calls _ _ _ _ _ _ _ E3). }
        destruct (reconcileJobs_no_width _ _ _ _ _ _ _ _ _
                    (fun job r0 _ Hv => Hwidth _ _ _ _ _ _ Hf El Hv) E2 job Hj)
          as [[]|(r0 & Hv & Hn)].
        apply validVerdict_Some in Hv as [Hv [b Hb]].
        exists r0. unfold verdictOf. rewrite El. split; [exact Hv|].
        rewrite Hb in Hn |- *. simpl in Hn. by rewrite Hn.
      * inversion Hrun; subst. clear Hrun. exfalso.
        apply in_app_or in Hin as [Hin|Hin]; [done|].
        cbn [app] in Hin.
        destruct (reconcileJobs_guarded env not_mark any_state
                    (fromEntries l) "images" jobs [] Hca _ _ _ _ E2) as [Hg _].
        by apply (Hg _ Hin completed).
    + assert (indexResults results st1
              = (Throw "Cannot read properties of null (reading 'job_id')", st1, []))
        as Hi by (unfold indexResults; by rewrite El).
      rewrite (bind_throw _ _ _ _ _ _ Hi) in Hrun.
      inversion Hrun; subst. rewrite app_nil_r in Hin. done.
Qed.


(** ** Batches without an unsafe verdict *)

Global Instance not_penalising_permissive :
  Permissive not_penalising same_penalties.
Proof.
  split; unfold same_penalties, not_penalising; try done.
  - intros st1 st2 st3 [H1 H2] [H3 H4]. split; congruence.
  - intros l. simpl. tauto.
Qed.

Lemma getTargetBucket_not_quarantine lt : getTargetBucket lt <> "quarantine".
Proof.
  unfold getTargetBucket.
  destruct (bucketMap !! to_str lt) as [b|] eqn:E; [|discriminate].
  rewrite (bucketMap_values_truthy _ _ E).
  apply elem_of_list_to_map_2 in E.
  repeat (apply elem_of_cons in E as [E|E]; [inversion E; subst; discriminate|]).
  by apply elem_of_nil in E.
Qed.

(** X8. A scan in which no job of the batch has an unsafe verdict
    penalises nobody: it adds no blocked hash and no upload restriction,
    calls neither [addBlockedHash] nor [restrictUserMediaUploads], and
    moves nothing to the quarantine bucket. *)
Theorem safe_batch_never_penalises env jobs type st r st' evs results st1 evs1 :
  scanMediaJobs env jobs type st = (r, st', evs) ->
  fetchResults env jobs type st = (Ok results, st1, evs1) ->
  (forall job v, In job jobs -> verdictOf results job = Some v ->
     is_nsfw v <> VBool true) ->
  (forall c, In (ECall c) evs -> not_penalising c) /\ same_penalties st st'.
Proof.
  intros Hrun Hf Hsafe.
  apply (scan_after_fetch env not_penalising same_penalties
           _ _ _ _ _ _ _ _ _ Hrun Hf).
  - unfold not_penalising. simpl. tauto.
  - intros l job r0 El Hj Hv.
    apply validVerdict_Some in Hv as [Hv [b Hb]].
    assert (b = false) as ->.
    { destruct b; [|done]. exfalso. apply (Hsafe job r0 Hj); [|done].
      unfold verdictOf. by rewrite El. }
    unfold reconcile. rewrite Hb. cbn [truthy].
    apply commitPath_respects; [tc_solve| |].
    + unfold not_penalising. simpl. intros Heq. inversion Heq.
      by eapply getTargetBucket_not_quarantine.
    + apply createMediaItem_guarded; [tc_solve| |].
      * unfold not_penalising. simpl. tauto.
      * intros row st0 _. by split.
  - intros completed. split.
    + unfold not_penalising. simpl. tauto.
    + intros st0. by split.
Qed.

(** X9. The restriction step of the quarantine path returns whether or
    not the restriction was stored, and writes no audit event: when the
    insert fails no restriction is added, and the failure reaches the
    console only. *)
Theorem restriction_failure_is_silent env job st :
  exists st' evs,
    quarantineRestrictUser env job st = (Ok tt, st', evs) /\
    calls evs = [CRestrictUser (user_id job)] /\
    logs (db st') = logs (db st) /\
    users_bans (db st') =
      match supabase_error env (tick st) with
      | None => users_bans (db st) ++ [user_id job]
      | Some _ => users_bans (db st)
      end.
Proof.
  cbv [quarantineRestrictUser try_catch restrictUserMediaUploads supabase mbind
       M_bind bind console emit next_op modify mret M_ret ret].
  destruct (supabase_error env (tick st)); eexists _, _;
    (split; [reflexivity|]); by repeat split.
Qed.

(** ** Storage and the store *)

(** X10. A move between buckets deletes the source object only after the
    copy succeeded: a run either sends the copy alone, which failed, or
    the copy, which succeeded, followed by the delete; the move throws
    exactly when one of the two commands failed, with that command's
    error. *)
Theorem move_deletes_only_after_copy env a st :
  let copy := CopyObjectCommand (toBucket a)
                (to_str (fromBucket a) +:+ "/" +:+ to_str (fromKey a)) (toKey a) in
  let delete := DeleteObjectCommand (fromBucket a) (fromKey a) in
  exists r st' evs,
    moveObjectWithinBuckets env a st = (r, st', evs) /\
    db st' = db st /\
    match s3_send_error env (tick st) with
    | Some err =>
        r = Throw err /\ evs = [ECall (CMove a); ES3Send copy (Some err)]
    | None =>
        evs = [ECall (CMove a); ES3Send copy None;
               ES3Send delete (s3_send_error env (S (tick st)))] /\
        r = match s3_send_error env (S (tick st)) with
            | Some err => Throw err
            | None => Ok tt
            end
    end.
Proof.
  cbv [moveObjectWithinBuckets s3_send mbind M_bind bind emit next_op mret M_ret
       ret throw].
  destruct (s3_send_error env (tick st)); simpl.
  - eexists _, _, _. by repeat split.
  - destruct (s3_send_error env (S (tick st))); eexists _, _, _; by repeat split.
Qed.


(** X11. [createMediaItem] either stores exactly one row or leaves the
    store as it was. The row it stores is approved, carries the job id and
    truthy dimensions, has a string MIME type, is an image exactly when
    that type starts with [image], and carries a duration when the type
    starts with [video] and a null duration otherwise. *)
Theorem createMediaItem_outcomes env m st r st' evs :
  createMediaItem env m st = (r, st', evs) ->
  calls evs = [CCreateMediaItem m] /\
  match r with
  | Ok _ =>
      exists row,
        media (db st') = media (db st) ++ [row] /\ approved_row m row /\
        media_jobs (db st') = media_jobs (db st)
  | Throw _ => db st' = db st
  end.
Proof.
  intros H. unfold createMediaItem in H.
  rewrite (bind_ok _ _ _ tt st [ECall (CCreateMediaItem m)]) in H by reflexivity.
  match type of H with
  | context [if ?c then throw _ else _] => destruct c eqn:Ec
  end.
  { inversion H; subst. by split. }
  repeat (apply orb_false_iff in Ec as [Ec ?]).
  repeat match goal with
         | Hn : negb _ = false |- _ => apply negb_false_iff in Hn
         end.
  match type of H with
  | context [if ?c then throw _ else _] => destruct c eqn:En
  end.
  { inversion H; subst. by split. }
  destruct (mi_mime_type m) as [| |b|n|mime] eqn:Em;
    try (cbn in H; inversion H; subst; by split).
  cbn [starts_with] in H. rewrite !bind_run in H. cbn [mret M_ret ret] in H.
  match type of H with
  | context [if ?c then throw _ else _] => destruct c eqn:Ed
  end.
  { inversion H; subst. by split. }
  rewrite bind_run in H. cbn [mret M_ret ret] in H. rewrite bind_run in H.
  unfold supabase in H.
  cbv [mbind M_bind bind next_op emit modify mret M_ret ret throw console] in H.
  destruct (supabase_error env (tick st)) as [err|]; inversion H; subst; clear H;
    (split; [reflexivity|]); [reflexivity|].
  eexists. split; [reflexivity|]. split; [|reflexivity].
  unfold approved_row, media_row. cbn. rewrite Em.
  repeat split; try assumption.
  exists mime. repeat split.
  destruct (String.prefix "video" mime); [|reflexivity].
  by simpl in Ed.
Qed.

Lemma pending_set_complete ids rows :
  map row_job (filter (fun r => status r = Pending) (map (complete_row ids) rows))
  = filter (fun j => id j ∉ ids)
      (map row_job (filter (fun r => status r = Pending) rows)).
Proof.
  induction rows as [|r rows IH]; [done|].
  cbn [map]. destruct (decide (id (row_job r) ∈ ids)) as [Hin|Hnin].
  - assert (complete_row ids r = mkJobRow (row_job r) Complete) as ->
      by (unfold complete_row; by rewrite bool_decide_eq_true_2).
    rewrite !filter_cons. cbn [status].
    destruct (decide (Complete = Pending)); [discriminate|].
    destruct (decide (status r = Pending)); [|exact IH].
    cbn [map]. rewrite filter_cons.
    destruct (decide (id (row_job r) ∉ ids)); [contradiction|exact IH].
  - assert (complete_row ids r = r) as ->
      by (unfold complete_row; by rewrite bool_decide_eq_false_2).
    rewrite !filter_cons.
    destruct (decide (status r = Pending)); [|exact IH].
    cbn [map]. rewrite filter_cons.
    destruct (decide (id (row_job r) ∉ ids)); [|contradiction].
    by rewrite IH.
Qed.

Lemma filter_not_in_nil (l : list Job) :
  filter (fun j => id j ∉ @nil string) l = l.
Proof.
  induction l as [|j l IH]; [done|].
  rewrite filter_cons. destruct (decide (id j ∉ [])) as [_|Hn].
  - by rewrite IH.
  - exfalso. apply Hn. apply not_elem_of_nil.
Qed.

(** X12. Jobs marked as complete are no longer pending: after
    [markJobsAsComplete] returns, the pending jobs, which are what
    [getPendingMediaJobs] returns and the recovery re-admits, are the
    jobs pending before whose id is not among the marked ones, in the same
    order. When it throws, no table has changed. *)
Theorem completed_jobs_leave_pending env jobs st r st' evs :
  markJobsAsComplete env jobs st = (r, st', evs) ->
  match r with
  | Ok _ =>
      pending (db st') = filter (fun j => id j ∉ map id jobs) (pending (db st)) /\
      forall st2 evs2 pend,
        getPendingMediaJobs env st' = (Ok pend, st2, evs2) ->
        forall j, In j pend <-> In j (pending (db st)) /\ ~ In (id j) (map id jobs)
  | Throw _ => db st' = db st
  end.
Proof.
  intros H.
  assert (match r with
          | Ok _ => pending (db st')
                    = filter (fun j => id j ∉ map id jobs) (pending (db st))
          | Throw _ => db st' = db st
          end) as Hp.
  { unfold markJobsAsComplete in H.
    rewrite (bind_ok _ _ _ tt st [ECall (CMarkJobsAsComplete jobs)]) in H
      by reflexivity.
    destruct jobs as [|j0 jobs].
    - inversion H; subst. cbn [map]. by rewrite filter_not_in_nil.
    - cbn [length Nat.eqb] in H. unfold supabase in H.
      cbv [mbind M_bind bind next_op emit modify mret M_ret ret throw] in H.
      destruct (supabase_error env (tick st)) as [err|]; inversion H; subst;
        [reflexivity|].
      unfold pending. cbn [db set_db set_complete media_jobs].
      apply pending_set_complete. }
  destruct r as [[]|err]; [|exact Hp]. split; [exact Hp|].
  intros st2 evs2 pend Hg j.
  assert (pend = pending (db st')) as ->.
  { unfold getPendingMediaJobs, supabase in Hg.
    cbv [mbind M_bind bind get next_op emit modify mret M_ret ret throw] in Hg.
    destruct (supabase_error env (tick st')); inversion Hg. reflexivity. }
  rewrite Hp, <- !list_elem_of_In, list_elem_of_filter. tauto.
Qed.


(** ** The queue: scans and timers *)

Global Instance events_ok_compositional okE : Compositional (events_ok okE).
Proof.
  split; unfold events_ok.
  - intros _. constructor.
  - intros _ _ _ e1 e2 H1 H2. by apply Forall_app.
Qed.

Lemma take_well_formed (n : nat) (q : list Job) :
  (length q =? 0)%nat = false -> (0 < n)%nat ->
  take n q <> [] /\ (length (take n q) <= n)%nat.
Proof.
  intros Hq Hn. destruct q as [|j q]; [discriminate|].
  destruct n as [|n]; [lia|]. split; [discriminate|].
  rewrite length_take. lia.
Qed.

Section WellFormed.
Context (env : Env).
Abbreviation W := (events_ok well_formed_event).

Local Ltac leaf :=
  first [ assumption
        | apply (respects_emit W); intros ?; by repeat constructor
        | apply (respects_modify W); intros ?; by constructor
        | apply (respects_next_op W); intros ?; by constructor ].
Local Ltac go := repeat first [ solve [ leaf ] | respects_step ].

Lemma maybeFlushImages_wf : respects W maybeFlushImages.
Proof.
  intros st r st' evs H. rewrite maybeFlushImages_run in H.
  destruct (imageScanning (qs st) || _) eqn:Ec; inversion H; subst;
    [constructor|].
  apply orb_false_iff in Ec as [_ Ec].
  destruct (take_well_formed IMAGE_BATCH_SIZE _ Ec) as [Hne Hlen];
    [unfold IMAGE_BATCH_SIZE; lia|].
  constructor; [|constructor]. simpl. auto.
Qed.

Lemma maybeFlushVideos_wf : respects W maybeFlushVideos.
Proof.
  intros st r st' evs H. rewrite maybeFlushVideos_run in H.
  destruct (videoScanning (qs st) || _) eqn:Ec; inversion H; subst;
    [constructor|].
  apply orb_false_iff in Ec as [_ Ec].
  destruct (take_well_formed VIDEO_BATCH_SIZE _ Ec) as [Hne Hlen];
    [unfold VIDEO_BATCH_SIZE; lia|].
  constructor; [|constructor]. simpl. auto.
Qed.

Lemma scheduleFlush_wf isVideo : respects W (scheduleFlush env isVideo).
Proof.
  unfold scheduleFlush, Date_now.
  apply (respects_bind W); [go|]. intros now. destruct isVideo.
  - apply (respects_bind W); [go|]. intros st0.
    apply (respects_bind W); [go|]. intros _.
    apply (respects_bind W); [go|]. intros _.
    apply (respects_bind W); [go|]. intros _.
    apply (respects_bind W); [go|]. intros st1. cbv zeta.
    destruct (_ || _) eqn:Ec.
    + go. apply maybeFlushVideos_wf.
    + apply orb_false_iff in Ec as [Ec _]. apply Z.leb_gt in Ec.
      apply (respects_bind W); [|intros _; go].
      apply (respects_emit W). intros ?. constructor; [|constructor].
      unfold well_formed_event, timer_interval, VIDEO_MAX_WAIT, VIDEO_INTERVAL in *.
      lia.
  - apply (respects_bind W); [go|]. intros st0.
    apply (respects_bind W); [go|]. intros _.
    apply (respects_bind W); [go|]. intros _.
    apply (respects_bind W); [go|]. intros _.
    apply (respects_bind W); [go|]. intros st1. cbv zeta.
    destruct (_ || _) eqn:Ec.
    + go. apply maybeFlushImages_wf.
    + apply orb_false_iff in Ec as [Ec _]. apply Z.leb_gt in Ec.
      apply (respects_bind W); [|intros _; go].
      apply (respects_emit W). intros ?. constructor; [|constructor].
      unfold well_formed_event, timer_interval, IMAGE_MAX_WAIT, IMAGE_INTERVAL in *.
      lia.
Qed.

Lemma queueMediaJob_wf job : respects W (queueMediaJob env job).
Proof.
  unfold queueMediaJob, starts_with.
  go; apply scheduleFlush_wf.
Qed.

Lemma logSystemEvent_wf l : respects W (logSystemEvent env l).
Proof. unfold logSystemEvent, supabase. go. Qed.

Lemma recoverJob_wf job : respects W (recoverJob env job).
Proof.
  unfold recoverJob, detached, generateSignedGetUrl.
  go; first [ apply queueMediaJob_wf | apply logSystemEvent_wf ].
Qed.

Lemma recoverJobs_wf jobs : respects W (recoverJobs env jobs).
Proof.
  induction jobs as [|job rest IH]; simpl; [go|].
  respects_step; [apply recoverJob_wf|exact IH].
Qed.

Lemma recovery_wf : respects W (recovery env).
Proof.
  unfold recovery, getPendingMediaJobs, supabase.
  go; first [ apply recoverJobs_wf | apply scheduleFlush_wf ].
Qed.

End WellFormed.

(** X13. Whatever the queue module is asked to do, a job enqueued, a
    timer firing, a scan settling or the recovery, every scan it starts
    is of a known class on a batch that is not empty and no longer than
    the batch size of the class, and every timer it arms has a positive
    delay no longer than the flush interval of its class. *)
Theorem queue_scans_and_timers_well_formed env :
  (forall job, respects (events_ok well_formed_event) (queueMediaJob env job)) /\
  respects (events_ok well_formed_event) imageTimerCallback /\
  respects (events_ok well_formed_event) videoTimerCallback /\
  respects (events_ok well_formed_event) (imageScanSettled env) /\
  respects (events_ok well_formed_event) (videoScanSettled env) /\
  respects (events_ok well_formed_event) (recovery env).
Proof.
  split; [apply queueMediaJob_wf|].
  split; [|split; [|split; [|split]]].
  - unfold imageTimerCallback. respects_step; [|apply maybeFlushImages_wf].
    apply (respects_modify (events_ok well_formed_event)). intros ?. constructor.
  - unfold videoTimerCallback. respects_step; [|apply maybeFlushVideos_wf].
    apply (respects_modify (events_ok well_formed_event)). intros ?. constructor.
  - unfold imageScanSettled.
    respects_step;
      [apply (respects_modify (events_ok well_formed_event)); intros ?; constructor|].
    repeat respects_step. apply scheduleFlush_wf.
  - unfold videoScanSettled.
    respects_step;
      [apply (respects_modify (events_ok well_formed_event)); intros ?; constructor|].
    repeat respects_step. apply scheduleFlush_wf.
  - apply recovery_wf.
Qed.

(** X14. A job whose MIME type is not a string is never enqueued:
    [queueMediaJob] throws before it touches a queue, a timer or a scan,
    and the recovery, which drops the promise of the call, goes on without
    the job, leaving the rejection unhandled. *)
Theorem untyped_job_never_enqueued env job st :
  is_string (mime_type job) = false ->
  (exists err,
     queueMediaJob env job st = (Throw err, st, [ECall (CQueueMediaJob job)])) /\
  (forall u, valid_file_name job = true ->
     presign env (tick st) = SignReturns u -> truthy u = true ->
     exists err,
       recoverJob env job st
       = (Ok tt, bump st,
          [EPresign (file_name job) (SignReturns u);
           ECall (CQueueMediaJob (set_url job u));
           EUnhandledRejection err])).
Proof.
  intros Hm. split.
  - unfold queueMediaJob, starts_with.
    destruct (mime_type job); try discriminate; by eexists.
  - intros u Hv Hp Hu. unfold valid_file_name in Hv.
    apply andb_true_iff in Hv as [Hv1 Hv2].
    unfold recoverJob. rewrite Hv1, Hv2. cbn [negb orb].
    unfold generateSignedGetUrl, detached, queueMediaJob, starts_with, bump.
    cbv [try_catch mbind M_bind bind next_op emit console]. rewrite Hp.
    cbv [mret M_ret ret]. rewrite Hu. cbn [negb set_url mime_type].
    destruct (mime_type job); try discriminate; by eexists.
Qed.


(** ** The rate limiter *)

Lemma checkRateLimit_spammer now key l :
  isSpammer key l = true -> checkRateLimit now key l = (false, l).
Proof. intros H. unfold checkRateLimit. by rewrite H. Qed.

Lemma checkRateLimit_run now key l :
  isSpammer key l = false ->
  let ts := recent now (stored key l) ++ [now] in
  let r := checkRateLimit now key l in
  rateLimits r.2 = <[key := ts]> (rateLimits l) /\
  r.1 = (negb (SPAM_THRESHOLD <? length ts)%nat
         && (length ts <=? LIMIT_PER_MINUTE)%nat) /\
  if (SPAM_THRESHOLD <? length ts)%nat
  then spammerSet r.2 = spammerSet l ++ [key] /\
       spamFile r.2 = Some (spammerSet r.2)
  else spammerSet r.2 = spammerSet l /\ spamFile r.2 = spamFile l.
Proof.
  intros Hs. unfold checkRateLimit, stored, recent. rewrite Hs. cbv zeta.
  assert (forall m : gmap jsval (list Z),
    default [] (match m !! key with Some _ => m | None => <[key := []]> m end !! key)
    = default [] (m !! key) /\
    <[key := recent now (default [] (m !! key)) ++ [now]]>
      match m !! key with Some _ => m | None => <[key := []]> m end
    = <[key := recent now (default [] (m !! key)) ++ [now]]> m) as Hm.
  { intros m. destruct (m !! key) as [ts|] eqn:E.
    - by rewrite E.
    - rewrite lookup_insert_eq. split; [done|]. by rewrite insert_insert_eq. }
  destruct (Hm (rateLimits l)) as [H1 H2]. unfold recent in H2.
  rewrite H1.
  destruct (SPAM_THRESHOLD <? _)%nat eqn:Et; cbn [fst snd rateLimits spammerSet
    spamFile saveSpammersToDisk negb andb].
  - split; [exact H2|]. split; [reflexivity|].
    unfold set_add. unfold isSpammer in Hs. rewrite Hs. by split.
  - split; [exact H2|]. by repeat split.
Qed.

Lemma recent_recent t now l :
  (t <= now)%Z -> recent now (recent t l) = recent now l.
Proof.
  intros Hle. unfold recent. induction l as [|x l IH]; [done|].
  rewrite (filter_cons _ x l).
  destruct (decide (t - x < WINDOW_MS)%Z) as [Hx|Hx].
  - rewrite !filter_cons. destruct (decide (now - x < WINDOW_MS)%Z); by rewrite IH.
  - rewrite IH, (filter_cons _ x l).
    destruct (decide (now - x < WINDOW_MS)%Z); [lia|done].
Qed.

Lemma recent_app now a b : recent now (a ++ b) = recent now a ++ recent now b.
Proof. unfold recent. apply filter_app. Qed.

Lemma checkAll_effective key times :
  forall prev l,
    StronglySorted Z.le times ->
    Forall (fun p => Forall (Z.le p) times) prev ->
    (isSpammer key l = true \/
     forall now, Forall (fun p => (p <= now)%Z) prev ->
       recent now (stored key l) = recent now prev) ->
    forall i now,
      times !! i = Some now ->
      (checkAll key times l).1 !! i = Some true ->
      (length (recent now (prev ++ take i times)) < LIMIT_PER_MINUTE)%nat.
Proof.
  induction times as [|t rest IH]; intros prev l Hsort Hprev Hinv i now Hi Hr;
    [done|].
  apply StronglySorted_inv in Hsort as [Hsort Hle].
  assert (Forall (fun p => (p <= t)%Z) prev) as Hpt.
  { eapply Forall_impl; [exact Hprev|]. intros p Hp. by inversion Hp. }
  destruct i as [|i]; cbn [checkAll fst snd] in Hr.
  - inversion Hi; subst. inversion Hr as [Hb]. rewrite app_nil_r.
    destruct (isSpammer key l) eqn:Hs.
    { by rewrite checkRateLimit_spammer in Hb. }
    destruct Hinv as [?|Hinv]; [done|].
    destruct (checkRateLimit_run now key l Hs) as (_ & Hres & _).
    rewrite Hb in Hres. symmetry in Hres. apply andb_true_iff in Hres as [_ Hres].
    apply Nat.leb_le in Hres. rewrite length_app, (Hinv now Hpt) in Hres.
    simpl in Hres. lia.
  - cbn [lookup list_lookup] in Hi, Hr.
    replace (prev ++ take (S i) (t :: rest)) with ((prev ++ [t]) ++ take i rest)
      by (by rewrite <- app_assoc).
    apply (IH (prev ++ [t]) (checkRateLimit t key l).2 Hsort); try done.
    + apply Forall_app. split.
      * eapply Forall_impl; [exact Hprev|]. intros p Hp. by inversion Hp.
      * by constructor.
    + destruct (isSpammer key l) eqn:Hs.
      { left. by rewrite checkRateLimit_spammer. }
      destruct Hinv as [?|Hinv]; [done|].
      destruct (checkRateLimit_run t key l Hs) as (Hmap & _ & Hflag).
      cbv zeta in Hmap, Hflag.
      destruct (SPAM_THRESHOLD <? _)%nat.
      * left. destruct Hflag as [Hset _]. unfold isSpammer. rewrite Hset.
        apply bool_decide_eq_true. apply elem_of_app. right. by left.
      * right. intros now2 Hall. apply Forall_app in Hall as [Hall Ht].
        inversion Ht; subst.
        unfold stored at 1. rewrite Hmap, lookup_insert_eq. cbn [default].
        change (recent now2 (recent t (stored key l) ++ [t])
                = recent now2 (prev ++ [t])).
        rewrite !recent_app, recent_recent by done.
        by rewrite (Hinv now2 Hall).
Qed.

(** X15. The limit is effective: when the requests of a key arrive at
    non-decreasing times, starting with no timestamps held for the key, a
    request is let through only if fewer than [LIMIT_PER_MINUTE] earlier
    requests of the key, let through or refused, fall within the minute
    before it. *)
Theorem rate_limit_effective key times l i now :
  StronglySorted Z.le times ->
  rateLimits l !! key = None ->
  times !! i = Some now ->
  (checkAll key times l).1 !! i = Some true ->
  (length (recent now (take i times)) < LIMIT_PER_MINUTE)%nat.
Proof.
  intros Hsort Hnone Hi Hr.
  apply (checkAll_effective key times [] l Hsort); try done.
  right. intros now0 _. unfold stored. by rewrite Hnone.
Qed.


Lemma checkAll_spammer key times l :
  isSpammer key l = true ->
  checkAll key times l = (map (fun _ => false) times, l).
Proof.
  intros Hs. induction times as [|t rest IH]; [done|].
  cbn [checkAll map]. rewrite checkRateLimit_spammer by done.
  cbn [fst snd]. by rewrite IH.
Qed.

Lemma set_delete_not_elem key s : key ∉ set_delete key s.
Proof. unfold set_delete. rewrite list_elem_of_filter. tauto. Qed.

(** X16. A request that finds [SPAM_THRESHOLD] or more timestamps of its
    key within the window is refused and flags the key: the key joins the
    spammer set, the set is written to the file, and from then on every
    request of the key is refused, at whatever time, without any change
    of the state. Clearing the key takes it out of the set and writes the
    set to the file again, but keeps the timestamps of the key. *)
Theorem flagged_key_locked_out now key l :
  isSpammer key l = false ->
  (SPAM_THRESHOLD <= length (recent now (stored key l)))%nat ->
  let l' := (checkRateLimit now key l).2 in
  (checkRateLimit now key l).1 = false /\
  isSpammer key l' = true /\
  spamFile l' = Some (spammerSet l') /\
  (forall times, checkAll key times l' = (map (fun _ => false) times, l')) /\
  isSpammer key (clearFromSpammerList key l') = false /\
  spamFile (clearFromSpammerList key l')
  = Some (spammerSet (clearFromSpammerList key l')) /\
  stored key (clearFromSpammerList key l') = recent now (stored key l) ++ [now].
Proof.
  intros Hs Hlen. cbv zeta.
  destruct (checkRateLimit_run now key l Hs) as (Hmap & Hres & Hflag).
  cbv zeta in Hmap, Hres, Hflag.
  assert ((SPAM_THRESHOLD <? length (recent now (stored key l) ++ [now]))%nat = true)
    as Ht.
  { apply Nat.ltb_lt. rewrite length_app. simpl. lia. }
  rewrite Ht in Hres, Hflag. destruct Hflag as [Hset Hfile].
  assert (isSpammer key (checkRateLimit now key l).2 = true) as Hs'.
  { unfold isSpammer. rewrite Hset. apply bool_decide_eq_true.
    apply elem_of_app. right. by left. }
  split; [exact Hres|]. split; [exact Hs'|]. split; [exact Hfile|].
  split; [intros times; by apply checkAll_spammer|].
  unfold clearFromSpammerList. unfold isSpammer in Hs'. rewrite Hs'.
  split; [|split; [reflexivity|]].
  - apply bool_decide_eq_false. apply set_delete_not_elem.
  - unfold stored, saveSpammersToDisk. cbn [rateLimits].
    by rewrite Hmap, lookup_insert_eq.
Qed.

(** X17. The keys do not interfere: a request or a clearing for one key
    changes neither the timestamps nor the spammer status of another key,
    nor the answer to any later request of that key. *)
Theorem rate_limit_keys_independent now key other l :
  other <> key ->
  (forall l', l' = (checkRateLimit now key l).2 \/ l' = clearFromSpammerList key l ->
     rateLimits l' !! other = rateLimits l !! other /\
     isSpammer other l' = isSpammer other l /\
     forall now', (checkRateLimit now' other l').1 = (checkRateLimit now' other l).1).
Proof.
  intros Hne l' Hl'.
  assert (rateLimits l' !! other = rateLimits l !! other /\
          isSpammer other l' = isSpammer other l) as [Hm Hsp].
  { destruct Hl' as [->| ->].
    - destruct (isSpammer key l) eqn:Hs.
      { by rewrite checkRateLimit_spammer. }
      destruct (checkRateLimit_run now key l Hs) as (Hmap & _ & Hflag).
      cbv zeta in Hmap, Hflag. rewrite Hmap, lookup_insert_ne by done.
      split; [done|]. unfold isSpammer.
      destruct (SPAM_THRESHOLD <? _)%nat; destruct Hflag as [-> _]; [|done].
      apply bool_decide_ext. rewrite elem_of_app, list_elem_of_singleton. tauto.
    - unfold clearFromSpammerList.
      destruct (bool_decide (key ∈ spammerSet l)); [|done].
      cbn [saveSpammersToDisk rateLimits isSpammer spammerSet]. split; [done|].
      apply bool_decide_ext. unfold set_delete, saveSpammersToDisk.
      cbn [spammerSet]. rewrite list_elem_of_filter. tauto. }
  split; [exact Hm|]. split; [exact Hsp|]. intros now'.
  destruct (isSpammer other l) eqn:Hs.
  - by rewrite !checkRateLimit_spammer.
  - destruct (checkRateLimit_run now' other l Hs) as (_ & Hr1 & _).
    destruct (checkRateLimit_run now' other l' Hsp) as (_ & Hr2 & _).
    cbv zeta in Hr1, Hr2. rewrite Hr1, Hr2. unfold stored. by rewrite Hm.
Qed.


(** ** The upload routes *)

Lemma split_no_sep sep s : contains sep s = false -> split sep s = [s].
Proof.
  induction s as [|c s IH]; [done|]. cbn [contains split].
  intros H. apply orb_false_iff in H as [Hc Hs]. by rewrite Hc, (IH Hs).
Qed.

Lemma split_app_sep sep a b :
  contains sep a = false -> split sep (a +:+ String sep b) = a :: split sep b.
Proof.
  induction a as [|c a IH]; simpl.
  - intros _. by rewrite Ascii.eqb_refl.
  - intros H. apply orb_false_iff in H as [Hc Hs]. by rewrite Hc, (IH Hs).
Qed.

Lemma contains_app c a b : contains c (a +:+ b) = contains c a || contains c b.
Proof.
  induction a as [|c' a IH]; [done|]. simpl.
  by rewrite IH, orb_assoc.
Qed.

Lemma contains_substring c s : forall n m,
  contains c s = false -> contains c (String.substring n m s) = false.
Proof.
  induction s as [|c' s IH]; intros n m H.
  - by destruct n, m.
  - cbn [contains] in H. apply orb_false_iff in H as [Hc Hs].
    destruct n as [|n]; [destruct m as [|m]; [done|]|]; cbn [String.substring contains].
    + by rewrite Hc, (IH 0%nat m Hs).
    + by apply IH.
Qed.

(** X18. The file key [/request-upload] hands out for an admitted MIME
    type and a job id without [/] and [.], as a UUID is, passes the test
    of [/upload-complete], and [extractUuid] reads the job id back from
    it. *)
Theorem file_key_round_trip mime jobId :
  In mime allowedMimeTypes ->
  contains "/"%char jobId = false -> contains "."%char jobId = false ->
  validFileKey (fileKey mime jobId) = true /\
  extractUuid (fileKey mime jobId) = Some jobId.
Proof.
  intros Hm Hs Hd.
  assert (exists folder ext,
    fileKey mime jobId
    = folder +:+ String "/"%char (String.substring 0 2 jobId +:+
        String "/"%char (jobId +:+ String "."%char ext)) /\
    (folder = "videos" \/ folder = "images") /\
    contains "/"%char ext = false) as (folder & ext & -> & Hf & He).
  { destruct Hm as [<-|[<-|[<-|[]]]]; eexists _, _;
      (split; [reflexivity|]); split; auto. }
  split.
  - unfold validFileKey. destruct Hf as [-> | ->]; simpl;
      by destruct (_ +:+ _).
  - unfold extractUuid.
    rewrite split_app_sep by (by destruct Hf as [-> | ->]).
    rewrite split_app_sep by (by apply contains_substring).
    rewrite split_no_sep
      by (rewrite contains_app; cbn [contains]; by rewrite Hs, He).
    cbn [length Nat.eqb lookup list_lookup].
    by rewrite split_app_sep.
Qed.

(** X19. Every linked type the upload route admits has a destination in
    the scanner: the types with an entry in [bucketMap] are all admitted,
    and an admitted type is sent to the default bucket exactly when it is
    one of [message], [course], [note], [exam] and [event]. *)
Theorem admitted_types_have_buckets :
  (forall lt, is_Some (bucketMap !! lt) -> In lt allowedLinkedTypes) /\
  (forall lt, In lt allowedLinkedTypes ->
     (getTargetBucket (VStr lt) = "default-bucket" <-> In lt unmappedLinkedTypes)).
Proof.
  split.
  - intros lt [b H]. apply elem_of_list_to_map_2 in H.
    repeat (apply elem_of_cons in H as [H|H];
            [inversion H; subst; vm_compute; tauto|]).
    by apply elem_of_nil in H.
  - intros lt H.
    repeat (destruct H as [<-|H];
            [vm_compute; split; [try discriminate; tauto|
                                 intros Hin; repeat (destruct Hin as [Hin|Hin];
                                   [discriminate Hin|]); tauto]|]).
    destruct H.
Qed.


(** ** The Vision path fails without a trace *)

(** X20. An image batch of at most sixteen jobs goes to the Vision
    endpoint once: when that fails, by a rejected request or by a response
    the adapter cannot read, there is no second attempt, no delay and no
    request to the bulk backend, and the failure is not written to the
    audit log: the only call of the run is the adapter's and no table
    changes. *)
Theorem vision_failure_not_audited env jobs st err st' evs :
  (length jobs <= 16)%nat ->
  fetchResults env jobs "images" st = (Throw err, st', evs) ->
  scanMediaJobs env jobs "images" st = (Throw err, st', evs) /\
  calls evs = [CSafeSearch jobs] /\
  vision_attempts evs = 1%nat /\ remote_attempts evs = 0%nat /\ sleeps evs = [] /\
  db st' = db st.
Proof.
  intros Hlen Hf. split.
  { unfold scanMediaJobs. cbn [existsb String.eqb Ascii.eqb Bool.eqb orb negb].
    by rewrite (bind_throw _ _ _ _ _ _ Hf). }
  rewrite fetchResults_small_images in Hf by done.
  unfold safeSearchFromUrls in Hf.
  rewrite (bind_ok _ _ _ tt st [ECall (CSafeSearch jobs)]) in Hf by reflexivity.
  rewrite (bind_ok _ _ _ (tick st) (mkSt (S (tick st)) (db st) (qs st)) []) in Hf
    by reflexivity.
  rewrite (bind_ok _ _ _ tt (mkSt (S (tick st)) (db st) (qs st))
             [EVisionPost (map url jobs) (vision_post env (tick st))]) in Hf
    by reflexivity.
  destruct (vision_post env (tick st)) as [e|responses].
  - inversion Hf; subst. by repeat split.
  - destruct (visionMap jobs responses 0 _) as [[r2 st2] e2] eqn:Em.
    inversion Hf; subst.
    destruct (visionMap_console_only _ _ _ _ _ _ _ Em) as [-> Hc].
    apply console_only_quiet in Hc as (Hc & Hv & Hr & Hs).
    change (ECall (CSafeSearch jobs)
            :: EVisionPost (map url jobs) (VisionData responses) :: e2)
      with ([ECall (CSafeSearch jobs);
             EVisionPost (map url jobs) (VisionData responses)] ++ e2).
    rewrite calls_app, vision_attempts_app, remote_attempts_app, sleeps_app.
    rewrite Hc, Hv, Hr, Hs. by repeat split.
Qed.

(** ** The queue: order of the jobs *)

Lemma admitted_app v e1 e2 : admitted v (e1 ++ e2) = admitted v e1 ++ admitted v e2.
Proof. apply omap_app. Qed.

Lemma started_app type e1 e2 :
  started type (e1 ++ e2) = started type e1 ++ started type e2.
Proof. unfold started. by rewrite omap_app, concat_app. Qed.

Lemma admitted_cons v e evs : admitted v (e :: evs) = admitted v [e] ++ admitted v evs.
Proof. apply (admitted_app v [e] evs). Qed.

Lemma started_cons type e evs :
  started type (e :: evs) = started type [e] ++ started type evs.
Proof. apply (started_app type [e] evs). Qed.

Global Instance fifo_compositional : Compositional fifo.
Proof.
  split; unfold fifo.
  - intros st. simpl. by rewrite !app_nil_r.
  - intros st st1 st2 e1 e2 [Hi1 Hv1] [Hi2 Hv2].
    rewrite !admitted_app, !started_app, !app_assoc, Hi1, Hv1.
    rewrite <- !app_assoc, Hi2, Hv2. done.
Qed.

Lemma maybeFlushImages_fifo : respects fifo maybeFlushImages.
Proof.
  intros st r st' evs H. rewrite maybeFlushImages_run in H.
  destruct (imageScanning (qs st) || _); inversion H; subst; unfold fifo; simpl;
    rewrite ?app_nil_r; [done|].
  destruct st as [t d q]. unfold started. simpl.
  by rewrite app_nil_r, take_drop.
Qed.

Lemma maybeFlushVideos_fifo : respects fifo maybeFlushVideos.
Proof.
  intros st r st' evs H. rewrite maybeFlushVideos_run in H.
  destruct (videoScanning (qs st) || _); inversion H; subst; unfold fifo; simpl;
    rewrite ?app_nil_r; [done|].
  destruct st as [t d q]. unfold started. simpl.
  by rewrite app_nil_r, take_drop.
Qed.

Section Fifo.
Context (env : Env).

Local Ltac leaf :=
  first [ assumption
        | apply maybeFlushImages_fifo
        | apply maybeFlushVideos_fifo
        | apply (respects_emit fifo); intros ?; split; simpl; by rewrite app_nil_r
        | apply (respects_modify fifo); intros [? ? []]; split; simpl;
            by rewrite app_nil_r
        | apply (respects_next_op fifo); intros ?; split; simpl;
            by rewrite app_nil_r ].
Local Ltac go := repeat first [ solve [ leaf ] | respects_step ].

Lemma scheduleFlush_fifo isVideo : respects fifo (scheduleFlush env isVideo).
Proof. unfold scheduleFlush, Date_now. go. Qed.

Lemma queueMediaJob_fifo job : respects fifo (queueMediaJob env job).
Proof.
  intros st r st' evs H. unfold queueMediaJob in H.
  rewrite (bind_ok _ _ _ tt st [ECall (CQueueMediaJob job)]) in H by reflexivity.
  unfold starts_with in H.
  destruct (mime_type job) as [| |b|n|m] eqn:Em;
    try (inversion H; subst; unfold fifo, admitted, job_class_is; simpl;
         rewrite Em, !app_nil_r; done).
  rewrite bind_run in H. cbn [mret M_ret ret] in H.
  assert (started "images" [ECall (CQueueMediaJob job)] = []) as Hsi by done.
  assert (started "videos" [ECall (CQueueMediaJob job)] = []) as Hsv by done.
  destruct st as [t d q].
  destruct (String.prefix "video" m) eqn:Ep.
  - rewrite bind_run in H. cbn [get] in H. rewrite bind_run in H. cbn [modify] in H.
    destruct (scheduleFlush env true _) as [[r2 st2] e2] eqn:E2.
    destruct (scheduleFlush_fifo true _ _ _ _ E2) as [Hi Hv].
    inversion H; subst; clear H.
    cbn [app]. unfold fifo.
    rewrite (admitted_cons false (ECall (CQueueMediaJob job))),
      (admitted_cons true (ECall (CQueueMediaJob job))),
      (started_cons "images" (ECall (CQueueMediaJob job))),
      (started_cons "videos" (ECall (CQueueMediaJob job))), Hsi, Hsv.
    assert (admitted true [ECall (CQueueMediaJob job)] = [job]) as ->
      by (unfold admitted, job_class_is; simpl; by rewrite Em, Ep).
    assert (admitted false [ECall (CQueueMediaJob job)] = []) as ->
      by (unfold admitted, job_class_is; simpl; by rewrite Em, Ep).
    destruct q; simpl in *. split; [exact Hi|]. by rewrite <- Hv, <- app_assoc.
  - rewrite bind_run in H. cbn [get] in H. rewrite bind_run in H. cbn [modify] in H.
    destruct (scheduleFlush env false _) as [[r2 st2] e2] eqn:E2.
    destruct (scheduleFlush_fifo false _ _ _ _ E2) as [Hi Hv].
    inversion H; subst; clear H.
    cbn [app]. unfold fifo.
    rewrite (admitted_cons false (ECall (CQueueMediaJob job))),
      (admitted_cons true (ECall (CQueueMediaJob job))),
      (started_cons "images" (ECall (CQueueMediaJob job))),
      (started_cons "videos" (ECall (CQueueMediaJob job))), Hsi, Hsv.
    assert (admitted false [ECall (CQueueMediaJob job)] = [job]) as ->
      by (unfold admitted, job_class_is; simpl; by rewrite Em, Ep).
    assert (admitted true [ECall (CQueueMediaJob job)] = []) as ->
      by (unfold admitted, job_class_is; simpl; by rewrite Em, Ep).
    destruct q; simpl in *. split; [|exact Hv]. by rewrite <- Hi, <- app_assoc.
Qed.

Lemma logSystemEvent_fifo l : respects fifo (logSystemEvent env l).
Proof. unfold logSystemEvent, supabase. go. Qed.

Lemma recoverJob_fifo job : respects fifo (recoverJob env job).
Proof.
  unfold recoverJob, detached, generateSignedGetUrl.
  go; first [ apply queueMediaJob_fifo | apply logSystemEvent_fifo ].
Qed.

Lemma recoverJobs_fifo jobs : respects fifo (recoverJobs env jobs).
Proof.
  induction jobs as [|job rest IH]; simpl; [go|].
  respects_step; [apply recoverJob_fifo|exact IH].
Qed.

Lemma recovery_fifo : respects fifo (recovery env).
Proof.
  unfold recovery, getPendingMediaJobs, supabase.
  go; first [ apply recoverJobs_fifo | apply scheduleFlush_fifo ].
Qed.

End Fifo.

(** X21. The queues are first in, first out, and lose and duplicate
    nothing: in any run of an entry point of the queue module, a job
    enqueued, a timer firing, a scan settling or the recovery, the jobs of
    a class queued before the run, followed by the jobs of the class the
    run admits, are the jobs the run sends to scans of the class, in the
    order of the scans, followed by the jobs still queued. *)
Theorem queue_is_fifo env :
  (forall job, respects fifo (queueMediaJob env job)) /\
  respects fifo imageTimerCallback /\
  respects fifo videoTimerCallback /\
  respects fifo (imageScanSettled env) /\
  respects fifo (videoScanSettled env) /\
  respects fifo (recovery env).
Proof.
  assert (forall f, (forall q, imageQueue (f q) = imageQueue q) ->
                    (forall q, videoQueue (f q) = videoQueue q) ->
                    respects fifo (modify (set_qs f))) as Hmod.
  { intros f Hi Hv. apply (respects_modify fifo). intros [t d q]. split; simpl;
      by rewrite ?Hi, ?Hv, app_nil_r. }
  split; [apply queueMediaJob_fifo|].
  split; [|split; [|split; [|split]]].
  - unfold imageTimerCallback.
    respects_step; [by apply Hmod; intros []|apply maybeFlushImages_fifo].
  - unfold videoTimerCallback.
    respects_step; [by apply Hmod; intros []|apply maybeFlushVideos_fifo].
  - unfold imageScanSettled. respects_step; [by apply Hmod; intros []|].
    repeat respects_step. apply scheduleFlush_fifo.
  - unfold videoScanSettled. respects_step; [by apply Hmod; intros []|].
    repeat respects_step. apply scheduleFlush_fifo.
  - apply recovery_fifo.
Qed.


(** ** Further concrete runs *)

Lemma invalid_scan_type_rejected_witness :
  exists st' evs,
    scanMediaJobs ex_env_down [ex_video_job] "audio" ex_st0
    = (Throw "Invalid scan type: audio", st', evs) /\
    calls evs = [CLogSystemEvent (invalidScanTypeEvent "audio")] /\
    remote_attempts evs = 0%nat /\ vision_attempts evs = 0%nat /\
    only_logs ex_st0 st'.
Proof.
  apply (invalid_scan_type_rejected ex_env_down [ex_video_job] "audio" ex_st0).
  reflexivity.
Defined.

Lemma verdict_index_last_wins_witness :
  verdictOf [RObj ex_safe; RObj ex_nsfw] ex_video_job = Some ex_nsfw.
Proof.
  apply (proj1 (verdict_index_last_wins ex_video_job) [RObj ex_safe] ex_nsfw []).
  - intros [H|[H|[]]]; discriminate H.
  - reflexivity.
  - intros v' [].
Defined.

Lemma null_result_entry_aborts_witness :
  scanMediaJobs ex_env_null_entry [ex_video_job] "videos" ex_st0
  = (Throw nullEntryError,
     (fetchResults ex_env_null_entry [ex_video_job] "videos" ex_st0).1.2,
     (fetchResults ex_env_null_entry [ex_video_job] "videos" ex_st0).2) /\
  (forall c,
     In c (calls (fetchResults ex_env_null_entry [ex_video_job] "videos" ex_st0).2) ->
     scan_only c) /\
  only_logs ex_st0 (fetchResults ex_env_null_entry [ex_video_job] "videos" ex_st0).1.2.
Proof.
  apply (null_result_entry_aborts ex_env_null_entry [ex_video_job] "videos" ex_st0
           [RNullish]).
  - reflexivity.
  - vm_compute. reflexivity.
  - left. reflexivity.
Defined.

Lemma no_job_silently_dropped_witness :
  exists completed st' evs,
    scanMediaJobs ex_env_nsfw [ex_video_job] "videos" ex_st0 = (Ok tt, st', evs) /\
    In (ECall (CMarkJobsAsComplete completed)) evs /\
    sublist completed [ex_video_job] /\
    forall job, In job [ex_video_job] ->
      In job completed \/ error_logged_for job evs.
Proof.
  eapply (no_job_silently_dropped ex_env_nsfw [ex_video_job] "videos" ex_st0
            [RObj ex_nsfw]).
  - reflexivity.
  - vm_compute. reflexivity.
  - intros [H|[]]. discriminate H.
Defined.

Lemma vision_verdicts_by_position_witness :
  exists responses,
    vision_post ex_env_vision_error (tick ex_st0) = VisionData responses /\
    (length responses <= length [ex_image_job])%nat /\
    [RObj (mkVerdict "job-1" (VBool false) VUndef VUndef VUndef
             (Some "Bad image data"))]
    = zip_with visionVerdictOf [ex_image_job] responses /\
    (forall res, In res responses -> is_Some (v_error res) ->
       visionFlag res = false) /\
    (forall v,
       In (RObj v)
          [RObj (mkVerdict "job-1" (VBool false) VUndef VUndef VUndef
                   (Some "Bad image data"))] ->
       width v = VUndef /\ height v = VUndef /\ duration v = VUndef) /\
    db (safeSearchFromUrls ex_env_vision_error [ex_image_job] ex_st0).1.2
    = db ex_st0 /\
    calls (safeSearchFromUrls ex_env_vision_error [ex_image_job] ex_st0).2
    = [CSafeSearch [ex_image_job]] /\
    vision_attempts (safeSearchFromUrls ex_env_vision_error [ex_image_job] ex_st0).2
    = 1%nat /\
    remote_attempts (safeSearchFromUrls ex_env_vision_error [ex_image_job] ex_st0).2
    = 0%nat /\
    In (EVisionPost (map url [ex_image_job]) (VisionData responses))
       (safeSearchFromUrls ex_env_vision_error [ex_image_job] ex_st0).2.
Proof.
  apply (vision_verdicts_by_position ex_env_vision_error [ex_image_job] ex_st0).
  vm_compute. reflexivity.
Defined.

Lemma small_image_batch_never_records_witness :
  media (db (scanMediaJobs ex_env_vision_safe [ex_image_job] "images" ex_st0).1.2)
  = media (db ex_st0).
Proof.
  refine (proj1 (small_image_batch_never_records ex_env_vision_safe [ex_image_job]
                   ex_st0
                   (scanMediaJobs ex_env_vision_safe [ex_image_job] "images" ex_st0).1.1
                   (scanMediaJobs ex_env_vision_safe [ex_image_job] "images" ex_st0).1.2
                   (scanMediaJobs ex_env_vision_safe [ex_image_job] "images" ex_st0).2
                   _ _)).
  - simpl. lia.
  - by destruct (scanMediaJobs ex_env_vision_safe [ex_image_job] "images" ex_st0)
      as [[? ?] ?].
Defined.

Lemma safe_batch_never_penalises_witness :
  (forall c,
     In (ECall c) (scanMediaJobs ex_env_safe [ex_video_job] "videos" ex_st0).2 ->
     not_penalising c) /\
  same_penalties ex_st0 (scanMediaJobs ex_env_safe [ex_video_job] "videos" ex_st0).1.2.
Proof.
  eapply (safe_batch_never_penalises ex_env_safe [ex_video_job] "videos" ex_st0
            (scanMediaJobs ex_env_safe [ex_video_job] "videos" ex_st0).1.1
            _ _ [RObj ex_safe]).
  - by destruct (scanMediaJobs ex_env_safe [ex_video_job] "videos" ex_st0) as [[? ?] ?].
  - vm_compute. reflexivity.
  - intros job v [<-|[]] Hv. vm_compute in Hv. inversion Hv. discriminate.
Defined.

Lemma createMediaItem_outcomes_witness :
  calls (createMediaItem ex_env_safe
           (mediaItemOf ex_video_job ex_safe (getTargetKey ex_video_job)) ex_st0).2
  = [CCreateMediaItem (mediaItemOf ex_video_job ex_safe (getTargetKey ex_video_job))].
Proof.
  refine (proj1 (createMediaItem_outcomes ex_env_safe
                   (mediaItemOf ex_video_job ex_safe (getTargetKey ex_video_job))
                   ex_st0
                   (createMediaItem ex_env_safe
                      (mediaItemOf ex_video_job ex_safe (getTargetKey ex_video_job))
                      ex_st0).1.1
                   (createMediaItem ex_env_safe
                      (mediaItemOf ex_video_job ex_safe (getTargetKey ex_video_job))
                      ex_st0).1.2
                   _ _)).
  by destruct (createMediaItem ex_env_safe
                 (mediaItemOf ex_video_job ex_safe (getTargetKey ex_video_job))
                 ex_st0) as [[? ?] ?].
Defined.

Lemma completed_jobs_leave_pending_witness :
  pending (db (markJobsAsComplete ex_env_safe [ex_video_job] ex_st0).1.2)
  = filter (fun j => id j ∉ map id [ex_video_job]) (pending (db ex_st0)).
Proof.
  apply (proj1 (completed_jobs_leave_pending ex_env_safe [ex_video_job] ex_st0
                  (Ok tt) _ _ eq_refl)).
Defined.

Lemma queue_scans_and_timers_well_formed_witness :
  Forall well_formed_event (queueMediaJob ex_env_down ex_video_job ex_st9).2.
Proof.
  apply (proj1 (queue_scans_and_timers_well_formed ex_env_down) ex_video_job ex_st9
           (queueMediaJob ex_env_down ex_video_job ex_st9).1.1
           (queueMediaJob ex_env_down ex_video_job ex_st9).1.2).
  by destruct (queueMediaJob ex_env_down ex_video_job ex_st9) as [[? ?] ?].
Defined.

Lemma untyped_job_never_enqueued_witness :
  exists err,
    queueMediaJob ex_env_down ex_untyped_job ex_st0
    = (Throw err, ex_st0, [ECall (CQueueMediaJob ex_untyped_job)]).
Proof.
  apply (proj1 (untyped_job_never_enqueued ex_env_down ex_untyped_job ex_st0 eq_refl)).
Defined.

Lemma rate_limit_effective_witness :
  (length (recent 2 (take 2 [0; 1; 2]%Z)) < LIMIT_PER_MINUTE)%nat.
Proof.
  apply (rate_limit_effective (VStr "user-1") [0; 1; 2]%Z ex_limiter 2 2%Z).
  - repeat constructor; lia.
  - reflexivity.
  - reflexivity.
  - vm_compute. reflexivity.
Defined.

Lemma flagged_key_locked_out_witness :
  (checkRateLimit 1 (VStr "user-1") ex_limiter_full).1 = false.
Proof.
  apply (flagged_key_locked_out 1 (VStr "user-1") ex_limiter_full).
  - reflexivity.
  - vm_compute. lia.
Defined.

Lemma rate_limit_keys_independent_witness :
  rateLimits (checkRateLimit 1 (VStr "user-1") ex_limiter).2 !! VStr "user-2"
  = rateLimits ex_limiter !! VStr "user-2".
Proof.
  apply (rate_limit_keys_independent 1 (VStr "user-1") (VStr "user-2") ex_limiter).
  - discriminate.
  - left. reflexivity.
Defined.

Lemma file_key_round_trip_witness :
  validFileKey (fileKey "image/png" "22b3f665-4e5c-4aef-901a-1e2f5e6c844e") = true /\
  extractUuid (fileKey "image/png" "22b3f665-4e5c-4aef-901a-1e2f5e6c844e")
  = Some "22b3f665-4e5c-4aef-901a-1e2f5e6c844e".
Proof.
  apply (file_key_round_trip "image/png" "22b3f665-4e5c-4aef-901a-1e2f5e6c844e").
  - right. left. reflexivity.
  - reflexivity.
  - reflexivity.
Defined.

Lemma admitted_types_have_buckets_witness :
  getTargetBucket (VStr "message") = "default-bucket" <-> In "message" unmappedLinkedTypes.
Proof.
  apply (proj2 admitted_types_have_buckets "message").
  simpl. tauto.
Defined.

Lemma vision_failure_not_audited_witness :
  scanMediaJobs ex_env_down [ex_image_job] "images" ex_st0
  = (Throw "ECONNRESET", bump ex_st0,
     [ECall (CSafeSearch [ex_image_job]);
      EVisionPost [url ex_image_job] (VisionRejects "ECONNRESET")]).
Proof.
  refine (proj1 (vision_failure_not_audited ex_env_down [ex_image_job] ex_st0
                   "ECONNRESET" (bump ex_st0)
                   [ECall (CSafeSearch [ex_image_job]);
                    EVisionPost [url ex_image_job] (VisionRejects "ECONNRESET")]
                   _ _)).
  - simpl. lia.
  - reflexivity.
Defined.

Lemma queue_is_fifo_witness :
  fifo ex_st9 (queueMediaJob ex_env_down ex_video_job ex_st9).1.2
       (queueMediaJob ex_env_down ex_video_job ex_st9).2.
Proof.
  apply (proj1 (queue_is_fifo ex_env_down) ex_video_job ex_st9
           (queueMediaJob ex_env_down ex_video_job ex_st9).1.1).
  by destruct (queueMediaJob ex_env_down ex_video_job ex_st9) as [[? ?] ?].
Defined.
